(** * Tumblr profile finder: location matcher, eligibility filter, rate
    governor, crawl controller, enrichment pipeline and progress store.

    Shallow embedding of [tumblr_profile_finder.py] (class
    [TumblrProfileFinder]) and [tumblr_profile_finder_auto.py] (classes
    [RateLimitTracker] and [AutoTumblrProfileFinder]).

    Conventions of the embedding.
    - A Python [str] is a [string]; the texts are ASCII, so [str.lower]
      only moves the letters A-Z and the word characters of the regular
      expression engine are the letters, the digits and the underscore.
    - A [datetime] is the number of microseconds since the epoch (the
      resolution of [datetime]), a [timedelta] a number of microseconds;
      [timedelta.total_seconds() >= 3600] is a comparison with
      3600 * 10^6 and [timedelta.days] is the floor division by
      86400 * 10^6.
    - The wall clock is a field of the finder state.  It moves only when
      the program sleeps; [time.sleep d] moves it by [d].
    - The iteration order of a Python [set] is not determined by its
      contents.  It is a parameter of the development ([PyRuntime]).
    - The remote service (the [pytumblr] client) is an interface
      ([TumblrClient]); every call through it is appended to a log kept in
      the finder state.
    - An exception that leaves a function is a result of its own: [None]
      for a function that computes a value, [Raised] with the state at
      that moment for one that acts on the finder.  The exceptions that
      are followed are those of [datetime.fromtimestamp] on a timestamp
      that has no date, of an assignment that [os.environ] refuses and of
      [open] on an output file that cannot be written.  The runs are not
      interrupted from the keyboard, and the progress file can be written
      and holds what [save_progress] wrote. *)

From stdpp Require Import base option list gmap sets strings sorting pretty.
From Stdlib Require Import ZArith Ascii String.

Local Open Scope string_scope.
Local Open Scope list_scope.
Local Open Scope Z_scope.

(** ** Text primitives *)

Module Text.

Definition code (c : ascii) : N := N_of_ascii c.

Definition is_upper (c : ascii) : bool :=
  (65 <=? code c)%N && (code c <=? 90)%N.

Definition is_lower (c : ascii) : bool :=
  (97 <=? code c)%N && (code c <=? 122)%N.

Definition is_digit (c : ascii) : bool :=
  (48 <=? code c)%N && (code c <=? 57)%N.

(** [\w] of the regular expression engine on ASCII text. *)
Definition is_word_char (c : ascii) : bool :=
  is_upper c || is_lower c || is_digit c || (code c =? 95)%N.

Definition lower_char (c : ascii) : ascii :=
  if is_upper c then ascii_of_N (code c + 32) else c.

Definition chars (s : string) : list ascii := list_ascii_of_string s.

(** [str.lower] *)
Definition lower (s : string) : string :=
  string_of_list_ascii (map lower_char (chars s)).

(** Truth value of a string: [if not text] holds of the empty string. *)
Definition truthy (s : string) : bool :=
  match s with EmptyString => false | String _ _ => true end.

Definition opt_word (c : option ascii) : bool :=
  match c with Some a => is_word_char a | None => false end.

(** [\b]: the position between [prev] and [next] is a word boundary when
    exactly one of the two is a word character (the ends of the text
    count as non-word). *)
Definition word_boundary (prev next : option ascii) : bool :=
  xorb (opt_word prev) (opt_word next).

Fixpoint strip_prefix (pat s : list ascii) : option (list ascii) :=
  match pat, s with
  | [], _ => Some s
  | _ :: _, [] => None
  | p :: pat', c :: s' =>
      if decide (p = c) then strip_prefix pat' s' else None
  end.

(** The character just before the end of a match of [pat] that starts
    after [prev]. *)
Definition last_before (prev : option ascii) (pat : list ascii)
  : option ascii :=
  match last pat with Some c => Some c | None => prev end.

(** Does [\b pat \b] match at the current position? [prev] is the
    character before it, [s] the text from it on. *)
Definition match_here (prev : option ascii) (pat s : list ascii) : bool :=
  word_boundary prev (head s) &&
  match strip_prefix pat s with
  | Some rest => word_boundary (last_before prev pat) (head rest)
  | None => false
  end.

Fixpoint search_from (prev : option ascii) (pat s : list ascii) : bool :=
  match_here prev pat s ||
  match s with
  | [] => false
  | c :: s' => search_from (Some c) pat s'
  end.

(** [re.search(r'\b' + re.escape(pat) + r'\b', text)] as a truth value. *)
Definition re_search_word (pat text : string) : bool :=
  search_from None (chars pat) (chars text).

Definition is_gt (c : ascii) : bool := (code c =? 62)%N.
Definition is_lt (c : ascii) : bool := (code c =? 60)%N.

(** [re.sub(r'<[^>]+>', '', text)]: a [<] followed by at least one
    character other than [>] and then, somewhere later, by a [>] is
    removed up to the first such [>]; scanning goes on after it. *)
Fixpoint strip_tags_go (in_tag : bool) (s : list ascii) : list ascii :=
  match s with
  | [] => []
  | c :: s' =>
      if in_tag then
        if is_gt c then strip_tags_go false s' else strip_tags_go true s'
      else if is_lt c then
        match s' with
        | d :: s'' =>
            if negb (is_gt d) && existsb is_gt s''
            then strip_tags_go true s'
            else c :: strip_tags_go false s'
        | [] => [c]
        end
      else c :: strip_tags_go false s'
  end.

Definition strip_tags (s : string) : string :=
  string_of_list_ascii (strip_tags_go false (chars s)).

(** The first occurrence of [sep] in [s] cuts it: the part before. *)
Fixpoint before_sep (sep s : list ascii) : option (list ascii) :=
  match strip_prefix sep s with
  | Some _ => Some []
  | None =>
      match s with
      | [] => None
      | c :: s' => cons c <$> before_sep sep s'
      end
  end.

(** [sep.join(l)] *)
Fixpoint join (sep : string) (l : list string) : string :=
  match l with
  | [] => ""
  | [x] => x
  | x :: rest => x +:+ sep +:+ join sep rest
  end.

(** [T] occurs in [s] as a word of its own: not glued to a word
    character on either side. *)
Definition standalone (T s : list ascii) : Prop :=
  ∃ pre post : list ascii, s = (pre ++ T ++ post)%list ∧
              opt_word (last pre) = false ∧ opt_word (head post) = false.

(** A pattern that starts and ends with a word character. *)
Definition word_edged (T : list ascii) : Prop :=
  opt_word (head T) = true ∧ opt_word (last T) = true.

End Text.


(** ** Configuration and data model *)

(** [LOCATION_INDICATORS], the gazetteer.  In the source it is a set
    literal; the list holds its members as they are written there. *)
Definition LOCATION_INDICATORS : list string :=
  [ "california"; "ca"; "cali"; "norcal"; "socal"; "bay area";
    "silicon valley"; "east bay"; "south bay"; "peninsula";
    "san francisco"; "sf"; "oakland"; "berkeley"; "san jose";
    "los angeles"; "san diego"; "sacramento"; "palo alto";
    "mountain view"; "fremont"; "santa clara"; "cupertino"; "menlo park";
    "redwood city"; "sunnyvale"; "santa monica"; "venice beach";
    "pasadena" ].

(** What the interpreter and its library decide: the order in which a set
    is iterated (the gazetteer is one fixed set object, iterated in the
    same order each time; [set_iter X] is [list(X)]), the two date
    formats, and the epoch seconds that [datetime.fromtimestamp] turns
    into a date (for the others it raises). *)
Class PyRuntime := {
  loc_iter : list string;
  loc_iter_perm : loc_iter ≡ₚ LOCATION_INDICATORS;
  set_iter : gset string → list string;
  set_iter_perm : ∀ X, set_iter X ≡ₚ elements X;
  strftime_ymd : Z → string;
  isoformat : Z → string;
  representable : Z → bool
}.

(** A post record of the [tagged] endpoint: each key may be absent. *)
Record Post := {
  p_blog_name : option string;
  p_body : option string;
  p_caption : option string;
  p_question : option string;
  p_answer : option string;
  p_timestamp : option Z
}.

(** The [blog] record of the [blog_info] endpoint: each key may be
    absent.  The record itself is never the empty dict. *)
Record BlogInfo := {
  bi_url : option string;
  bi_title : option string;
  bi_description : option string;
  bi_tags : option (list string);
  bi_total_followers : option Z;
  bi_posts : option Z;
  bi_updated : option Z
}.

(** A value of [discovered_blogs]. *)
Record BlogRecord := {
  blog_name : string;
  blog_url : string;
  title : string;
  description : string;
  follower_count : Z;
  total_posts : Z;
  last_post_date : string;
  location_match_term : string;
  location_match_source : string;
  blog_tags : list string;
  theme_matched : string
}.

Definition set_theme_matched (r : BlogRecord) (t : string) : BlogRecord :=
  {| blog_name := blog_name r; blog_url := blog_url r; title := title r;
     description := description r; follower_count := follower_count r;
     total_posts := total_posts r; last_post_date := last_post_date r;
     location_match_term := location_match_term r;
     location_match_source := location_match_source r;
     blog_tags := blog_tags r; theme_matched := t |}.

(** The remote service.  [None] stands for a raised exception and, for
    [blog_info], also for a response without the [blog] key. *)
Inductive ApiCall :=
| CallTagged (theme : string) (before : option Z) (limit : Z)
| CallBlogInfo (name : string).

Class TumblrClient := {
  tagged : string → option Z → Z → option (list Post);
  blog_info : string → option BlogInfo
}.

(** ** Time *)

Definition second : Z := 1000000.
Definition hour : Z := 3600 * second.
Definition day : Z := 86400 * second.

(** The [datetime] of the epoch second [t]. *)
Definition of_epoch (t : Z) : Z := t * second.

(** [datetime.fromtimestamp(t)] for [t] in epoch seconds; [None] when it
    raises. *)
Definition fromtimestamp `{PyRuntime} (t : Z) : option Z :=
  if representable t then Some (of_epoch t) else None.

(** [timedelta.days] *)
Definition days (delta : Z) : Z := delta / day.

(** ** Location matcher *)

Section Matcher.
Context `{PyRuntime}.

(** [re.search(r'\b' + re.escape(location.lower()) + r'\b', text)] *)
Definition term_matches (location text : string) : bool :=
  Text.re_search_word (Text.lower location) text.

(** [for location in LOCATION_INDICATORS: if re.search(...): return] *)
Definition first_location (text_lower : string) : option string :=
  List.find (λ location, term_matches location text_lower) loc_iter.

Fixpoint match_fields (text_fields : list (string * string))
  : option (string * string) :=
  match text_fields with
  | [] => None
  | (source, text) :: rest =>
      if negb (Text.truthy text) then match_fields rest
      else match first_location (Text.lower text) with
           | Some location => Some (location, source)
           | None => match_fields rest
           end
  end.

Definition match_tags (tags : list string) : option (string * string) :=
  match tags with
  | [] => None
  | _ :: _ =>
      let tags_lower := map Text.lower tags in
      match List.find (λ location,
               existsb (λ tag, term_matches location tag) tags_lower)
              loc_iter with
      | Some location => Some (location, "tags")
      | None => None
      end
  end.

(** [TumblrProfileFinder.find_location_match]; [text_fields] is the dict
    in its iteration (insertion) order. *)
Definition find_location_match (text_fields : list (string * string))
    (tags : list string) : option (string * string) :=
  match match_fields text_fields with
  | Some r => Some r
  | None => match_tags tags
  end.

Definition content_field (key : string) (v : option string)
  : list (string * string) :=
  match v with Some text => [(key, text)] | None => [] end.

Definition content_fields (post : Post) : list (string * string) :=
  content_field "body" (p_body post) ++
  content_field "caption" (p_caption post) ++
  content_field "question" (p_question post) ++
  content_field "answer" (p_answer post).

Fixpoint match_content (fields : list (string * string))
  : option (string * string) :=
  match fields with
  | [] => None
  | (source, text) :: rest =>
      if negb (Text.truthy text) then match_content rest
      else match first_location (Text.lower (Text.strip_tags text)) with
           | Some location => Some (location, "post_" +:+ source)
           | None => match_content rest
           end
  end.

(** [TumblrProfileFinder.check_post_content_for_location] *)
Definition check_post_content_for_location (post : Post)
  : option (string * string) :=
  match_content (content_fields post).

End Matcher.

(** ** Eligibility filter *)

(** [TumblrProfileFinder.meets_criteria]; [now] is [datetime.now()].
    [None] when the call raises: the conversion of the timestamp is not
    guarded. *)
Definition meets_criteria `{PyRuntime} (blog_info : BlogInfo)
    (min_followers max_days_inactive now : Z) : option (bool * option Z) :=
  let followers := default 0 (bi_total_followers blog_info) in
  if followers <? min_followers then Some (false, None)
  else
    let updated := default 0 (bi_updated blog_info) in
    if updated =? 0 then Some (false, None)
    else
      match fromtimestamp updated with
      | None => None
      | Some last_post_date =>
          let days_since_post := days (now - last_post_date) in
          if max_days_inactive <? days_since_post
          then Some (false, Some last_post_date)
          else Some (true, Some last_post_date)
      end.

(** ** Rate governor *)

Record RateLimitTracker := {
  hourly_limit : Z;
  daily_limit : Z;
  hourly_calls : Z;
  daily_calls : Z;
  hour_start : Z;
  day_start : Z;
  total_calls : Z
}.

(** [RateLimitTracker.__init__] with its default limits. *)
Definition new_tracker (now : Z) : RateLimitTracker :=
  {| hourly_limit := 1000; daily_limit := 5000;
     hourly_calls := 0; daily_calls := 0;
     hour_start := now; day_start := now; total_calls := 0 |}.

Definition record_call (t : RateLimitTracker) : RateLimitTracker :=
  {| hourly_limit := hourly_limit t; daily_limit := daily_limit t;
     hourly_calls := hourly_calls t + 1; daily_calls := daily_calls t + 1;
     hour_start := hour_start t; day_start := day_start t;
     total_calls := total_calls t + 1 |}.

Definition reset_hour (t : RateLimitTracker) (now : Z) : RateLimitTracker :=
  {| hourly_limit := hourly_limit t; daily_limit := daily_limit t;
     hourly_calls := 0; daily_calls := daily_calls t;
     hour_start := now; day_start := day_start t;
     total_calls := total_calls t |}.

Definition reset_day (t : RateLimitTracker) (now : Z) : RateLimitTracker :=
  {| hourly_limit := hourly_limit t; daily_limit := daily_limit t;
     hourly_calls := hourly_calls t; daily_calls := 0;
     hour_start := hour_start t; day_start := now;
     total_calls := total_calls t |}.

(** The safety margin and the buffer added to the wait. *)
Definition safety_margin : Z := 10.
Definition wait_buffer : Z := 10 * second.

(** The two roll-over tests at the head of [check_and_wait]. *)
Definition roll_over (t : RateLimitTracker) (now : Z) : RateLimitTracker :=
  let t1 := if hour <=? now - hour_start t then reset_hour t now else t in
  if day <=? now - day_start t1 then reset_day t1 now else t1.

(** [RateLimitTracker.check_and_wait] called at time [now]: the answer,
    the tracker after the call and the time slept, if it slept.  After a
    sleep of [d] the clock reads [now + d]. *)
Definition check_and_wait (t : RateLimitTracker) (now : Z)
  : bool * RateLimitTracker * option Z :=
  let t2 := roll_over t now in
  let '(t3, nap) :=
    if hourly_limit t2 - safety_margin <=? hourly_calls t2 then
      let time_elapsed := now - hour_start t2 in
      let time_remaining := hour - time_elapsed in
      if 0 <? time_remaining then
        let d := time_remaining + wait_buffer in
        (reset_hour t2 (now + d), Some d)
      else (t2, None)
    else (t2, None) in
  if daily_limit t3 - safety_margin <=? daily_calls t3
  then (false, t3, nap)
  else (true, t3, nap).

(** [RateLimitTracker.get_status] *)
Record RateStatus := {
  st_hourly_calls : Z;
  st_hourly_limit : Z;
  st_daily_calls : Z;
  st_daily_limit : Z;
  st_total_calls : Z
}.

Definition get_status (t : RateLimitTracker) : RateStatus :=
  {| st_hourly_calls := hourly_calls t; st_hourly_limit := hourly_limit t;
     st_daily_calls := daily_calls t; st_daily_limit := daily_limit t;
     st_total_calls := total_calls t |}.

(** ** Finder state and progress store *)

(** The content of [search_progress.json] as [json.load] returns it, for
    a file written by [save_progress]: sets were turned into lists. *)
Record Progress := {
  pr_discovered_blogs : gmap string BlogRecord;
  pr_blog_themes : gmap string (list string);
  pr_rate_limit_status : RateStatus;
  pr_timestamp : string
}.

(** The state of a finder object together with the part of the world it
    acts on: the clock, the sleeps it made (latest first), the calls it
    sent to the service (latest first) and the progress file, if there is
    one.  The base class has no [rate_tracker]; its methods leave that
    field alone. *)
Record Finder := {
  discovered_blogs : gmap string BlogRecord;
  blog_themes : gmap string (gset string);
  rate_tracker : RateLimitTracker;
  clock : Z;
  slept : list Z;
  api_log : list ApiCall;
  progress_file : option Progress
}.

(** [AutoTumblrProfileFinder.__init__] at time [now], in a directory whose
    progress file is [file]. *)
Definition new_finder (now : Z) (file : option Progress) : Finder :=
  {| discovered_blogs := ∅; blog_themes := ∅;
     rate_tracker := new_tracker now; clock := now; slept := [];
     api_log := []; progress_file := file |}.

Definition with_tracker (f : Finder) (t : RateLimitTracker) : Finder :=
  {| discovered_blogs := discovered_blogs f; blog_themes := blog_themes f;
     rate_tracker := t; clock := clock f; slept := slept f;
     api_log := api_log f; progress_file := progress_file f |}.

(** [time.sleep(d)] *)
Definition sleep (d : Z) (f : Finder) : Finder :=
  {| discovered_blogs := discovered_blogs f; blog_themes := blog_themes f;
     rate_tracker := rate_tracker f; clock := clock f + d;
     slept := d :: slept f;
     api_log := api_log f; progress_file := progress_file f |}.

Definition log_call (c : ApiCall) (f : Finder) : Finder :=
  {| discovered_blogs := discovered_blogs f; blog_themes := blog_themes f;
     rate_tracker := rate_tracker f; clock := clock f; slept := slept f;
     api_log := c :: api_log f; progress_file := progress_file f |}.

Definition with_results (f : Finder) (db : gmap string BlogRecord)
    (bt : gmap string (gset string)) : Finder :=
  {| discovered_blogs := db; blog_themes := bt;
     rate_tracker := rate_tracker f; clock := clock f; slept := slept f;
     api_log := api_log f; progress_file := progress_file f |}.

Definition with_file (f : Finder) (p : option Progress) : Finder :=
  {| discovered_blogs := discovered_blogs f; blog_themes := blog_themes f;
     rate_tracker := rate_tracker f; clock := clock f; slept := slept f;
     api_log := api_log f; progress_file := p |}.

(** [self.blog_themes[blog_name].add(theme)] on the [defaultdict(set)]. *)
Definition add_theme (name theme : string)
    (bt : gmap string (gset string)) : gmap string (gset string) :=
  <[name := {[theme]} ∪ default ∅ (bt !! name)]> bt.

(** [self.rate_tracker.check_and_wait()] on the finder: the sleep, if
    any, moves the clock. *)
Definition finder_check_and_wait (f : Finder) : bool * Finder :=
  let '(ok, t, nap) := check_and_wait (rate_tracker f) (clock f) in
  (ok, match nap with
       | Some d => sleep d (with_tracker f t)
       | None => with_tracker f t
       end).

Definition finder_record_call (f : Finder) : Finder :=
  with_tracker f (record_call (rate_tracker f)).

Section ProgressStore.
Context `{PyRuntime}.

(** [AutoTumblrProfileFinder.save_progress] *)
Definition save_progress (f : Finder) : Finder :=
  with_file f (Some
    {| pr_discovered_blogs := discovered_blogs f;
       pr_blog_themes := set_iter <$> blog_themes f;
       pr_rate_limit_status := get_status (rate_tracker f);
       pr_timestamp := isoformat (clock f) |}).

(** [AutoTumblrProfileFinder.load_progress] *)
Definition load_progress (f : Finder) : bool * Finder :=
  match progress_file f with
  | Some progress =>
      (true, with_results f (pr_discovered_blogs progress)
               (list_to_set <$> pr_blog_themes progress))
  | None => (false, f)
  end.

End ProgressStore.

(** ** Crawl controller *)

(** One step of a loop body: leave the loop or go round again. *)
Inductive Step (A : Type) : Type :=
| Break (a : A)
| Next (a : A).
Arguments Break {A} a.
Arguments Next {A} a.

Fixpoint run_loop {A : Type} (body : A → Step A) (fuel : nat) (a : A)
  : option A :=
  match fuel with
  | O => None
  | S fuel' =>
      match body a with
      | Break a' => Some a'
      | Next a' => run_loop body fuel' a'
      end
  end.

(** The state after [n] further rounds, when the loop goes round that
    many times. *)
Fixpoint advance {A : Type} (body : A → Step A) (n : nat) (a : A)
  : option A :=
  match n with
  | O => Some a
  | S n' =>
      match body a with
      | Break _ => None
      | Next a' => advance body n' a'
      end
  end.

Definition step_value {A : Type} (s : Step A) : A :=
  match s with Break a => a | Next a => a end.

(** How a call ends: it returns, or an exception leaves it; either way
    with what it has reached by then. *)
Inductive Ending (A : Type) : Type :=
| Returned (a : A)
| Raised (a : A).
Arguments Returned {A} a.
Arguments Raised {A} a.

Definition state {A : Type} (e : Ending A) : A :=
  match e with Returned a => a | Raised a => a end.

(** One round of a loop body that can also return from the function or
    be left by an exception. *)
Inductive Flow (A : Type) : Type :=
| Continues (a : A)
| Returns (a : A)
| Raises (a : A).
Arguments Continues {A} a.
Arguments Returns {A} a.
Arguments Raises {A} a.

Definition flow_state {A : Type} (s : Flow A) : A :=
  match s with Continues a => a | Returns a => a | Raises a => a end.

(** [blog_locations]: the [defaultdict(set)] of a theme search, as the
    list of its items in insertion order. *)
Abbreviation BlogLocations := (list (string * gset string)).

(** [blog_locations[name].add(mention)] *)
Fixpoint bl_add (name mention : string) (bl : BlogLocations)
  : BlogLocations :=
  match bl with
  | [] => [(name, {[mention]})]
  | (k, s) :: rest =>
      if decide (k = name) then (k, {[mention]} ∪ s) :: rest
      else (k, s) :: bl_add name mention rest
  end.

(** [if name not in blog_locations: blog_locations[name] = set()] *)
Fixpoint bl_register (name : string) (bl : BlogLocations) : BlogLocations :=
  match bl with
  | [] => [(name, ∅)]
  | (k, s) :: rest =>
      if decide (k = name) then (k, s) :: rest
      else (k, s) :: bl_register name rest
  end.

(** [f"{location_term} (in {source})"] *)
Definition mention (location_term source : string) : string :=
  location_term +:+ " (in " +:+ source +:+ ")".

Record SearchState := {
  blog_locations : BlogLocations;
  before : option Z;
  posts_retrieved : Z
}.

Definition search_init : SearchState :=
  {| blog_locations := []; before := None; posts_retrieved := 0 |}.

(** [if before:] chooses between the call with and without the cursor;
    a cursor of 0 counts as none. *)
Definition cursor_arg (before : option Z) : option Z :=
  match before with
  | Some t => if t =? 0 then None else Some t
  | None => None
  end.

(** [min(20, max_posts - posts_retrieved)] *)
Definition page_limit (max_posts : Z) (st : SearchState) : Z :=
  Z.min 20 (max_posts - posts_retrieved st).

Section Crawl.
Context `{PyRuntime} `{TumblrClient}.

(** The body of [for post in response]. *)
Definition absorb_post (acc : BlogLocations * option Z) (post : Post)
  : BlogLocations * option Z :=
  let '(bl, before) := acc in
  let bl1 :=
    match p_blog_name post with
    | Some name =>
        let bl' :=
          match check_post_content_for_location post with
          | Some (location_term, source) =>
              bl_add name (mention location_term source) bl
          | None => bl
          end in
        bl_register name bl'
    | None => bl
    end in
  let before1 :=
    match p_timestamp post with Some t => Some t | None => before end in
  (bl1, before1).

Definition absorb_page (st : SearchState) (response : list Post)
  : SearchState :=
  let '(bl, before1) :=
    fold_left absorb_post response (blog_locations st, before st) in
  {| blog_locations := bl; before := before1;
     posts_retrieved := posts_retrieved st + Z.of_nat (List.length response) |}.

(** What both variants do with the answer of [tagged]; [f] is the
    finder after the call. *)
Definition handle_response (max_posts : Z) (st : SearchState)
    (response : list Post) (f : Finder) : Step (SearchState * Finder) :=
  match response with
  | [] => Break (st, f)
  | _ :: _ =>
      let st' := absorb_page st response in
      if Z.of_nat (List.length response) <? page_limit max_posts st
      then Break (st', f)
      else Next (st', sleep (2 * second) f)
  end.

(** One round of the [while] loop of
    [TumblrProfileFinder.search_theme_tag]. *)
Definition search_iter (theme : string) (max_posts : Z)
    (x : SearchState * Finder) : Step (SearchState * Finder) :=
  let '(st, f) := x in
  if posts_retrieved st <? max_posts then
    let limit := page_limit max_posts st in
    let f1 := log_call (CallTagged theme (cursor_arg (before st)) limit) f in
    match tagged theme (cursor_arg (before st)) limit with
    | None => Break (st, f1)
    | Some response => handle_response max_posts st response f1
    end
  else Break (st, f).

(** One round of the [while] loop of
    [AutoTumblrProfileFinder.search_theme_tag]. *)
Definition auto_search_iter (theme : string) (max_posts : Z)
    (x : SearchState * Finder) : Step (SearchState * Finder) :=
  let '(st, f) := x in
  if posts_retrieved st <? max_posts then
    let '(ok, f0) := finder_check_and_wait f in
    if negb ok then Break (st, f0)
    else
      let limit := page_limit max_posts st in
      let f1 :=
        log_call (CallTagged theme (cursor_arg (before st)) limit) f0 in
      match tagged theme (cursor_arg (before st)) limit with
      | None => Break (st, f1)
      | Some response =>
          handle_response max_posts st response (finder_record_call f1)
      end
  else Break (st, f).

(** Rounds that are always enough for the loop to end: each round that
    goes on has retrieved at least one post. *)
Definition search_fuel (max_posts : Z) : nat := S (Z.to_nat max_posts).

Definition search_result (f : Finder)
    (r : option (SearchState * Finder)) : BlogLocations * Finder :=
  match r with
  | Some (st, f') => (blog_locations st, f')
  | None => ([], f)
  end.

(** [TumblrProfileFinder.search_theme_tag] *)
Definition search_theme_tag (theme : string) (max_posts : Z) (f : Finder)
  : BlogLocations * Finder :=
  search_result f
    (run_loop (search_iter theme max_posts) (search_fuel max_posts)
       (search_init, f)).

(** [AutoTumblrProfileFinder.search_theme_tag] *)
Definition auto_search_theme_tag (theme : string) (max_posts : Z)
    (f : Finder) : BlogLocations * Finder :=
  search_result f
    (run_loop (auto_search_iter theme max_posts) (search_fuel max_posts)
       (search_init, f)).

End Crawl.

(** ** Enrichment and qualification pipeline *)

(** [first_mention.split(' (in')[0] if ' (in' in first_mention
     else first_mention] *)
Definition mention_term (first_mention : string) : string :=
  match Text.before_sep (Text.chars " (in") (Text.chars first_mention) with
  | Some pre => string_of_list_ascii pre
  | None => first_mention
  end.

Section Pipeline.
Context `{PyRuntime} `{TumblrClient}.

(** The [text_fields] dict built from the profile. *)
Definition profile_fields (blog_info : BlogInfo) : list (string * string) :=
  [ ("url", default "" (bi_url blog_info));
    ("title", default "" (bi_title blog_info));
    ("description", default "" (bi_description blog_info)) ].

(** Priority 1, the first mention found in posts; priority 2, the
    profile. *)
Definition resolve_location (post_location_mentions : gset string)
    (blog_info : BlogInfo) : option (string * string) :=
  match set_iter post_location_mentions with
  | first_mention :: _ => Some (mention_term first_mention, "post_content")
  | [] =>
      find_location_match (profile_fields blog_info)
        (default [] (bi_tags blog_info))
  end.

Definition make_record (name : string) (blog_info : BlogInfo)
    (last_post_date : option Z) (location_term location_source : string)
    (theme : string) : BlogRecord :=
  {| blog_name := name;
     blog_url := default "" (bi_url blog_info);
     title := default "" (bi_title blog_info);
     description := default "" (bi_description blog_info);
     follower_count := default 0 (bi_total_followers blog_info);
     total_posts := default 0 (bi_posts blog_info);
     last_post_date :=
       match last_post_date with
       | Some d => strftime_ymd d
       | None => ""
       end;
     location_match_term := location_term;
     location_match_source := location_source;
     blog_tags := default [] (bi_tags blog_info);
     theme_matched := theme |}.

(** The branch taken for a blog that is already in [discovered_blogs]. *)
Definition note_theme (name theme : string) (f : Finder) : Finder :=
  with_results f (discovered_blogs f) (add_theme name theme (blog_themes f)).

(** The two assignments that store a qualified blog. *)
Definition store_blog (name theme : string) (r : BlogRecord) (f : Finder)
  : Finder :=
  with_results f (<[name := r]> (discovered_blogs f))
    (add_theme name theme (blog_themes f)).

(** From the eligibility test to the stored record: the part of the
    loop body that the two variants share.  [None] when the eligibility
    test raises, [Some None] when the candidate is dropped. *)
Definition qualify (name : string) (post_location_mentions : gset string)
    (theme : string) (min_followers max_days_inactive : Z)
    (blog_info : BlogInfo) (now : Z) : option (option BlogRecord) :=
  match meets_criteria blog_info min_followers max_days_inactive now with
  | None => None
  | Some (ok, last_post_date) =>
      Some
        (if negb ok then None
         else
           match resolve_location post_location_mentions blog_info with
           | Some (location_term, location_source) =>
               Some (make_record name blog_info last_post_date
                       location_term location_source theme)
           | None => None
           end)
  end.

(** [TumblrProfileFinder.get_blog_info] *)
Definition get_blog_info (name : string) (f : Finder)
  : option BlogInfo * Finder :=
  (blog_info name, log_call (CallBlogInfo name) f).

(** [AutoTumblrProfileFinder.get_blog_info] *)
Definition auto_get_blog_info (name : string) (f : Finder)
  : option BlogInfo * Finder :=
  let '(ok, f0) := finder_check_and_wait f in
  if negb ok then (None, f0)
  else get_blog_info name (finder_record_call f0).

(** The body of the loop of [TumblrProfileFinder.process_blogs]:
    [Returned] when the round is over, [Raised] when the eligibility
    test raises. *)
Definition process_one (theme : string) (min_followers max_days_inactive : Z)
    (item : string * gset string) (f : Finder) : Ending Finder :=
  let '(name, post_location_mentions) := item in
  match discovered_blogs f !! name with
  | Some _ => Returned (note_theme name theme f)
  | None =>
      let '(info, f1) := get_blog_info name f in
      match info with
      | None => Returned f1
      | Some blog_info =>
          match qualify name post_location_mentions theme min_followers
                  max_days_inactive blog_info (clock f1) with
          | None => Raised f1
          | Some None => Returned f1
          | Some (Some r) =>
              Returned (sleep (2 * second) (store_blog name theme r f1))
          end
      end
  end.

(** [TumblrProfileFinder.process_blogs] *)
Fixpoint process_blogs (blog_locations : BlogLocations) (theme : string)
    (min_followers max_days_inactive : Z) (f : Finder) : Ending Finder :=
  match blog_locations with
  | [] => Returned f
  | item :: rest =>
      match process_one theme min_followers max_days_inactive item f with
      | Returned f' =>
          process_blogs rest theme min_followers max_days_inactive f'
      | Raised f' => Raised f'
      end
  end.

(** The body of the loop of [AutoTumblrProfileFinder.process_blogs];
    [processed] is the counter after its increment.  [Returns] is the
    [return] taken when the budget is denied, [Raises] the eligibility
    test that raises. *)
Definition auto_process_one (theme : string)
    (min_followers max_days_inactive : Z) (processed : Z)
    (item : string * gset string) (f : Finder) : Flow Finder :=
  let '(name, post_location_mentions) := item in
  match discovered_blogs f !! name with
  | Some _ => Continues (note_theme name theme f)
  | None =>
      let '(info, f1) := auto_get_blog_info name f in
      match info with
      | None =>
          let '(ok, f2) := finder_check_and_wait f1 in
          if negb ok then Returns (save_progress f2) else Continues f2
      | Some blog_info =>
          match qualify name post_location_mentions theme min_followers
                  max_days_inactive blog_info (clock f1) with
          | None => Raises f1
          | Some None => Continues f1
          | Some (Some r) =>
              let f2 := store_blog name theme r f1 in
              let f3 :=
                if processed `mod` 10 =? 0 then save_progress f2 else f2 in
              Continues (sleep (2 * second) f3)
          end
      end
  end.

Fixpoint auto_process_items (theme : string)
    (min_followers max_days_inactive : Z) (processed : Z)
    (items : BlogLocations) (f : Finder) : Ending Finder :=
  match items with
  | [] => Returned (save_progress f)
  | item :: rest =>
      match auto_process_one theme min_followers max_days_inactive
              (processed + 1) item f with
      | Returns f' => Returned f'
      | Raises f' => Raised f'
      | Continues f' =>
          auto_process_items theme min_followers max_days_inactive
            (processed + 1) rest f'
      end
  end.

(** [AutoTumblrProfileFinder.process_blogs] *)
Definition auto_process_blogs (blog_locations : BlogLocations)
    (theme : string) (min_followers max_days_inactive : Z) (f : Finder)
  : Ending Finder :=
  auto_process_items theme min_followers max_days_inactive 0
    blog_locations f.

(** ** The whole search *)

(** The two methods that [run_search] calls on [self]. *)
Record FinderMethods := {
  m_search_theme_tag : string → Z → Finder → BlogLocations * Finder;
  m_process_blogs :
    BlogLocations → string → Z → Z → Finder → Ending Finder
}.

Definition base_methods : FinderMethods :=
  {| m_search_theme_tag := search_theme_tag;
     m_process_blogs := process_blogs |}.

Definition auto_methods : FinderMethods :=
  {| m_search_theme_tag := auto_search_theme_tag;
     m_process_blogs := auto_process_blogs |}.

(** [sorted(themes_set)] *)
Definition sorted (themes_set : gset string) : list string :=
  merge_sort String.le (set_iter themes_set).

Definition themes_text (themes_set : gset string) : string :=
  Text.join ", " (sorted themes_set).

(** The last loop of [run_search]: every blog of [blog_themes] that is
    in [discovered_blogs] gets its [theme_matched] rewritten. *)
Definition update_theme_matched (f : Finder) : Finder :=
  with_results f
    (map_imap (λ name r,
       Some match blog_themes f !! name with
            | Some themes_set => set_theme_matched r (themes_text themes_set)
            | None => r
            end) (discovered_blogs f))
    (blog_themes f).

(** The body of [for theme in themes]. *)
Definition search_one_theme (M : FinderMethods)
    (max_posts_per_theme min_followers max_days_inactive : Z)
    (f : Finder) (theme : string) : Ending Finder :=
  let '(blog_locations, f1) :=
    m_search_theme_tag M theme max_posts_per_theme f in
  match blog_locations with
  | [] => Returned f1
  | _ :: _ =>
      m_process_blogs M blog_locations theme min_followers
        max_days_inactive f1
  end.

(** The loop [for theme in themes]; an exception leaves it. *)
Fixpoint search_themes (M : FinderMethods) (themes : list string)
    (max_posts_per_theme min_followers max_days_inactive : Z)
    (f : Finder) : Ending Finder :=
  match themes with
  | [] => Returned f
  | theme :: rest =>
      match search_one_theme M max_posts_per_theme min_followers
              max_days_inactive f theme with
      | Returned f' =>
          search_themes M rest max_posts_per_theme min_followers
            max_days_inactive f'
      | Raised f' => Raised f'
      end
  end.

(** [TumblrProfileFinder.run_search], inherited by the rate-governed
    variant. *)
Definition run_search (M : FinderMethods) (themes : list string)
    (max_posts_per_theme min_followers max_days_inactive : Z)
    (f : Finder) : Ending Finder :=
  match search_themes M themes max_posts_per_theme min_followers
          max_days_inactive f with
  | Returned f' => Returned (update_theme_matched f')
  | Raised f' => Raised f'
  end.


End Pipeline.

(** ** A concrete runtime and a concrete service *)

(** The runtime that iterates the gazetteer as it is written and every
    other set in the order of [elements], prints a date as the number of
    its day, and has dates for the years 1 to 9999 of universal time. *)
Definition source_order_runtime : PyRuntime :=
  {| loc_iter := LOCATION_INDICATORS;
     loc_iter_perm := reflexivity LOCATION_INDICATORS;
     set_iter := elements;
     set_iter_perm := λ X, reflexivity (elements X);
     strftime_ymd := λ d, pretty (days d);
     isoformat := λ d, pretty d;
     representable := λ t,
       (-62135596800 <=? t) && (t <=? 253402300799) |}.

Definition profile_5_followers : BlogInfo :=
  {| bi_url := Some "https://x.tumblr.com/"; bi_title := Some "x";
     bi_description := None; bi_tags := None;
     bi_total_followers := Some 5; bi_posts := Some 3;
     bi_updated := Some 1700000000 |}.

Definition profile_inactive : BlogInfo :=
  {| bi_url := Some "https://y.tumblr.com/"; bi_title := Some "y";
     bi_description := None; bi_tags := None;
     bi_total_followers := Some 50; bi_posts := Some 3;
     bi_updated := Some 1000000 |}.

(** A profile with 50 followers whose timestamp is far beyond the year
    9999. *)
Definition profile_beyond_dates : BlogInfo :=
  {| bi_url := Some "https://z.tumblr.com/"; bi_title := Some "z";
     bi_description := None; bi_tags := None;
     bi_total_followers := Some 50; bi_posts := Some 3;
     bi_updated := Some 1000000000000000000 |}.

(** A tracker 990 calls into its hour, with 50 minutes of the window
    left. *)
Definition tracker_at_hourly_threshold : RateLimitTracker :=
  {| hourly_limit := 1000; daily_limit := 5000;
     hourly_calls := 990; daily_calls := 990;
     hour_start := 0; day_start := 0; total_calls := 990 |}.

(** A tracker that has reached both thresholds. *)
Definition tracker_at_both_thresholds : RateLimitTracker :=
  {| hourly_limit := 1000; daily_limit := 5000;
     hourly_calls := 990; daily_calls := 4990;
     hour_start := 0; day_start := 0; total_calls := 4990 |}.

(** A text post. *)
Definition text_post (name body : string) (t : Z) : Post :=
  {| p_blog_name := Some name; p_body := Some body; p_caption := None;
     p_question := None; p_answer := None; p_timestamp := Some t |}.



(** A service whose [tagged] always fills the page, and that knows no
    blog. *)
Definition full_pages_client : TumblrClient :=
  {| tagged := λ theme before limit,
       Some (replicate (Z.to_nat limit)
               (text_post "x" "Living in SF now" 100));
     blog_info := λ name, None |}.

(** A new finder whose tracker is one call short of the daily
    threshold. *)
Definition finder_one_call_left : Finder :=
  with_tracker (new_finder 0 None)
    {| hourly_limit := 1000; daily_limit := 5000;
       hourly_calls := 0; daily_calls := 4989;
       hour_start := 0; day_start := 0; total_calls := 4989 |}.

(** A profile that mentions no place. *)
Definition plain_profile (name : string) : BlogInfo :=
  {| bi_url := Some ("https://" +:+ name +:+ ".tumblr.com/");
     bi_title := Some name; bi_description := Some "a blog";
     bi_tags := None; bi_total_followers := Some 50; bi_posts := Some 10;
     bi_updated := Some 1000 |}.

(** A service with two themes.  Under "a" the blog "x" posts without
    naming a place and the blog "y" names one; under "b" it is the other
    way round. *)
Definition two_theme_client : TumblrClient :=
  {| tagged := λ theme before limit,
       if decide (theme = "a") then
         Some [ text_post "x" "hello world" 300;
                text_post "y" "<p>Living in <b>SF</b> now</p>" 200 ]
       else if decide (theme = "b") then
         Some [ text_post "x" "Moved to Oakland" 250;
                text_post "y" "good morning" 240 ]
       else Some [];
     blog_info := λ name, Some (plain_profile name) |}.

(** A new finder, started 1000 seconds after the profiles were last
    updated. *)
Definition start_finder : Finder := new_finder (of_epoch 2000) None.

(** The search of the themes "a" and "b" by the base finder and by the
    rate-governed finder: at most 50 posts per theme, at least 10
    followers, at most 90 days without a post. *)
Definition two_theme_base_run : Finder :=
  state (@run_search source_order_runtime
           (@base_methods source_order_runtime two_theme_client)
           ["a"; "b"] 50 10 90 start_finder).

Definition two_theme_auto_run : Finder :=
  state (@run_search source_order_runtime
           (@auto_methods source_order_runtime two_theme_client)
           ["a"; "b"] 50 10 90 start_finder).



(** ** Notions used to state the properties *)

(** [T] occurs in [text] as a word of its own, whatever the case of the
    letters. *)
Definition occurs (T text : string) : Prop :=
  Text.standalone (Text.chars (Text.lower T)) (Text.chars (Text.lower text)).

(** Some term of the gazetteer occurs in [text]. *)
Definition gazetteer_hit (text : string) : Prop :=
  ∃ T, T ∈ LOCATION_INDICATORS ∧ occurs T text.

(** Two texts that differ at most in the case of their letters. *)
Definition same_modulo_case (a b : string) : Prop :=
  Text.lower a = Text.lower b.

(** The follower count of a profile; 0 when the key is missing. *)
Definition followers (blog_info : BlogInfo) : Z :=
  default 0 (bi_total_followers blog_info).

(** The profile has no last-updated timestamp: the key is missing, or it
    holds 0. *)
Definition no_timestamp (blog_info : BlogInfo) : Prop :=
  bi_updated blog_info = None ∨ bi_updated blog_info = Some 0.

(** The date of the last post and the whole days elapsed since, for a
    profile with a timestamp. *)
Definition last_post (blog_info : BlogInfo) : Z :=
  of_epoch (default 0 (bi_updated blog_info)).

Definition days_since_post (blog_info : BlogInfo) (now : Z) : Z :=
  days (now - last_post blog_info).


(** Nothing is lost from [bl] to [bl']: every blog is still there, with
    at least the evidence it had. *)
Definition bl_le (bl bl' : BlogLocations) : Prop :=
  ∀ name ev, (name, ev) ∈ bl → ∃ ev', (name, ev') ∈ bl' ∧ ev ⊆ ev'.





(** The themes recorded for a blog; none when [blog_themes] has no entry
    for it. *)
Definition themes_of (f : Finder) (name : string) : gset string :=
  default ∅ (blog_themes f !! name).

(** Every record of the qualified set is stored under its own
    [blog_name]. *)
Definition keyed (db : gmap string BlogRecord) : Prop :=
  ∀ k r, db !! k = Some r → blog_name r = k.

(** [f'] has everything [f] had: the records of [f] as they were, the
    themes of [f] and possibly more. *)
Definition extends (f f' : Finder) : Prop :=
  (∀ k r, discovered_blogs f !! k = Some r →
          discovered_blogs f' !! k = Some r)
  ∧ (∀ k, themes_of f k ⊆ themes_of f' k)
  ∧ (keyed (discovered_blogs f) → keyed (discovered_blogs f')).

(** What the processing of one candidate can do to the qualified set and
    to the themes. *)
Inductive item_effect (theme name : string) (f f' : Finder) : Prop :=
| effect_noted :
    is_Some (discovered_blogs f !! name) →
    discovered_blogs f' = discovered_blogs f →
    blog_themes f' = add_theme name theme (blog_themes f) →
    item_effect theme name f f'
| effect_dropped :
    discovered_blogs f !! name = None →
    discovered_blogs f' = discovered_blogs f →
    blog_themes f' = blog_themes f →
    item_effect theme name f f'
| effect_stored (r : BlogRecord) :
    discovered_blogs f !! name = None →
    blog_name r = name →
    discovered_blogs f' = <[name := r]> (discovered_blogs f) →
    blog_themes f' = add_theme name theme (blog_themes f) →
    item_effect theme name f f'.


(** What the loop bodies of the two variants of the search share: a
    round that goes on has taken in a page that filled the limit. *)
Definition search_body `{PyRuntime}
    (body : SearchState * Finder → Step (SearchState * Finder))
    (max_posts : Z) : Prop :=
  ∀ st f st' f', body (st, f) = Next (st', f') →
    ∃ response, st' = absorb_page st response
      ∧ posts_retrieved st < max_posts
      ∧ page_limit max_posts st ≤ Z.of_nat (List.length response).

(** The methods of a variant never lose a result: the search leaves the
    qualified set and the themes alone, the processing extends them,
    however it ends. *)
Definition methods_ok (M : FinderMethods) : Prop :=
  (∀ theme max_posts f,
     discovered_blogs (m_search_theme_tag M theme max_posts f).2
     = discovered_blogs f
     ∧ blog_themes (m_search_theme_tag M theme max_posts f).2
       = blog_themes f)
  ∧ (∀ bl theme min_followers max_days_inactive f,
       extends f (state (m_process_blogs M bl theme min_followers
                           max_days_inactive f))).

(** Every mention of the mapping was made from a term of the
    gazetteer. *)
Definition mentions_gazetteer (bl : BlogLocations) : Prop :=
  ∀ name ev m, (name, ev) ∈ bl → m ∈ ev →
    ∃ T src, m = mention T src ∧ T ∈ LOCATION_INDICATORS.

(** ** Notions for the properties of the rate governor and of the calls *)

(** Both counts are at most their limit minus the safety margin. *)
Definition within_budget (t : RateLimitTracker) : Prop :=
  hourly_calls t ≤ hourly_limit t - safety_margin
  ∧ daily_calls t ≤ daily_limit t - safety_margin.

Definition same_limits (t t' : RateLimitTracker) : Prop :=
  hourly_limit t' = hourly_limit t ∧ daily_limit t' = daily_limit t.

(** The limits leave room for the safety margin and one call. *)
Definition roomy (t : RateLimitTracker) : Prop :=
  safety_margin < hourly_limit t ∧ safety_margin ≤ daily_limit t.

(** The service never raises on [tagged]. *)
Definition tagged_never_raises `{TumblrClient} : Prop :=
  ∀ theme before limit, is_Some (tagged theme before limit).

(** From [f] to [f'] the calls [l] were sent (latest first), and the
    tracker counted at most as many; it counted them all when [tagged]
    never raises. *)
Definition calls_counted `{TumblrClient} (f f' : Finder) : Prop :=
  ∃ l, api_log f' = l ++ api_log f
       ∧ total_calls (rate_tracker f') - total_calls (rate_tracker f)
         ≤ Z.of_nat (List.length l)
       ∧ (tagged_never_raises →
          total_calls (rate_tracker f') - total_calls (rate_tracker f)
          = Z.of_nat (List.length l)).

(** A [tagged] call for [theme] that asks for between 1 and 20 posts and
    for no more than [max_posts]. *)
Definition page_call (theme : string) (max_posts : Z) (c : ApiCall) : Prop :=
  ∃ before limit, c = CallTagged theme before limit
                  ∧ 1 ≤ limit ≤ 20 ∧ limit ≤ max_posts.

(** From [f] to [f'] only page calls for [theme] were sent, at most
    [max_posts] of them. *)
Definition pages_fetched (theme : string) (max_posts : Z) (f f' : Finder)
  : Prop :=
  ∃ l, api_log f' = l ++ api_log f
       ∧ Forall (page_call theme max_posts) l
       ∧ Z.of_nat (List.length l) ≤ Z.max 0 max_posts.

(** From [f] to [f'] only profile calls were sent, one for each name of
    [names] and in that order (the log has the latest call first);
    [names] is the batch with some of its candidates left out, so that no
    candidate has more than one call, and none of its blogs was in the
    qualified set of [f]. *)
Definition profiles_fetched (bl : BlogLocations) (f f' : Finder) : Prop :=
  ∃ names, api_log f' = (CallBlogInfo <$> reverse names) ++ api_log f
           ∧ names `sublist_of` bl.*1
           ∧ Forall (λ name, discovered_blogs f !! name = None) names.

(** The sources a mention made by the crawl can name. *)
Definition post_sources : list string :=
  [ "post_body"; "post_caption"; "post_question"; "post_answer" ].

(** The sources a qualified record can name. *)
Definition record_sources : list string :=
  [ "post_content"; "url"; "title"; "description"; "tags" ].

(** Every mention of the mapping names a term of the gazetteer and a
    content field of a post. *)
Definition evidence_from_posts (bl : BlogLocations) : Prop :=
  ∀ name ev m, (name, ev) ∈ bl → m ∈ ev →
    ∃ T src, m = mention T src ∧ T ∈ LOCATION_INDICATORS
             ∧ src ∈ post_sources.

(** A record that meets the follower threshold, is stored under its
    own name and names a source the pipeline can give; unless the source
    is the content of posts, its term is a term of the gazetteer. *)
Definition meets_filters (min_followers : Z) (name : string)
    (r : BlogRecord) : Prop :=
  blog_name r = name
  ∧ min_followers ≤ follower_count r
  ∧ location_match_source r ∈ record_sources
  ∧ (location_match_source r ≠ "post_content" →
     location_match_term r ∈ LOCATION_INDICATORS).

Definition all_meet_filters (min_followers : Z) (f : Finder) : Prop :=
  ∀ k r, discovered_blogs f !! k = Some r → meets_filters min_followers k r.

Definition keeps_filters (min_followers : Z) (f f' : Finder) : Prop :=
  all_meet_filters min_followers f → all_meet_filters min_followers f'.

(** From [f] to [f'] at most one call was sent: the profile call for
    [name], which was not in the qualified set. *)
Definition profile_call_for (name : string) (f f' : Finder) : Prop :=
  api_log f' = api_log f
  ∨ (api_log f' = CallBlogInfo name :: api_log f
     ∧ discovered_blogs f !! name = None).

(** The progress file holds the results and the status of the finder. *)
Definition progress_in_sync (f : Finder) : Prop :=
  ∃ p, progress_file f = Some p
       ∧ pr_discovered_blogs p = discovered_blogs f
       ∧ list_to_set <$> pr_blog_themes p = blog_themes f
       ∧ pr_rate_limit_status p = get_status (rate_tracker f).

(** A finder that starts within its budget, with roomy limits, is within
    its budget afterwards, with the same limits. *)
Definition keeps_budget (f f' : Finder) : Prop :=
  roomy (rate_tracker f) → within_budget (rate_tracker f) →
  same_limits (rate_tracker f) (rate_tracker f')
  ∧ within_budget (rate_tracker f').

(** [sep] occurs in [s]. *)
Definition contains (sep s : list ascii) : Prop :=
  ∃ pre post, s = pre ++ sep ++ post.

(** The separator that [process_blogs] splits a mention at. *)
Definition mention_sep : list ascii := Text.chars " (in".

(** The keys of the content fields of a post, in the order in which
    they are scanned. *)
Definition content_keys : list string :=
  [ "body"; "caption"; "question"; "answer" ].

(** ** Credentials file, environment and command line

    [load_env_file] and [main] of [tumblr_profile_finder.py], [main] of
    [tumblr_profile_finder_auto.py] and [save_credentials_to_file] of
    [get_tumblr_credentials.py]. *)

Module PyStr.
Import Text.

Definition LF : ascii := "010"%char.
Definition CR : ascii := "013"%char.

(** The whitespace of [str.strip] among the ASCII characters: the codes
    9 to 13, 28 to 31 and the space. *)
Definition is_space (c : ascii) : bool :=
  ((9 <=? code c) && (code c <=? 13))%N
  || ((28 <=? code c) && (code c <=? 32))%N.

Fixpoint lstrip (s : list ascii) : list ascii :=
  match s with
  | [] => []
  | c :: s' => if is_space c then lstrip s' else s
  end.

Definition rstrip (s : list ascii) : list ascii :=
  reverse (lstrip (reverse s)).

(** [str.strip()] *)
Definition strip (s : list ascii) : list ascii := rstrip (lstrip s).

(** [s.startswith(c)] for a one-character prefix. *)
Definition startswith (c : ascii) (s : list ascii) : bool :=
  match s with
  | [] => false
  | d :: _ => bool_decide (d = c)
  end.

(** [c in s] for a one-character [c]. *)
Definition has_char (c : ascii) (s : list ascii) : bool :=
  bool_decide (c ∈ s).

Definition nonempty (s : list ascii) : bool :=
  match s with [] => false | _ :: _ => true end.

(** The parts before and after the first [sep]. *)
Fixpoint cut (sep : ascii) (s : list ascii)
  : option (list ascii * list ascii) :=
  match s with
  | [] => None
  | c :: s' =>
      if decide (c = sep) then Some ([], s')
      else prod_map (cons c) id <$> cut sep s'
  end.

(** [s.split(sep, 1)] *)
Definition split1 (sep : ascii) (s : list ascii) : list (list ascii) :=
  match cut sep s with
  | Some (a, b) => [a; b]
  | None => [s]
  end.

(** [s.split(sep)] *)
Fixpoint split (sep : ascii) (s : list ascii) : list (list ascii) :=
  match s with
  | [] => [[]]
  | c :: s' =>
      if decide (c = sep) then [] :: split sep s'
      else match split sep s' with
           | w :: ws => (c :: w) :: ws
           | [] => [[c]]
           end
  end.

Definition upper_char (c : ascii) : ascii :=
  if is_lower c then ascii_of_N (code c - 32) else c.

(** [str.upper] *)
Definition upper (s : string) : string :=
  string_of_list_ascii (map upper_char (chars s)).

(** What a file opened for reading in text mode gives: a carriage
    return followed by a line feed, and a carriage return alone, are
    read as one line feed. *)
Fixpoint universal_newlines (s : list ascii) : list ascii :=
  match s with
  | [] => []
  | c :: s' =>
      if decide (c = CR) then
        match s' with
        | d :: _ =>
            if decide (d = LF) then universal_newlines s'
            else LF :: universal_newlines s'
        | [] => [LF]
        end
      else c :: universal_newlines s'
  end.

(** [for line in f]: the lines of a text, each with its line feed. *)
Fixpoint file_lines (s : list ascii) : list (list ascii) :=
  match s with
  | [] => []
  | c :: s' =>
      if decide (c = LF) then [c] :: file_lines s'
      else match file_lines s' with
           | [] => [[c]]
           | l :: ls => (c :: l) :: ls
           end
  end.

End PyStr.

(** What the operating system decides: the line separator that a file
    opened for writing in text mode puts for a line feed, the form in
    which [os.environ] keeps a name (as it is, or in upper case) and the
    assignments to [os.environ] that it accepts (the others raise). *)
Class Platform := {
  linesep : list ascii;
  linesep_cases : linesep = [PyStr.LF] ∨ linesep = [PyStr.CR; PyStr.LF];
  encodekey : string → string;
  encodekey_cases :
    (∀ key, encodekey key = key) ∨ (∀ key, encodekey key = PyStr.upper key);
  environ_accepts : string → string → bool
}.

(** The content of [os.environ]. *)
Abbreviation Environ := (gmap string string).

(** [DEFAULT_THEME_TAGS] *)
Definition DEFAULT_THEME_TAGS : list string :=
  [ "dd/lg"; "ddlg"; "abdl"; "ab/dl"; "little"; "big/little";
    "littlespace"; "agere"; "ageplay"; "age regression"; "adult baby";
    "caregiver/little"; "caregiver space"; "regression space" ].

(** The namespace that [argparse] returns; the base program has no
    [resume]. *)
Record Args := {
  a_themes : option string;
  a_output : string;
  a_max_posts_per_theme : Z;
  a_min_followers : Z;
  a_max_days_inactive : Z;
  a_resume : bool
}.

(** What a program finds when it starts: the content of [.env] if the
    file exists, the environment, the time, the progress file and the
    output files that can be opened for writing. *)
Record World := {
  w_dotenv : option string;
  w_environ : Environ;
  w_now : Z;
  w_progress : option Progress;
  w_writable : string → bool
}.

(** What [export_results] hands to [json.dump] and to the rows of the
    [csv.DictWriter]. *)
Inductive FileContent :=
| JsonDump (records : list BlogRecord)
| CsvTable (header : list string) (rows : list (list string)).

(** How a program ends: the code that [main] returns and [exit] gets,
    [None] when an exception leaves [main]; the finder it made, if it
    made one, as it is at the end; and the output files it wrote. *)
Record Outcome := {
  exit_code : option Z;
  finder : option Finder;
  files : list (string * FileContent)
}.

Definition fieldnames : list string :=
  [ "blog_name"; "blog_url"; "title"; "description"; "follower_count";
    "total_posts"; "last_post_date"; "location_match_term";
    "location_match_source"; "blog_tags"; "theme_matched" ].

(** The cells of the row of a blog, in the order of [fieldnames]. *)
Definition csv_row (blog : BlogRecord) : list string :=
  [ blog_name blog; blog_url blog; title blog; description blog;
    pretty (follower_count blog); pretty (total_posts blog);
    last_post_date blog; location_match_term blog;
    location_match_source blog;
    match blog_tags blog with
    | [] => ""
    | _ :: _ => Text.join ", " (blog_tags blog)
    end;
    theme_matched blog ].

(** [TumblrProfileFinder.export_results]: the files it writes, none
    when there is no blog.  [writable] tells the files that [open] can
    open for writing; for another file [open] raises, after the JSON
    file was written when it is the CSV file.  The blogs come in the
    order of [map_to_list]; the order of the Python dict is not kept by
    the model. *)
Definition export_results (writable : string → bool) (output_base : string)
    (f : Finder) : Ending (list (string * FileContent)) :=
  if decide (discovered_blogs f = ∅) then Returned []
  else
    let blogs := (map_to_list (discovered_blogs f)).*2 in
    let json_file := output_base +:+ ".json" in
    let csv_file := output_base +:+ ".csv" in
    if negb (writable json_file) then Raised []
    else if negb (writable csv_file)
    then Raised [ (json_file, JsonDump blogs) ]
    else
      Returned [ (json_file, JsonDump blogs);
                 (csv_file, CsvTable fieldnames (csv_row <$> blogs)) ].

(** [[t.strip() for t in args.themes.split(',')]], or the default
    themes. *)
Definition parse_themes (themes : option string) : list string :=
  match themes with
  | Some s =>
      if Text.truthy s then
        (λ t, string_of_list_ascii (PyStr.strip t))
          <$> PyStr.split ","%char (Text.chars s)
      else DEFAULT_THEME_TAGS
  | None => DEFAULT_THEME_TAGS
  end.

Section Programs.
Context `{Platform}.

(** What a file opened for writing in text mode stores for a text. *)
Definition write_text (s : list ascii) : list ascii :=
  mbind (M := list)
    (λ c, if decide (c = PyStr.LF) then linesep else [c]) s.

(** [os.environ[key] = value]; [None] when it raises. *)
Definition environ_set (key value : string) (environ : Environ)
  : option Environ :=
  if environ_accepts key value
  then Some (<[encodekey key := value]> environ)
  else None.

(** [os.getenv(key)] *)
Definition getenv (key : string) (environ : Environ) : option string :=
  environ !! encodekey key.

(** The body of [for line in f] of [load_env_file]; [None] when it
    raises. *)
Definition env_line (raw : list ascii) (environ : Environ)
  : option Environ :=
  let line := PyStr.strip raw in
  if PyStr.nonempty line && negb (PyStr.startswith "#"%char line)
     && PyStr.has_char "="%char line
  then
    match PyStr.split1 "="%char line with
    | [key; value] =>
        environ_set (string_of_list_ascii key) (string_of_list_ascii value)
          environ
    | _ => None
    end
  else Some environ.

Fixpoint env_lines (lines : list (list ascii)) (environ : Environ)
  : option Environ :=
  match lines with
  | [] => Some environ
  | raw :: rest =>
      match env_line raw environ with
      | Some environ' => env_lines rest environ'
      | None => None
      end
  end.

(** [load_env_file]: its answer and the environment after it; [None]
    when it raises. *)
Definition load_env_file (dotenv : option string) (environ : Environ)
  : option (bool * Environ) :=
  match dotenv with
  | Some content =>
      match env_lines
              (PyStr.file_lines (PyStr.universal_newlines
                                   (Text.chars content))) environ with
      | Some environ' => Some (true, environ')
      | None => None
      end
  | None => Some (false, environ)
  end.

(** The text that [save_credentials_to_file] writes. *)
Definition credentials_text
    (consumer_key consumer_secret oauth_token oauth_token_secret : string)
  : list ascii :=
  Text.chars "TUMBLR_CONSUMER_KEY=" ++ Text.chars consumer_key
    ++ [PyStr.LF]
  ++ Text.chars "TUMBLR_CONSUMER_SECRET=" ++ Text.chars consumer_secret
    ++ [PyStr.LF]
  ++ Text.chars "TUMBLR_OAUTH_TOKEN=" ++ Text.chars oauth_token
    ++ [PyStr.LF]
  ++ Text.chars "TUMBLR_OAUTH_SECRET=" ++ Text.chars oauth_token_secret
    ++ [PyStr.LF].

(** [save_credentials_to_file]: its answer and the content of [.env]
    after it.  [writable] tells whether the file can be opened for
    writing; when it cannot, the exception is caught and the file is as
    it was. *)
Definition save_credentials_to_file (writable : bool)
    (consumer_key consumer_secret oauth_token oauth_token_secret : string)
    (dotenv : option string) : bool * option string :=
  if writable then
    (true,
     Some (string_of_list_ascii
             (write_text (credentials_text consumer_key consumer_secret
                            oauth_token oauth_token_secret))))
  else (false, dotenv).

(** The four [os.getenv] of [main] and its test
    [all([consumer_key, consumer_secret, oauth_token, oauth_secret])]. *)
Definition credentials (environ : Environ)
  : option (string * string * string * string) :=
  match getenv "TUMBLR_CONSUMER_KEY" environ,
        getenv "TUMBLR_CONSUMER_SECRET" environ,
        getenv "TUMBLR_OAUTH_TOKEN" environ,
        getenv "TUMBLR_OAUTH_SECRET" environ with
  | Some consumer_key, Some consumer_secret,
    Some oauth_token, Some oauth_secret =>
      if Text.truthy consumer_key && Text.truthy consumer_secret
         && Text.truthy oauth_token && Text.truthy oauth_secret
      then Some (consumer_key, consumer_secret, oauth_token, oauth_secret)
      else None
  | _, _, _, _ => None
  end.

Context `{PyRuntime} `{TumblrClient}.

(** [main] of [tumblr_profile_finder.py], for a run that is not
    interrupted.  An exception of [load_env_file] leaves [main]; one of
    the search or of the export is caught by [except Exception], and
    [main] returns 1. *)
Definition main (args : Args) (w : World) : Outcome :=
  match load_env_file (w_dotenv w) (w_environ w) with
  | None => {| exit_code := None; finder := None; files := [] |}
  | Some (_, environ) =>
      match credentials environ with
      | None => {| exit_code := Some 1; finder := None; files := [] |}
      | Some _ =>
          let themes := parse_themes (a_themes args) in
          match run_search base_methods themes (a_max_posts_per_theme args)
                  (a_min_followers args) (a_max_days_inactive args)
                  (new_finder (w_now w) (w_progress w)) with
          | Raised f =>
              {| exit_code := Some 1; finder := Some f; files := [] |}
          | Returned f =>
              match export_results (w_writable w) (a_output args) f with
              | Raised written =>
                  {| exit_code := Some 1; finder := Some f;
                     files := written |}
              | Returned written =>
                  {| exit_code := Some 0; finder := Some f;
                     files := written |}
              end
          end
      end
  end.

(** [main] of [tumblr_profile_finder_auto.py], for a run that is not
    interrupted and whose progress file can be written.  It catches
    [KeyboardInterrupt] only: an exception of the search or of the
    export leaves [main]. *)
Definition auto_main (args : Args) (w : World) : Outcome :=
  match load_env_file (w_dotenv w) (w_environ w) with
  | None => {| exit_code := None; finder := None; files := [] |}
  | Some (_, environ) =>
      match credentials environ with
      | None => {| exit_code := Some 1; finder := None; files := [] |}
      | Some _ =>
          let themes := parse_themes (a_themes args) in
          let f0 := new_finder (w_now w) (w_progress w) in
          let f1 := if a_resume args then (load_progress f0).2 else f0 in
          match run_search auto_methods themes (a_max_posts_per_theme args)
                  (a_min_followers args) (a_max_days_inactive args) f1 with
          | Raised f =>
              {| exit_code := None; finder := Some f; files := [] |}
          | Returned f =>
              match export_results (w_writable w) (a_output args) f with
              | Raised written =>
                  {| exit_code := None; finder := Some f;
                     files := written |}
              | Returned written =>
                  {| exit_code := Some 0; finder := Some f;
                     files := written |}
              end
          end
      end
  end.

End Programs.

(** The platform that writes a line feed as it is, keeps the names as
    they are and refuses an empty name, a name with "=" and a NUL in the
    name or in the value. *)
Definition posix_platform : Platform :=
  {| linesep := [PyStr.LF];
     linesep_cases := or_introl eq_refl;
     encodekey := λ key, key;
     encodekey_cases := or_introl (λ key, eq_refl);
     environ_accepts := λ key value,
       Text.truthy key
       && negb (PyStr.has_char "="%char (Text.chars key))
       && negb (PyStr.has_char "000"%char (Text.chars key))
       && negb (PyStr.has_char "000"%char (Text.chars value)) |}.

(** A text has no line break in it and no whitespace at its end. *)
Definition one_line (v : string) : Prop :=
  (PyStr.LF ∉ Text.chars v) ∧ (PyStr.CR ∉ Text.chars v)
  ∧ PyStr.rstrip (Text.chars v) = Text.chars v.

(** The line, without the whitespace at its ends, is [key], a "=" and
    [value], with no "=" in [key], and is not a comment. *)
Definition is_assignment (line : list ascii) (key value : list ascii)
  : Prop :=
  PyStr.strip line = key ++ "="%char :: value
  ∧ ("="%char ∉ key)
  ∧ PyStr.startswith "#"%char (PyStr.strip line) = false.

(** The line, without the whitespace at its ends, is empty, is a
    comment or has no "=". *)
Definition no_assignment (line : list ascii) : Prop :=
  PyStr.strip line = []
  ∨ PyStr.startswith "#"%char (PyStr.strip line) = true
  ∨ "="%char ∉ PyStr.strip line.

(** [sep.join(parts)] on lists of characters. *)
Fixpoint join_chars (sep : ascii) (parts : list (list ascii)) : list ascii :=
  match parts with
  | [] => []
  | [p] => p
  | p :: rest => p ++ sep :: join_chars sep rest
  end.

(** A text without whitespace at either end. *)
Definition trimmed (s : list ascii) : Prop :=
  (∀ c, head s = Some c → PyStr.is_space c = false)
  ∧ (∀ c, last s = Some c → PyStr.is_space c = false).

(** [s] is [t] with whitespace around it. *)
Definition trims_to (s t : list ascii) : Prop :=
  ∃ pre post, s = pre ++ t ++ post
              ∧ Forall (λ c, PyStr.is_space c = true) pre
              ∧ Forall (λ c, PyStr.is_space c = true) post
              ∧ trimmed t.

(** Two records that differ at most in their [theme_matched]. *)
Definition same_but_themes (r r' : BlogRecord) : Prop :=
  set_theme_matched r' "" = set_theme_matched r "".

(** The names of the four credentials. *)
Definition credential_keys : list string :=
  [ "TUMBLR_CONSUMER_KEY"; "TUMBLR_CONSUMER_SECRET";
    "TUMBLR_OAUTH_TOKEN"; "TUMBLR_OAUTH_SECRET" ].


(** A world with the four credentials in its environment and no
    [.env], at the time and with the progress file of
    [resumed_finder], where every output file can be written. *)
Definition resumed_world : World :=
  {| w_dotenv := None;
     w_environ :=
       list_to_map [ ("TUMBLR_CONSUMER_KEY", "ck");
                     ("TUMBLR_CONSUMER_SECRET", "cs");
                     ("TUMBLR_OAUTH_TOKEN", "ot");
                     ("TUMBLR_OAUTH_SECRET", "os") ];
     w_now := 0;
     w_progress :=
       progress_file (@save_progress source_order_runtime
                        two_theme_auto_run);
     w_writable := λ _, true |}.

Definition resume_args : Args :=
  {| a_themes := Some "a, b"; a_output := "results_auto";
     a_max_posts_per_theme := 50; a_min_followers := 10;
     a_max_days_inactive := 90; a_resume := true |}.

(** The same world with the output directory read-only. *)
Definition read_only_world : World :=
  {| w_dotenv := w_dotenv resumed_world;
     w_environ := w_environ resumed_world;
     w_now := w_now resumed_world;
     w_progress := w_progress resumed_world;
     w_writable := λ _, false |}.

(** A service with one blog under the theme "a", whose profile has a
    timestamp far beyond the year 9999. *)
Definition beyond_dates_client : TumblrClient :=
  {| tagged := λ theme before limit,
       if decide (theme = "a") then
         Some [ text_post "z" "Living in SF now" 300 ]
       else Some [];
     blog_info := λ name, Some profile_beyond_dates |}.

(** The output files named after [output_base]. *)
Definition output_files (output_base : string) : list string :=
  [ output_base +:+ ".json"; output_base +:+ ".csv" ].

(** * Properties *)

(** ** The model on the scenarios of the specification *)

Example lower_example : Text.lower "Living in SF now" = "living in sf now".
Proof. reflexivity. Qed.

Example ca_not_in_cats :
  Text.re_search_word "ca" "cats" = false
  ∧ Text.re_search_word "ca" "ca_state" = false
  ∧ Text.re_search_word "ca" "oakland, ca." = true.
Proof. by vm_compute. Qed.

Example strip_tags_example :
  Text.strip_tags "<p>Bay <b>Area</b></p> a<>b <x" = "Bay Area a<>b <x".
Proof. reflexivity. Qed.

Example post_body_sf :
  @check_post_content_for_location source_order_runtime
    (text_post "y" "Living in SF now" 200)
  = Some ("sf", "post_body").
Proof. by vm_compute. Qed.

Example five_followers_ineligible :
  @meets_criteria source_order_runtime profile_5_followers 10 90
    (of_epoch 1700000100)
  = Some (false, None).
Proof. reflexivity. Qed.

Example timestamp_beyond_dates :
  @meets_criteria source_order_runtime profile_beyond_dates 10 90
    (of_epoch 1700000100)
  = None.
Proof. reflexivity. Qed.

Example mention_term_example :
  mention_term (mention "bay area" "post_caption") = "bay area"
  ∧ mention_term "no separator" = "no separator".
Proof. by vm_compute. Qed.

Example two_themes_example :
  theme_matched <$> discovered_blogs two_theme_base_run !! "y"
  = Some "a, b".
Proof. by vm_compute. Qed.

(** ** Text primitives *)

Module TextFacts.
Import Text.

Lemma chars_app (s1 s2 : string) : chars (s1 +:+ s2) = chars s1 ++ chars s2.
Proof. induction s1 as [|c s1 IH]; simpl; [done|]. by rewrite <- IH. Qed.

Lemma chars_inj (s1 s2 : string) : chars s1 = chars s2 → s1 = s2.
Proof.
  intros E. rewrite <- (string_of_list_ascii_of_string s1),
    <- (string_of_list_ascii_of_string s2). unfold chars in E. by rewrite E.
Qed.

Lemma chars_of_list (l : list ascii) : chars (string_of_list_ascii l) = l.
Proof. apply list_ascii_of_string_of_list_ascii. Qed.

Lemma strip_prefix_Some (pat s rest : list ascii) :
  strip_prefix pat s = Some rest ↔ s = pat ++ rest.
Proof.
  revert s. induction pat as [|p pat IH]; intros s; simpl.
  - split; [by intros [= ->] | by intros ->].
  - destruct s as [|c s]; [split; [done | by intros [=]] |].
    destruct (decide (p = c)) as [->|Hne].
    + rewrite IH. split; [by intros -> | by intros [= ->]].
    + split; [done | intros [= -> ->]; done].
Qed.

Lemma strip_prefix_app (pat rest : list ascii) :
  strip_prefix pat (pat ++ rest) = Some rest.
Proof. by apply strip_prefix_Some. Qed.

Lemma last_before_cons (prev : option ascii) (c : ascii) (l : list ascii) :
  last_before prev (c :: l) = last_before (Some c) l.
Proof.
  unfold last_before. destruct l as [|d l]; [done|].
  change (last (c :: d :: l)) with (last (d :: l)).
  by destruct (last (d :: l)) eqn:E; [|apply last_None in E].
Qed.

(** A match of a word-edged pattern at the current position: the
    pattern is a prefix, and no word character touches it. *)
Lemma match_here_spec (prev : option ascii) (pat s : list ascii) :
  word_edged pat →
  match_here prev pat s = true ↔
  ∃ post, s = pat ++ post ∧ opt_word prev = false
          ∧ opt_word (head post) = false.
Proof.
  intros [Hh Hl]. unfold match_here.
  destruct (strip_prefix pat s) as [rest|] eqn:E.
  - apply strip_prefix_Some in E as ->.
    assert (head (pat ++ rest) = head pat) as ->.
    { destruct pat; [done | done]. }
    assert (last_before prev pat = last pat) as ->.
    { unfold last_before. by destruct (last pat). }
    unfold word_boundary. rewrite Hh, Hl. split.
    + intros [H1 H2]%andb_true_iff. exists rest.
      destruct (opt_word prev), (opt_word (head rest)); naive_solver.
    + intros (post & ->%(inj (app pat)) & -> & ->). done.
  - rewrite andb_false_r. split; [done|].
    intros (post & -> & _). by rewrite strip_prefix_app in E.
Qed.

Lemma search_from_spec (prev : option ascii) (pat s : list ascii) :
  word_edged pat →
  search_from prev pat s = true ↔
  ∃ pre post, s = pre ++ pat ++ post
              ∧ opt_word (last_before prev pre) = false
              ∧ opt_word (head post) = false.
Proof.
  intros Hpat. revert prev. induction s as [|c s IH]; intros prev; simpl.
  - rewrite orb_false_r, match_here_spec by done. split.
    + intros (post & E & ? & ?). by exists [], post.
    + intros (pre & post & E & ? & ?).
      destruct pre; [by exists post | done].
  - rewrite orb_true_iff, match_here_spec, IH by done. split.
    + intros [(post & E & ? & ?) | (pre & post & -> & ? & ?)].
      * by exists [], post.
      * exists (c :: pre), post. by rewrite last_before_cons.
    + intros (pre & post & E & Hp & ?). destruct pre as [|d pre].
      * left. by exists post.
      * right. injection E as -> ->. exists pre, post.
        by rewrite <- last_before_cons with (prev := prev).
Qed.

(** The search of the engine finds exactly the standalone
    occurrences. *)
Lemma re_search_word_spec (pat text : string) :
  word_edged (chars pat) →
  re_search_word pat text = true ↔ standalone (chars pat) (chars text).
Proof.
  intros Hpat. unfold re_search_word, standalone.
  rewrite search_from_spec by done.
  assert (∀ pre : list ascii, last_before None pre = last pre) as E.
  { intros pre. unfold last_before. by destruct (last pre). }
  by setoid_rewrite E.
Qed.

Lemma lower_char_idemp (c : ascii) : lower_char (lower_char c) = lower_char c.
Proof. by destruct c as [[] [] [] [] [] [] [] []]. Qed.

Lemma chars_lower (s : string) : chars (lower s) = map lower_char (chars s).
Proof. apply chars_of_list. Qed.

Lemma lower_idemp (s : string) : lower (lower s) = lower s.
Proof.
  apply chars_inj. rewrite !chars_lower, map_map.
  apply map_ext. intros c. apply lower_char_idemp.
Qed.

Lemma truthy_lower (s : string) : truthy (lower s) = truthy s.
Proof. by destruct s. Qed.

Lemma truthy_chars (s : string) : truthy s = false ↔ chars s = [].
Proof. by destruct s. Qed.

End TextFacts.

(** ** Location matcher *)

Section MatcherFacts.
Context `{PyRuntime}.
Import Text TextFacts.

Lemma find_first {A} (p : A → bool) (l1 l2 : list A) (x : A) :
  (∀ y, y ∈ l1 → p y = false) → p x = true →
  List.find p (l1 ++ x :: l2) = Some x.
Proof.
  intros Hl1 Hx. induction l1 as [|y l1 IH]; simpl.
  - by rewrite Hx.
  - rewrite (Hl1 y) by left. apply IH. intros z Hz. apply Hl1. by right.
Qed.

Lemma find_Some_elem {A} (p : A → bool) (l : list A) (x : A) :
  List.find p l = Some x → x ∈ l ∧ p x = true.
Proof.
  intros [Hin Hp]%find_some. by rewrite list_elem_of_In.
Qed.

Lemma find_None_elem {A} (p : A → bool) (l : list A) :
  List.find p l = None ↔ ∀ x, x ∈ l → p x = false.
Proof.
  split.
  - intros E x Hx. apply (find_none p l E). by apply list_elem_of_In.
  - intros Hall. destruct (List.find p l) as [x|] eqn:E; [|done].
    apply find_Some_elem in E as [Hx Hp]. rewrite (Hall x Hx) in Hp. done.
Qed.

Lemma find_pred_ext {A} (p q : A → bool) (l : list A) :
  (∀ x, p x = q x) → List.find p l = List.find q l.
Proof.
  intros E. induction l as [|x l IH]; simpl; [done|].
  by rewrite E, IH.
Qed.

Lemma in_loc_iter (T : string) : T ∈ loc_iter ↔ T ∈ LOCATION_INDICATORS.
Proof. by rewrite loc_iter_perm. Qed.

(** Every term of the gazetteer starts and ends with a word
    character. *)
Lemma gazetteer_edged (T : string) :
  T ∈ LOCATION_INDICATORS → word_edged (chars (lower T)).
Proof.
  revert T. apply Forall_forall. unfold LOCATION_INDICATORS.
  repeat (constructor; [by vm_compute|]). constructor.
Qed.

Lemma term_matches_occurs (T text : string) :
  T ∈ LOCATION_INDICATORS →
  term_matches T (lower text) = true ↔ occurs T text.
Proof.
  intros HT. unfold term_matches, occurs.
  apply re_search_word_spec, gazetteer_edged, HT.
Qed.

Lemma term_matches_not_occurs (T text : string) :
  T ∈ LOCATION_INDICATORS →
  term_matches T (lower text) = false ↔ ¬ occurs T text.
Proof.
  intros HT. rewrite <- term_matches_occurs by done.
  by destruct (term_matches T (lower text)).
Qed.

Lemma occurs_truthy (T text : string) :
  T ∈ LOCATION_INDICATORS → occurs T text → truthy text = true.
Proof.
  intros [Hh _]%gazetteer_edged (pre & post & E & _).
  rewrite <- truthy_lower. destruct (lower text) eqn:El; [|done].
  simpl in E. destruct pre; simpl in E; [|done].
  destruct (chars (lower T)); [done | done].
Qed.

Lemma occurs_modulo_case (T a b : string) :
  same_modulo_case a b → occurs T a ↔ occurs T b.
Proof. unfold occurs, same_modulo_case. by intros ->. Qed.

Lemma first_location_Some (text T : string) :
  first_location (lower text) = Some T →
  T ∈ LOCATION_INDICATORS ∧ occurs T text.
Proof.
  intros [HT Hm]%find_Some_elem. apply in_loc_iter in HT.
  split; [done|]. by apply term_matches_occurs.
Qed.

Lemma first_location_None (text : string) :
  first_location (lower text) = None ↔ ¬ gazetteer_hit text.
Proof.
  unfold first_location. rewrite find_None_elem. split.
  - intros Hall (T & HT & Hocc).
    apply term_matches_occurs in Hocc; [|done].
    rewrite Hall in Hocc; [done | by apply in_loc_iter].
  - intros Hno T HT%in_loc_iter. apply term_matches_not_occurs; [done|].
    intros Hocc. apply Hno. by exists T.
Qed.

Lemma first_location_hit (text : string) :
  gazetteer_hit text → ∃ T, first_location (lower text) = Some T.
Proof.
  intros Hhit. destruct (first_location (lower text)) as [T|] eqn:E.
  - by exists T.
  - by apply first_location_None in E.
Qed.

(** The fields are tried in their order; the first one in which a
    term of the gazetteer occurs decides. *)
Lemma match_fields_first (pre post : list (string * string))
    (src text : string) :
  (∀ f, f ∈ pre → ¬ gazetteer_hit f.2) → gazetteer_hit text →
  ∃ T, match_fields (pre ++ (src, text) :: post) = Some (T, src)
       ∧ first_location (lower text) = Some T.
Proof.
  intros Hpre Hhit. induction pre as [|[k t] pre IH]; simpl.
  - destruct Hhit as (T0 & HT0 & Hocc).
    rewrite (occurs_truthy T0 text HT0 Hocc). simpl.
    destruct (first_location_hit text) as [T ET]; [by exists T0|].
    exists T. by rewrite ET.
  - assert (first_location (lower t) = None) as ->.
    { apply first_location_None. apply (Hpre (k, t)). by left. }
    destruct (negb (truthy t)); apply IH; intros f Hf; apply Hpre;
      by right.
Qed.

Lemma match_fields_Some (fields : list (string * string)) (T src : string) :
  match_fields fields = Some (T, src) →
  ∃ pre text post, fields = pre ++ (src, text) :: post
    ∧ (∀ f, f ∈ pre → ¬ gazetteer_hit f.2)
    ∧ T ∈ LOCATION_INDICATORS ∧ occurs T text.
Proof.
  induction fields as [|[k t] fields IH]; simpl; [done|].
  destruct (truthy t) eqn:Et; simpl.
  - destruct (first_location (lower t)) as [T'|] eqn:E.
    + intros [= -> ->]. apply first_location_Some in E as [? ?].
      exists [], t, fields. split_and!; [done| |done|done].
      intros f Hf. by apply elem_of_nil in Hf.
    + intros (pre & text & post & -> & Hpre & ? & ?)%IH.
      exists ((k, t) :: pre), text, post. split_and!; [done| |done|done].
      intros f [->|Hf]%elem_of_cons; [|by apply Hpre].
      by apply first_location_None.
  - intros (pre & text & post & -> & Hpre & ? & ?)%IH.
    exists ((k, t) :: pre), text, post. split_and!; [done| |done|done].
    intros f [->|Hf]%elem_of_cons; [|by apply Hpre].
    intros (T0 & HT0 & Hocc). simpl in Hocc.
    by rewrite (occurs_truthy T0 t HT0 Hocc) in Et.
Qed.

Lemma match_fields_None (fields : list (string * string)) :
  match_fields fields = None ↔ ∀ f, f ∈ fields → ¬ gazetteer_hit f.2.
Proof.
  split.
  - intros E f Hf Hhit.
    apply list_elem_of_split in Hf as (pre & post & ->).
    induction pre as [|[k t] pre IH]; simpl in E.
    + destruct f as [k t]. simpl in *.
      destruct Hhit as (T0 & HT0 & Hocc).
      rewrite (occurs_truthy T0 t HT0 Hocc) in E. simpl in E.
      destruct (first_location_hit t) as [T ET]; [by exists T0|].
      by rewrite ET in E.
    + destruct (negb (truthy t)); [by apply IH|].
      destruct (first_location (lower t)); [done | by apply IH].
  - intros Hno. destruct (match_fields fields) as [[T src]|] eqn:E; [|done].
    apply match_fields_Some in E as (pre & text & post & -> & _ & HT & Ho).
    exfalso. apply (Hno (src, text)).
    + apply elem_of_app. right. by left.
    + by exists T.
Qed.

Lemma existsb_tags (T : string) (tags : list string) :
  T ∈ LOCATION_INDICATORS →
  existsb (λ tag, term_matches T tag) (map lower tags) = true ↔
  ∃ tag, tag ∈ tags ∧ occurs T tag.
Proof.
  intros HT. rewrite existsb_exists. split.
  - intros (tl & (tag & <- & Hin)%in_map_iff & Hm).
    exists tag. split; [by apply list_elem_of_In|].
    by apply term_matches_occurs.
  - intros (tag & Hin & Hocc). exists (lower tag). split.
    + apply in_map. by apply list_elem_of_In.
    + by apply term_matches_occurs.
Qed.

Lemma match_tags_Some (tags : list string) (T src : string) :
  match_tags tags = Some (T, src) →
  src = "tags" ∧ T ∈ LOCATION_INDICATORS ∧ ∃ tag, tag ∈ tags ∧ occurs T tag.
Proof.
  unfold match_tags. destruct tags as [|t0 tags]; [done|].
  destruct (List.find _ loc_iter) as [T'|] eqn:E; [|done].
  intros [= -> <-]. apply find_Some_elem in E as [HT%in_loc_iter Hex].
  split_and!; [done|done|]. by apply existsb_tags in Hex.
Qed.

(** The terms are tried in the order of the gazetteer, each against all
    the tags. *)
Lemma match_tags_first (tags : list string) (l1 l2 : list string)
    (T : string) :
  loc_iter = l1 ++ T :: l2 →
  (∀ T' tag, T' ∈ l1 → tag ∈ tags → ¬ occurs T' tag) →
  (∃ tag, tag ∈ tags ∧ occurs T tag) →
  match_tags tags = Some (T, "tags").
Proof.
  intros Hiter Hl1 Hex. unfold match_tags.
  assert (∀ T', T' ∈ l1 ++ T :: l2 → T' ∈ LOCATION_INDICATORS) as Hin.
  { intros T'. rewrite <- Hiter. apply in_loc_iter. }
  destruct tags as [|t0 tags].
  { destruct Hex as (tag & Hin' & _). by apply elem_of_nil in Hin'. }
  rewrite Hiter, find_first; [done| |].
  - intros T' HT'. apply not_true_is_false. rewrite existsb_tags.
    + intros (tag & Htag & Hocc). by apply (Hl1 T' tag).
    + apply Hin, elem_of_app. by left.
  - apply existsb_tags; [|done]. apply Hin, elem_of_app.
    right. by left.
Qed.

Lemma match_tags_None (tags : list string) :
  (∀ tag, tag ∈ tags → ¬ gazetteer_hit tag) → match_tags tags = None.
Proof.
  intros Hno. destruct (match_tags tags) as [[T src]|] eqn:E; [|done].
  apply match_tags_Some in E as (_ & HT & tag & Htag & Hocc).
  exfalso. apply (Hno tag Htag). by exists T.
Qed.

Lemma match_fields_modulo_case (fields fields' : list (string * string)) :
  Forall2 (λ a b, a.1 = b.1 ∧ same_modulo_case a.2 b.2) fields fields' →
  match_fields fields' = match_fields fields.
Proof.
  induction 1 as [|[k t] [k' t'] l l' [Hk Ht] _ IH]; [done|].
  simpl in *. subst k'. unfold same_modulo_case in Ht.
  rewrite <- (truthy_lower t'), <- Ht, truthy_lower, IH. done.
Qed.

Lemma match_tags_modulo_case (tags tags' : list string) :
  Forall2 same_modulo_case tags tags' → match_tags tags' = match_tags tags.
Proof.
  intros HF. unfold match_tags.
  assert (map lower tags' = map lower tags) as E.
  { induction HF as [|t t' l l' Ht _ IH]; [done|]. simpl.
    unfold same_modulo_case in Ht. by rewrite Ht, IH. }
  destruct HF; [done|]. by rewrite E.
Qed.

End MatcherFacts.

(** Decidable facts about given values are settled by evaluation. *)
Ltac by_decide := apply (bool_decide_unpack _); vm_compute; exact I.

Section MatcherClaims.
Context `{PyRuntime}.
Import Text TextFacts.

(** Occurrences in given texts are settled by running the search. *)
Lemma occurs_by_search (T text : string) :
  T ∈ LOCATION_INDICATORS → term_matches T (lower text) = true →
  occurs T text.
Proof. intros HT. by apply term_matches_occurs. Qed.

Lemma no_hit_by_search (text : string) :
  forallb (λ T, negb (term_matches T (lower text))) LOCATION_INDICATORS
    = true →
  ¬ gazetteer_hit text.
Proof.
  intros Hall (T & HT & Hocc). rewrite forallb_forall in Hall.
  apply term_matches_occurs in Hocc; [|done].
  apply list_elem_of_In, Hall in HT. rewrite Hocc in HT. discriminate HT.
Qed.

Lemma only_hit_by_search (T text : string) :
  forallb (λ T', implb (term_matches T' (lower text)) (bool_decide (T' = T)))
    LOCATION_INDICATORS = true →
  ∀ T', T' ∈ LOCATION_INDICATORS → occurs T' text → T' = T.
Proof.
  intros Hall T' HT' Hocc. rewrite forallb_forall in Hall.
  apply term_matches_occurs in Hocc; [|done].
  apply list_elem_of_In, Hall in HT'. rewrite Hocc in HT'. simpl in HT'.
  by apply bool_decide_eq_true in HT'.
Qed.

Lemma none_occurs_by_search (Ts texts : list string) :
  forallb (λ T, bool_decide (T ∈ LOCATION_INDICATORS)
                && forallb (λ text, negb (term_matches T (lower text)))
                     texts) Ts = true →
  ∀ T text, T ∈ Ts → text ∈ texts → ¬ occurs T text.
Proof.
  intros Hall T text HT Htext. rewrite forallb_forall in Hall.
  apply list_elem_of_In, Hall, andb_true_iff in HT as [HT Hno].
  apply bool_decide_eq_true in HT. rewrite forallb_forall in Hno.
  apply list_elem_of_In, Hno, negb_true_iff in Htext.
  by apply term_matches_not_occurs.
Qed.

Lemma match_content_Some (fields : list (string * string)) (T src : string) :
  match_content fields = Some (T, src) →
  ∃ pre key text post, fields = pre ++ (key, text) :: post
    ∧ src = "post_" +:+ key
    ∧ (∀ f, f ∈ pre → ¬ gazetteer_hit (strip_tags f.2))
    ∧ T ∈ LOCATION_INDICATORS ∧ occurs T (strip_tags text).
Proof.
  induction fields as [|[k t] fields IH]; simpl; [done|].
  assert (first_location (lower (strip_tags t)) = None →
          match_content fields = Some (T, src) →
          ∃ pre key text post, (k, t) :: fields = pre ++ (key, text) :: post
            ∧ src = "post_" +:+ key
            ∧ (∀ f, f ∈ pre → ¬ gazetteer_hit (strip_tags f.2))
            ∧ T ∈ LOCATION_INDICATORS ∧ occurs T (strip_tags text)) as Hskip.
  { intros E (pre & key & text & post & -> & ? & Hpre & ? & ?)%IH.
    exists ((k, t) :: pre), key, text, post.
    split_and!; [done|done| |done|done].
    intros f [->|Hf]%elem_of_cons; [|by apply Hpre].
    by apply first_location_None. }
  destruct (truthy t) eqn:Et; simpl.
  - destruct (first_location (lower (strip_tags t))) as [T'|] eqn:E.
    + intros [= -> <-]. apply first_location_Some in E as [? ?].
      exists [], k, t, fields. split_and!; [done|done| |done|done].
      intros f Hf. by apply elem_of_nil in Hf.
    + by apply Hskip.
  - apply Hskip. apply first_location_None.
    apply truthy_chars in Et. intros (T0 & HT0 & Hocc).
    assert (strip_tags t = "") as Es.
    { unfold strip_tags. by rewrite Et. }
    rewrite Es in Hocc. by apply occurs_truthy in Hocc.
Qed.

(** C5 (amended).  The location matcher goes through the fields in the
    order the caller gave.  The first field in which some term of the
    gazetteer occurs as a word of its own decides: the matcher returns
    that field as the source, with a term of the gazetteer that occurs
    in it as a word of its own; this is the given term whenever no other
    term of the gazetteer occurs in that text.  Whatever is returned is a
    term of the gazetteer that occurs as a word of its own in the field
    (or, with source "tags", in a tag) it is reported for, so a term that
    is present only inside longer words is never returned, and the
    answer is none when no term occurs as a word of its own in any field
    or tag.  The answer does not depend on the case of the letters of the
    texts.  The matcher for post content obeys the same rule on the text
    with its markup removed and reports the source as "post_" followed
    by the name of the content field. *)
Theorem location_match_whole_words (fields : list (string * string))
    (tags : list string) :
  (∀ pre src text post T,
     fields = pre ++ (src, text) :: post →
     (∀ f, f ∈ pre → ¬ gazetteer_hit f.2) →
     T ∈ LOCATION_INDICATORS → occurs T text →
     ∃ T1, find_location_match fields tags = Some (T1, src)
           ∧ T1 ∈ LOCATION_INDICATORS ∧ occurs T1 text
           ∧ ((∀ T', T' ∈ LOCATION_INDICATORS → occurs T' text → T' = T) →
              T1 = T))
  ∧ (∀ T src, find_location_match fields tags = Some (T, src) →
       T ∈ LOCATION_INDICATORS
       ∧ ((∃ text, (src, text) ∈ fields ∧ occurs T text)
          ∨ (src = "tags" ∧ ∃ tag, tag ∈ tags ∧ occurs T tag)))
  ∧ ((∀ f, f ∈ fields → ¬ gazetteer_hit f.2) →
     (∀ tag, tag ∈ tags → ¬ gazetteer_hit tag) →
     find_location_match fields tags = None)
  ∧ (∀ fields' tags',
       Forall2 (λ a b, a.1 = b.1 ∧ same_modulo_case a.2 b.2) fields fields' →
       Forall2 same_modulo_case tags tags' →
       find_location_match fields' tags' = find_location_match fields tags)
  ∧ (∀ T src, match_content fields = Some (T, src) →
       T ∈ LOCATION_INDICATORS
       ∧ ∃ key text, (key, text) ∈ fields ∧ src = "post_" +:+ key
                     ∧ occurs T (strip_tags text)).
Proof.
  split_and!.
  - intros pre src text post T -> Hpre HT Hocc.
    destruct (match_fields_first pre post src text Hpre) as (T1 & E & E1).
    { by exists T. }
    exists T1. unfold find_location_match. rewrite E.
    apply first_location_Some in E1 as [HT1 Hocc1].
    split_and!; [done|done|done|]. intros Honly. by apply Honly.
  - intros T src. unfold find_location_match.
    destruct (match_fields fields) as [[T' src']|] eqn:E.
    + intros [= -> ->].
      apply match_fields_Some in E as (pre & text & post & -> & _ & HT & Ho).
      split; [done|]. left. exists text. split; [|done].
      apply elem_of_app. right. by left.
    + intros (-> & HT & Htag)%match_tags_Some. split; [done|]. by right.
  - intros Hf Ht. unfold find_location_match.
    apply match_fields_None in Hf as ->. by apply match_tags_None.
  - intros fields' tags' Hf Ht. unfold find_location_match.
    by rewrite (match_fields_modulo_case fields fields'),
      (match_tags_modulo_case tags tags').
  - intros T src (pre & key & text & post & -> & -> & _ & HT & Ho)
      %match_content_Some.
    split; [done|]. exists key, text. split_and!; [|done|done].
    apply elem_of_app. right. by left.
Qed.

(** C9 (amended).  The tags are tested only when no field matched.
    Among the tags the gazetteer decides, not the tag sequence: the term
    returned is the first term, in the order in which the gazetteer is
    iterated, that occurs as a word of its own in any tag; the source is
    "tags". *)
Theorem tags_tested_after_fields (fields : list (string * string))
    (tags : list string) :
  (∀ r, match_fields fields = Some r →
        find_location_match fields tags = Some r)
  ∧ (match_fields fields = None →
     find_location_match fields tags = match_tags tags)
  ∧ (∀ l1 T l2,
       match_fields fields = None →
       loc_iter = l1 ++ T :: l2 →
       (∀ T' tag, T' ∈ l1 → tag ∈ tags → ¬ occurs T' tag) →
       (∃ tag, tag ∈ tags ∧ occurs T tag) →
       find_location_match fields tags = Some (T, "tags"))
  ∧ (∀ T src, match_tags tags = Some (T, src) →
       src = "tags" ∧ T ∈ LOCATION_INDICATORS
       ∧ ∃ tag, tag ∈ tags ∧ occurs T tag).
Proof.
  unfold find_location_match. split_and!.
  - by intros r ->.
  - by intros ->.
  - intros l1 T l2 -> Hiter Hl1 Hex. by eapply match_tags_first.
  - apply match_tags_Some.
Qed.

(** The answer for the tags does not depend on their order when there
    are two of them. *)
Lemma match_tags_swap (t1 t2 : string) :
  match_tags [t1; t2] = match_tags [t2; t1].
Proof.
  unfold match_tags. simpl.
  rewrite (find_pred_ext _
    (λ location, term_matches location (lower t2)
                 || (term_matches location (lower t1) || false))); [done|].
  intros T. by destruct (term_matches T (lower t1)),
    (term_matches T (lower t2)).
Qed.

End MatcherClaims.

(** C5, witness: the title "Living in SF now" behind a url without any
    term. *)
Lemma location_match_whole_words_witness :
  ∃ T1, @find_location_match source_order_runtime
          [("url", "x"); ("title", "Living in SF now")] []
        = Some (T1, "title")
        ∧ T1 = "sf".
Proof.
  destruct (@location_match_whole_words source_order_runtime
              [("url", "x"); ("title", "Living in SF now")] [])
    as (Hfirst & _).
  destruct (Hfirst [("url", "x")] "title" "Living in SF now" [] "sf")
    as (T1 & E & _ & _ & Honly).
  - reflexivity.
  - intros f ->%list_elem_of_singleton. apply no_hit_by_search.
    vm_compute. reflexivity.
  - by_decide.
  - apply occurs_by_search; [by_decide|].
    vm_compute. reflexivity.
  - exists T1. split; [exact E|]. apply Honly. apply only_hit_by_search.
    vm_compute. reflexivity.
Defined.

(** C5, counterexample.  Whatever the order in which the gazetteer is
    iterated, the claim as stated fails: "sf" and "ca" both occur in the
    text "sf ca" as words of their own, and only one of them can be
    returned. *)
Lemma location_match_two_terms :
  ¬ ∃ rt : PyRuntime,
      ∀ T field text,
        T ∈ LOCATION_INDICATORS → occurs T text →
        @find_location_match rt [(field, text)] [] = Some (T, field).
Proof.
  intros [rt Hclaim].
  assert (@find_location_match rt [("title", "sf ca")] []
          = Some ("sf", "title")) as E1.
  { apply Hclaim; [by_decide|].
    apply occurs_by_search; [by_decide | by vm_compute]. }
  assert (@find_location_match rt [("title", "sf ca")] []
          = Some ("ca", "title")) as E2.
  { apply Hclaim; [by_decide|].
    apply occurs_by_search; [by_decide | by vm_compute]. }
  rewrite E1 in E2. discriminate E2.
Qed.

(** C9, witness: with the gazetteer iterated as it is written, "sf"
    comes before "oakland", so the tags "Oakland", "SF" give "sf". *)
Lemma tags_tested_after_fields_witness :
  @find_location_match source_order_runtime [("title", "cats")]
    ["Oakland"; "SF"] = Some ("sf", "tags").
Proof.
  destruct (@tags_tested_after_fields source_order_runtime
              [("title", "cats")] ["Oakland"; "SF"]) as (_ & _ & Hfirst & _).
  apply (Hfirst (take 11 LOCATION_INDICATORS) "sf"
           (drop 12 LOCATION_INDICATORS)).
  - vm_compute. reflexivity.
  - reflexivity.
  - apply none_occurs_by_search. vm_compute. reflexivity.
  - exists "SF". split; [by right; left|].
    apply occurs_by_search; [by_decide | by vm_compute].
Defined.

(** C9, counterexample.  Whatever the order in which the gazetteer is
    iterated, the claim as stated fails: it asks for "oakland" on the tags
    "oakland", "sf" and for "sf" on the tags "sf", "oakland", and the
    matcher gives the same term for both. *)
Lemma first_tag_does_not_decide :
  ¬ ∃ rt : PyRuntime,
      ∀ fields pre tag post T,
        @match_fields rt fields = None →
        (∀ t, t ∈ pre → ¬ gazetteer_hit t) →
        T ∈ LOCATION_INDICATORS → occurs T tag →
        (∀ T', T' ∈ LOCATION_INDICATORS → occurs T' tag → T' = T) →
        @find_location_match rt fields (pre ++ tag :: post)
        = Some (T, "tags").
Proof.
  intros [rt Hclaim].
  assert (∀ t, t ∈ @nil string → ¬ gazetteer_hit t) as Hnil.
  { intros t Ht. by apply elem_of_nil in Ht. }
  assert (@find_location_match rt [] ["oakland"; "sf"]
          = Some ("oakland", "tags")) as E1.
  { apply (Hclaim [] [] "oakland" ["sf"] "oakland"); [done|done| | |].
    - by_decide.
    - apply occurs_by_search; [by_decide | by vm_compute].
    - apply only_hit_by_search. by vm_compute. }
  assert (@find_location_match rt [] ["sf"; "oakland"]
          = Some ("sf", "tags")) as E2.
  { apply (Hclaim [] [] "sf" ["oakland"] "sf"); [done|done| | |].
    - by_decide.
    - apply occurs_by_search; [by_decide | by vm_compute].
    - apply only_hit_by_search. by vm_compute. }
  change (@match_tags rt ["oakland"; "sf"] = Some ("oakland", "tags")) in E1.
  change (@match_tags rt ["sf"; "oakland"] = Some ("sf", "tags")) in E2.
  rewrite match_tags_swap in E1. rewrite E1 in E2. discriminate E2.
Qed.

(** ** Eligibility filter *)

Section EligibilityClaims.
Context `{PyRuntime}.

Lemma no_timestamp_iff (blog_info : BlogInfo) :
  no_timestamp blog_info ↔ default 0 (bi_updated blog_info) = 0.
Proof.
  unfold no_timestamp. destruct (bi_updated blog_info) as [u|]; simpl.
  - split; [by intros [|[= ->]] | intros ->; by right].
  - split; [done | by left].
Qed.




(** C10.  A profile whose last-updated field is missing or is 0 gets
    (false, none): the zero counts as no timestamp.  A profile that fails
    the inactivity test alone gets false together with the date of its last
    post. *)
Theorem meets_criteria_zero_and_inactive (blog_info : BlogInfo)
    (min_followers max_days_inactive now : Z) :
  (bi_updated blog_info = None ∨ bi_updated blog_info = Some 0 →
   meets_criteria blog_info min_followers max_days_inactive now
   = Some (false, None))
  ∧ (∀ u d, min_followers ≤ followers blog_info →
       bi_updated blog_info = Some u → u ≠ 0 →
       fromtimestamp u = Some d →
       max_days_inactive < days (now - d) →
       meets_criteria blog_info min_followers max_days_inactive now
       = Some (false, Some d) ∧ d = of_epoch u).
Proof.
  unfold meets_criteria, followers. split.
  - intros Hu. apply no_timestamp_iff in Hu as ->.
    by destruct (_ <? _).
  - intros u d Hf -> Hu Ed Hd. simpl.
    destruct (Z.ltb_spec (default 0 (bi_total_followers blog_info))
                min_followers); [lia|].
    destruct (Z.eqb_spec u 0); [done|]. rewrite Ed.
    destruct (Z.ltb_spec max_days_inactive (days (now - d))); [|lia].
    split; [done|]. unfold fromtimestamp in Ed.
    destruct (representable u); by simplify_eq.
Qed.

End EligibilityClaims.



(** C10, witness: 50 followers, last post 100 days before the check. *)
Lemma meets_criteria_zero_and_inactive_witness :
  @meets_criteria source_order_runtime profile_inactive 10 90
    (of_epoch (1000000 + 100 * 86400))
  = Some (false, Some (of_epoch 1000000)).
Proof.
  destruct (@meets_criteria_zero_and_inactive source_order_runtime
              profile_inactive 10 90 (of_epoch (1000000 + 100 * 86400)))
    as [_ Hinactive].
  apply (Hinactive 1000000 (of_epoch 1000000)).
  - vm_compute. discriminate.
  - reflexivity.
  - discriminate.
  - reflexivity.
  - vm_compute. reflexivity.
Defined.

(** ** Rate governor *)

Lemma roll_over_limits (t : RateLimitTracker) (now : Z) :
  hourly_limit (roll_over t now) = hourly_limit t
  ∧ daily_limit (roll_over t now) = daily_limit t.
Proof. unfold roll_over. by repeat case_match. Qed.

Lemma roll_over_hour_open (t : RateLimitTracker) (now : Z) :
  now - hour_start t < hour →
  hourly_calls (roll_over t now) = hourly_calls t
  ∧ hour_start (roll_over t now) = hour_start t.
Proof.
  intros Hopen. unfold roll_over.
  destruct (Z.leb_spec hour (now - hour_start t)); [lia|].
  by case_match.
Qed.

Lemma roll_over_day_open (t : RateLimitTracker) (now : Z) :
  now - day_start t < day →
  daily_calls (roll_over t now) = daily_calls t.
Proof.
  intros Hopen. unfold roll_over.
  destruct (Z.leb_spec hour (now - hour_start t)); simpl;
    (destruct (Z.leb_spec day (now - day_start t)); [lia | done]).
Qed.

Lemma roll_over_daily_calls (t : RateLimitTracker) (now : Z) :
  daily_calls (roll_over t now) = daily_calls t
  ∨ daily_calls (roll_over t now) = 0.
Proof. unfold roll_over. repeat case_match; simpl; auto. Qed.

Lemma roll_over_hourly_calls (t : RateLimitTracker) (now : Z) :
  hourly_calls (roll_over t now) = hourly_calls t
  ∨ hourly_calls (roll_over t now) = 0.
Proof. unfold roll_over. repeat case_match; simpl; auto. Qed.

Lemma roll_over_total_calls (t : RateLimitTracker) (now : Z) :
  total_calls (roll_over t now) = total_calls t.
Proof. unfold roll_over. by repeat case_match. Qed.

(** C3 (amended).  When the hourly count has reached the hourly limit
    minus the safety margin and time remains in the hour window, the
    check sleeps for the remaining time plus the buffer and starts a new
    hour window at the time it wakes up; it then answers true provided
    the daily count is below the daily limit minus the margin.  When the
    daily count has reached the daily limit minus the margin within the
    day window, the check answers false; it does so without sleeping
    provided the hourly count is below its own threshold. *)
Theorem check_and_wait_thresholds (t : RateLimitTracker) (now : Z) :
  (hourly_limit t - safety_margin ≤ hourly_calls t →
   now - hour_start t < hour →
   0 ≤ daily_calls t < daily_limit t - safety_margin →
   let d := hour - (now - hour_start t) + wait_buffer in
   check_and_wait t now = (true, reset_hour (roll_over t now) (now + d), Some d)
   ∧ hourly_calls (reset_hour (roll_over t now) (now + d)) = 0
   ∧ hour_start (reset_hour (roll_over t now) (now + d)) = now + d)
  ∧ (daily_limit t - safety_margin ≤ daily_calls t →
     now - day_start t < day →
     (check_and_wait t now).1.1 = false
     ∧ (0 ≤ hourly_calls t < hourly_limit t - safety_margin →
        check_and_wait t now = (false, roll_over t now, None))).
Proof.
  split.
  - intros Hh Hopen Hd d.
    destruct (roll_over_hour_open t now Hopen) as [Ec Es].
    destruct (roll_over_limits t now) as [Elh Eld].
    unfold check_and_wait. rewrite Elh, Ec, Es.
    destruct (Z.leb_spec (hourly_limit t - safety_margin) (hourly_calls t));
      [|lia].
    destruct (Z.ltb_spec 0 (hour - (now - hour_start t))); [|lia].
    simpl. rewrite Eld.
    destruct (Z.leb_spec (daily_limit t - safety_margin)
                (daily_calls (roll_over t now))) as [Hge|Hlt]; [|done].
    destruct (roll_over_daily_calls t now); lia.
  - intros Hd Hopen.
    pose proof (roll_over_day_open t now Hopen) as Ed.
    destruct (roll_over_limits t now) as [Elh Eld].
    split.
    + unfold check_and_wait.
      destruct (if hourly_limit (roll_over t now) - safety_margin
                   <=? hourly_calls (roll_over t now) then _ else _)
        as [t3 nap] eqn:E3.
      assert (daily_limit t3 = daily_limit t ∧ daily_calls t3 = daily_calls t)
        as [-> ->].
      { repeat case_match; simplify_eq; simpl; by rewrite ?Eld, ?Ed. }
      by destruct (Z.leb_spec (daily_limit t - safety_margin) (daily_calls t));
        [|lia].
    + intros Hh. unfold check_and_wait. rewrite Elh.
      destruct (Z.leb_spec (hourly_limit t - safety_margin)
                  (hourly_calls (roll_over t now))) as [Hge|Hlt].
      { destruct (roll_over_hourly_calls t now); lia. }
      rewrite Eld, Ed.
      by destruct (Z.leb_spec (daily_limit t - safety_margin) (daily_calls t));
        [|lia].
Qed.


(** C3, witness: 50 minutes left in the window; the check sleeps 50
    minutes and 10 seconds and allows the call. *)
Lemma check_and_wait_thresholds_witness :
  check_and_wait tracker_at_hourly_threshold (600 * second)
  = (true,
     reset_hour tracker_at_hourly_threshold (3610 * second),
     Some (3010 * second)).
Proof.
  destruct (check_and_wait_thresholds tracker_at_hourly_threshold
              (600 * second)) as [Hhourly _].
  destruct Hhourly as (E & _ & _).
  - vm_compute. discriminate.
  - vm_compute. reflexivity.
  - vm_compute. split; [discriminate | reflexivity].
  - exact E.
Defined.


(** C3, counterexample.  With both counts at their thresholds and 50
    minutes left in the hour window the claim asks for true (hourly
    part) and for false without a sleep (daily part); the check sleeps
    50 minutes and 10 seconds and then answers false. *)
Lemma check_and_wait_both_thresholds :
  ¬ (∀ (t : RateLimitTracker) (now : Z),
       (hourly_limit t - safety_margin ≤ hourly_calls t →
        now - hour_start t < hour →
        (check_and_wait t now).1.1 = true)
       ∧ (daily_limit t - safety_margin ≤ daily_calls t →
          (check_and_wait t now).1.1 = false
          ∧ (check_and_wait t now).2 = None))
  ∧ check_and_wait tracker_at_both_thresholds (600 * second)
    = (false, reset_hour tracker_at_both_thresholds (3610 * second),
       Some (3010 * second)).
Proof.
  split; [|by vm_compute].
  intros Hclaim.
  destruct (Hclaim tracker_at_both_thresholds (600 * second)) as [Hh _].
  assert ((check_and_wait tracker_at_both_thresholds (600 * second)).1.1
          = true) as E.
  { apply Hh; by vm_compute. }
  vm_compute in E. discriminate E.
Qed.

(** ** Crawl controller *)

Section LoopFacts.
Context {A : Type} (body : A → Step A).

Lemma run_loop_advance (n k : nat) (a b c : A) :
  advance body n a = Some b → body b = Break c →
  run_loop body (S (n + k)) a = Some c.
Proof.
  revert a. induction n as [|n IH]; intros a; simpl.
  - intros [= ->] ->. done.
  - destruct (body a) as [a'|a'] eqn:E; [done|]. intros Hadv Hb.
    by apply IH.
Qed.

Lemma advance_add (n m : nat) (a b c : A) :
  advance body n a = Some b → advance body m b = Some c →
  advance body (n + m) a = Some c.
Proof.
  revert a. induction n as [|n IH]; intros a; simpl.
  - by intros [= ->].
  - destruct (body a); [done|]. apply IH.
Qed.

Lemma advance_split (n m : nat) (a c : A) :
  advance body (n + m) a = Some c →
  ∃ b, advance body n a = Some b ∧ advance body m b = Some c.
Proof.
  revert a. induction n as [|n IH]; intros a; simpl.
  - intros E. by exists a.
  - destruct (body a); [done|]. apply IH.
Qed.

(** A loop whose rounds make a measure drop ends within as many
    rounds as the measure counts. *)
Lemma run_loop_total (measure : A → nat) (fuel : nat) (a : A) :
  (∀ x y, body x = Next y → measure y < measure x)%nat →
  (measure a < fuel)%nat →
  ∃ r, run_loop body fuel a = Some r.
Proof.
  intros Hdrop. revert a. induction fuel as [|fuel IH]; intros a Hm.
  - lia.
  - simpl. destruct (body a) as [r|a'] eqn:E; [by exists r|].
    apply IH. specialize (Hdrop a a' E). lia.
Qed.

Lemma run_loop_inv (P : A → Prop)
    (fuel : nat) (a r : A) :
  (∀ x, P x → P (step_value (body x))) → P a →
  run_loop body fuel a = Some r → P r.
Proof.
  intros Hstep. revert a. induction fuel as [|fuel IH]; intros a Ha; [done|].
  simpl. specialize (Hstep a Ha).
  destruct (body a) as [a'|a']; [by intros [= <-]|]. by apply IH.
Qed.

End LoopFacts.

Section CrawlFacts.
Context `{PyRuntime} `{TumblrClient}.

Global Instance bl_le_refl : Reflexive bl_le.
Proof. intros bl name ev Hin. by exists ev. Qed.

Global Instance bl_le_trans : Transitive bl_le.
Proof.
  intros b1 b2 b3 H12 H23 name ev Hin.
  destruct (H12 name ev Hin) as (ev2 & Hin2 & Hsub2).
  destruct (H23 name ev2 Hin2) as (ev3 & Hin3 & Hsub3).
  exists ev3. split; [done | set_solver].
Qed.

Lemma bl_add_le (name m : string) (bl : BlogLocations) :
  bl_le bl (bl_add name m bl).
Proof.
  induction bl as [|[k s] bl IH]; intros n ev Hin.
  - by apply elem_of_nil in Hin.
  - simpl. destruct (decide (k = name)) as [->|Hne].
    + apply elem_of_cons in Hin as [[= -> ->]|Hin].
      * exists ({[m]} ∪ s). split; [by left | set_solver].
      * exists ev. split; [by right | done].
    + apply elem_of_cons in Hin as [[= -> ->]|Hin].
      * exists s. split; [by left | done].
      * destruct (IH n ev Hin) as (ev' & Hin' & Hsub).
        exists ev'. split; [by right | done].
Qed.

Lemma bl_register_le (name : string) (bl : BlogLocations) :
  bl_le bl (bl_register name bl).
Proof.
  induction bl as [|[k s] bl IH]; intros n ev Hin.
  - by apply elem_of_nil in Hin.
  - simpl. destruct (decide (k = name)) as [->|Hne]; [by exists ev|].
    apply elem_of_cons in Hin as [[= -> ->]|Hin].
    + exists s. split; [by left | done].
    + destruct (IH n ev Hin) as (ev' & Hin' & Hsub).
      exists ev'. split; [by right | done].
Qed.

Lemma absorb_post_le (bl : BlogLocations) (b : option Z) (post : Post) :
  bl_le bl (absorb_post (bl, b) post).1.
Proof.
  unfold absorb_post. simpl. destruct (p_blog_name post) as [name|]; [|done].
  destruct (check_post_content_for_location post) as [[T src]|].
  - etrans; [apply bl_add_le | apply bl_register_le].
  - apply bl_register_le.
Qed.

Lemma absorb_posts_le (page : list Post) (acc : BlogLocations * option Z) :
  bl_le acc.1 (fold_left absorb_post page acc).1.
Proof.
  revert acc. induction page as [|post page IH]; intros [bl b]; simpl.
  - done.
  - etrans; [apply (absorb_post_le bl b post)|]. apply IH.
Qed.

Lemma absorb_page_le (st : SearchState) (page : list Post) :
  bl_le (blog_locations st) (blog_locations (absorb_page st page)).
Proof.
  unfold absorb_page.
  pose proof (absorb_posts_le page (blog_locations st, before st)) as Hle.
  by destruct (fold_left absorb_post page _).
Qed.

Lemma bl_add_mentions (name T src : string) (bl : BlogLocations) :
  T ∈ LOCATION_INDICATORS → mentions_gazetteer bl →
  mentions_gazetteer (bl_add name (mention T src) bl).
Proof.
  intros HT. induction bl as [|[k s] bl IH]; intros Hbl n ev m Hin Hm.
  - apply list_elem_of_singleton in Hin as [= -> ->].
    apply elem_of_singleton in Hm as ->. by exists T, src.
  - simpl in Hin. destruct (decide (k = name)) as [->|Hne].
    + apply elem_of_cons in Hin as [[= -> ->]|Hin].
      * apply elem_of_union in Hm as [->%elem_of_singleton|Hm];
          [by exists T, src|].
        apply (Hbl name s m); [by left | done].
      * apply (Hbl n ev m); [by right | done].
    + apply elem_of_cons in Hin as [[= -> ->]|Hin].
      * apply (Hbl k s m); [by left | done].
      * apply (IH (λ n' ev' m' Hin', Hbl n' ev' m' (list_elem_of_further _ _ _ Hin'))
                 n ev m Hin Hm).
Qed.

Lemma bl_register_mentions (name : string) (bl : BlogLocations) :
  mentions_gazetteer bl → mentions_gazetteer (bl_register name bl).
Proof.
  induction bl as [|[k s] bl IH]; intros Hbl n ev m Hin Hm.
  - apply list_elem_of_singleton in Hin as [= -> ->].
    by apply not_elem_of_empty in Hm.
  - simpl in Hin. destruct (decide (k = name)) as [->|Hne];
      [by apply (Hbl n ev m)|].
    apply elem_of_cons in Hin as [[= -> ->]|Hin].
    + apply (Hbl k s m); [by left | done].
    + apply (IH (λ n' ev' m' Hin', Hbl n' ev' m' (list_elem_of_further _ _ _ Hin'))
               n ev m Hin Hm).
Qed.

Lemma absorb_post_mentions (bl : BlogLocations) (b : option Z) (post : Post) :
  mentions_gazetteer bl → mentions_gazetteer (absorb_post (bl, b) post).1.
Proof.
  intros Hbl. unfold absorb_post. simpl.
  destruct (p_blog_name post) as [name|]; [|done].
  destruct (check_post_content_for_location post) as [[T src]|] eqn:E.
  - apply bl_register_mentions, bl_add_mentions; [|done].
    unfold check_post_content_for_location in E.
    by apply match_content_Some in E as (_ & _ & _ & _ & _ & _ & _ & HT & _).
  - by apply bl_register_mentions.
Qed.

Lemma absorb_page_mentions (st : SearchState) (page : list Post) :
  mentions_gazetteer (blog_locations st) →
  mentions_gazetteer (blog_locations (absorb_page st page)).
Proof.
  intros Hst. unfold absorb_page.
  assert (∀ acc, mentions_gazetteer acc.1 →
                 mentions_gazetteer (fold_left absorb_post page acc).1) as Hfold.
  { induction page as [|post page IH]; intros [bl b] Hacc; [done|].
    cbn [fold_left]. apply IH. by apply absorb_post_mentions. }
  specialize (Hfold (blog_locations st, before st) Hst).
  by destruct (fold_left absorb_post page _).
Qed.

Lemma handle_response_mentions (max_posts : Z) (st : SearchState)
    (response : list Post) (f : Finder) :
  mentions_gazetteer (blog_locations st) →
  mentions_gazetteer
    (blog_locations (step_value (handle_response max_posts st response f)).1).
Proof.
  intros Hst. unfold handle_response. destruct response as [|post page]; [done|].
  case_match; simpl; by apply absorb_page_mentions.
Qed.

(** The evidence that either search returns holds only mentions made
    from terms of the gazetteer. *)
Lemma search_theme_tag_mentions (theme : string) (max_posts : Z) (f : Finder) :
  mentions_gazetteer (search_theme_tag theme max_posts f).1
  ∧ mentions_gazetteer (auto_search_theme_tag theme max_posts f).1.
Proof.
  assert (mentions_gazetteer []) as Hnil.
  { intros name ev m Hin. by apply elem_of_nil in Hin. }
  assert (∀ body fuel,
            (∀ x, mentions_gazetteer (blog_locations x.1) →
                  mentions_gazetteer (blog_locations (step_value (body x)).1)) →
            mentions_gazetteer
              (search_result f (run_loop body fuel (search_init, f))).1)
    as Hloop.
  { intros body fuel Hbody.
    destruct (run_loop body fuel (search_init, f)) as [[st f']|] eqn:E;
      [|done].
    by apply (run_loop_inv body
                (λ x, mentions_gazetteer (blog_locations x.1))) in E. }
  split; apply Hloop; intros [st f0] Hst; simpl in Hst.
  - unfold search_iter. case_match; [|done].
    destruct (tagged _ _ _); [|done]. by apply handle_response_mentions.
  - unfold auto_search_iter. case_match; [|done].
    destruct (finder_check_and_wait f0) as [[] f1]; simpl; [|done].
    destruct (tagged _ _ _); [|done]. by apply handle_response_mentions.
Qed.

Lemma absorb_page_retrieved (st : SearchState) (page : list Post) :
  posts_retrieved (absorb_page st page)
  = posts_retrieved st + Z.of_nat (List.length page).
Proof. unfold absorb_page. by destruct (fold_left absorb_post page _). Qed.



(** What a round that goes on has done. *)
Lemma handle_response_Next (max_posts : Z) (st st' : SearchState)
    (response : list Post) (f f' : Finder) :
  handle_response max_posts st response f = Next (st', f') →
  st' = absorb_page st response ∧ f' = sleep (2 * second) f
  ∧ page_limit max_posts st ≤ Z.of_nat (List.length response).
Proof.
  unfold handle_response. destruct response as [|post page]; [done|].
  destruct (Z.ltb_spec (Z.of_nat (List.length (post :: page)))
              (page_limit max_posts st)); [done|].
  by intros [= <- <-].
Qed.

Lemma search_iter_Next (theme : string) (max_posts : Z)
    (st st' : SearchState) (f f' : Finder) :
  search_iter theme max_posts (st, f) = Next (st', f') →
  ∃ response, st' = absorb_page st response
    ∧ posts_retrieved st < max_posts
    ∧ page_limit max_posts st ≤ Z.of_nat (List.length response).
Proof.
  unfold search_iter.
  destruct (Z.ltb_spec (posts_retrieved st) max_posts); [|done].
  destruct (tagged _ _ _) as [response|]; [|done].
  intros (-> & _ & ?)%handle_response_Next. by exists response.
Qed.

Lemma auto_search_iter_Next (theme : string) (max_posts : Z)
    (st st' : SearchState) (f f' : Finder) :
  auto_search_iter theme max_posts (st, f) = Next (st', f') →
  ∃ response, st' = absorb_page st response
    ∧ posts_retrieved st < max_posts
    ∧ page_limit max_posts st ≤ Z.of_nat (List.length response).
Proof.
  unfold auto_search_iter.
  destruct (Z.ltb_spec (posts_retrieved st) max_posts); [|done].
  destruct (finder_check_and_wait f) as [ok f0].
  destruct ok; simpl; [|done].
  destruct (tagged _ _ _) as [response|]; [|done].
  intros (-> & _ & ?)%handle_response_Next. by exists response.
Qed.

Lemma search_body_base (theme : string) (max_posts : Z) :
  search_body (search_iter theme max_posts) max_posts.
Proof. intros st f st' f'. apply search_iter_Next. Qed.

Lemma search_body_auto (theme : string) (max_posts : Z) :
  search_body (auto_search_iter theme max_posts) max_posts.
Proof. intros st f st' f'. apply auto_search_iter_Next. Qed.

Lemma search_body_progress body max_posts st f st' f' :
  search_body body max_posts → body (st, f) = Next (st', f') →
  posts_retrieved st < max_posts
  ∧ posts_retrieved st + 1 ≤ posts_retrieved st'
  ∧ bl_le (blog_locations st) (blog_locations st').
Proof.
  intros Hb (response & -> & Hlt & Hlen)%Hb.
  rewrite absorb_page_retrieved. unfold page_limit in Hlen.
  split_and!; [done|lia|apply absorb_page_le].
Qed.

Lemma search_body_advance body max_posts (n : nat) st f st' f' :
  search_body body max_posts →
  advance body n (st, f) = Some (st', f') →
  posts_retrieved st + Z.of_nat n ≤ posts_retrieved st'
  ∧ bl_le (blog_locations st) (blog_locations st').
Proof.
  intros Hb. revert st f. induction n as [|n IH]; intros st f.
  - intros [= -> ->]. split; [lia | done].
  - simpl. destruct (body (st, f)) as [|[st1 f1]] eqn:E; [done|].
    intros [Hn Hle]%IH.
    destruct (search_body_progress _ _ _ _ _ _ Hb E) as (_ & Hp & Hle1).
    split; [lia | by etrans].
Qed.

(** The search loop ends within the rounds it is given. *)
Lemma search_loop_total body max_posts st f :
  search_body body max_posts → 0 ≤ posts_retrieved st →
  ∃ r, run_loop body (search_fuel max_posts) (st, f) = Some r.
Proof.
  intros Hb Hpos.
  apply (run_loop_total body
           (λ x, Z.to_nat (max_posts - posts_retrieved x.1))).
  - intros [st1 f1] [st2 f2] E. simpl.
    destruct (search_body_progress _ _ _ _ _ _ Hb E) as (Hlt & Hp & _).
    lia.
  - unfold search_fuel. simpl. lia.
Qed.

Lemma search_theme_tag_total (theme : string) (max_posts : Z) (f : Finder) :
  ∃ st f', run_loop (search_iter theme max_posts) (search_fuel max_posts)
             (search_init, f) = Some (st, f')
           ∧ search_theme_tag theme max_posts f = (blog_locations st, f').
Proof.
  destruct (search_loop_total _ max_posts search_init f
              (search_body_base theme max_posts)) as [[st f'] E]; [done|].
  exists st, f'. split; [done|]. unfold search_theme_tag. by rewrite E.
Qed.

Lemma auto_search_theme_tag_total (theme : string) (max_posts : Z)
    (f : Finder) :
  ∃ st f', run_loop (auto_search_iter theme max_posts)
             (search_fuel max_posts) (search_init, f) = Some (st, f')
           ∧ auto_search_theme_tag theme max_posts f
             = (blog_locations st, f').
Proof.
  destruct (search_loop_total _ max_posts search_init f
              (search_body_auto theme max_posts)) as [[st f'] E]; [done|].
  exists st, f'. split; [done|]. unfold auto_search_theme_tag. by rewrite E.
Qed.

Lemma finder_check_and_wait_log (f : Finder) :
  api_log (finder_check_and_wait f).2 = api_log f.
Proof.
  unfold finder_check_and_wait.
  destruct (check_and_wait _ _) as [[ok t] [d|]]; done.
Qed.

(** C4.  In the rate-governed search, when the governor denies the
    budget before a page fetch, the search ends there without sending
    another call and returns the mapping accumulated up to that round;
    nothing gathered in the rounds before is lost from it. *)
Theorem budget_stop_keeps_partial_results (theme : string) (max_posts : Z)
    (f : Finder) (n : nat) (st : SearchState) (f' : Finder) :
  advance (auto_search_iter theme max_posts) n (search_init, f)
  = Some (st, f') →
  posts_retrieved st < max_posts →
  (finder_check_and_wait f').1 = false →
  auto_search_theme_tag theme max_posts f
  = (blog_locations st, (finder_check_and_wait f').2)
  ∧ api_log (finder_check_and_wait f').2 = api_log f'
  ∧ ∀ m st_m f_m, (m ≤ n)%nat →
      advance (auto_search_iter theme max_posts) m (search_init, f)
      = Some (st_m, f_m) →
      bl_le (blog_locations st_m) (blog_locations st).
Proof.
  intros Hadv Hlt Hdeny. split_and!.
  - assert (auto_search_iter theme max_posts (st, f')
            = Break (st, (finder_check_and_wait f').2)) as Hbreak.
    { unfold auto_search_iter.
      destruct (Z.ltb_spec (posts_retrieved st) max_posts); [|lia].
      destruct (finder_check_and_wait f') as [ok f0]. simpl in *.
      by subst ok. }
    destruct (search_body_advance _ _ _ _ _ _ _
                (search_body_auto theme max_posts) Hadv) as [Hn _].
    simpl in Hn.
    unfold auto_search_theme_tag, search_fuel.
    replace (Z.to_nat max_posts) with (n + (Z.to_nat max_posts - n))%nat
      by lia.
    by rewrite (run_loop_advance _ n _ _ _ _ Hadv Hbreak).
  - apply finder_check_and_wait_log.
  - intros m st_m f_m Hm Hadvm.
    replace n with (m + (n - m))%nat in Hadv by lia.
    apply advance_split in Hadv as ([st1 f1] & E1 & E2).
    rewrite Hadvm in E1. injection E1 as <- <-.
    by destruct (search_body_advance _ _ _ _ _ _ _
                   (search_body_auto theme max_posts) E2).
Qed.

End CrawlFacts.

Section CursorFacts.
Context `{PyRuntime} `{TumblrClient}.




End CursorFacts.



(** C4, witness: one call short of the daily threshold, the first page
    of 20 posts is fetched, the second round is denied, and the blog found
    on the first page is returned. *)
Lemma budget_stop_keeps_partial_results_witness :
  (@auto_search_theme_tag source_order_runtime full_pages_client "a" 50
     finder_one_call_left).1
  = [("x", {[ "sf (in post_body)" ]})].
Proof.
  lazymatch eval vm_compute in
    (@advance _
       (@auto_search_iter source_order_runtime full_pages_client "a" 50)
       1 (search_init, finder_one_call_left)) with
  | Some (?st, ?f') =>
      destruct (@budget_stop_keeps_partial_results source_order_runtime
                  full_pages_client "a" 50 finder_one_call_left 1 st f')
        as (E & _); [by vm_compute | by vm_compute | by vm_compute |]
  end.
  rewrite E. by vm_compute.
Defined.

(** ** Enrichment and qualification pipeline *)

Section PipelineFacts.
Context `{PyRuntime} `{TumblrClient}.
Import Text TextFacts.




Lemma list_to_set_set_iter (X : gset string) : list_to_set (set_iter X) = X.
Proof. by rewrite set_iter_perm, list_to_set_elements_L. Qed.

Lemma finder_check_and_wait_results (f : Finder) :
  discovered_blogs (finder_check_and_wait f).2 = discovered_blogs f
  ∧ blog_themes (finder_check_and_wait f).2 = blog_themes f.
Proof.
  unfold finder_check_and_wait.
  by destruct (check_and_wait _ _) as [[ok t] [d|]].
Qed.

Lemma auto_get_blog_info_results (name : string) (f f1 : Finder)
    (info : option BlogInfo) :
  auto_get_blog_info name f = (info, f1) →
  discovered_blogs f1 = discovered_blogs f
  ∧ blog_themes f1 = blog_themes f.
Proof.
  unfold auto_get_blog_info.
  destruct (finder_check_and_wait_results f) as [Ed Et].
  destruct (finder_check_and_wait f) as [ok f0]. simpl in Ed, Et.
  destruct ok; simpl; intros [= <- <-]; by simpl.
Qed.


Lemma qualify_name (name : string) (mentions : gset string)
    (theme : string) (min_followers max_days_inactive : Z)
    (blog_info : BlogInfo) (now : Z) (r : BlogRecord) :
  qualify name mentions theme min_followers max_days_inactive blog_info now
  = Some (Some r) →
  blog_name r = name.
Proof.
  unfold qualify.
  destruct (meets_criteria _ _ _ _) as [[[] lpd]|]; [|done|done].
  simpl. destruct (resolve_location _ _) as [[T src]|]; [|done].
  by intros [= <-].
Qed.



End PipelineFacts.

Section RunFacts.
Context `{PyRuntime} `{TumblrClient}.



Global Instance extends_refl : Reflexive extends.
Proof. intros f. unfold extends. split_and!; auto. Qed.

Global Instance extends_trans : Transitive extends.
Proof.
  intros f1 f2 f3 (Hd12 & Ht12 & Hk12) (Hd23 & Ht23 & Hk23).
  unfold extends. split_and!; [auto| |auto].
  intros k. specialize (Ht12 k). specialize (Ht23 k). set_solver.
Qed.

Lemma extends_same_results (f f' : Finder) :
  discovered_blogs f' = discovered_blogs f →
  blog_themes f' = blog_themes f → extends f f'.
Proof.
  intros Ed Et. unfold extends, themes_of. by rewrite Ed, Et.
Qed.

Lemma add_theme_lookup (name theme k : string)
    (bt : gmap string (gset string)) :
  default ∅ (add_theme name theme bt !! k)
  = if decide (k = name) then {[theme]} ∪ default ∅ (bt !! name)
    else default ∅ (bt !! k).
Proof.
  unfold add_theme. destruct (decide (k = name)) as [->|Hne].
  - by rewrite lookup_insert_eq.
  - by rewrite lookup_insert_ne.
Qed.

Lemma item_effect_extends (theme name : string) (f f' : Finder) :
  item_effect theme name f f' → extends f f'.
Proof.
  intros [Hin Ed Et | Hnew Ed Et | r Hnew Hr Ed Et].
  - unfold extends, themes_of. rewrite Ed, Et. split_and!; [done| |done].
    intros k. rewrite add_theme_lookup. case_decide; [subst|done].
    set_solver.
  - by apply extends_same_results.
  - unfold extends, themes_of. rewrite Ed, Et. split_and!.
    + intros k r' Hk. rewrite lookup_insert_ne; [done|].
      intros ->. by rewrite Hnew in Hk.
    + intros k. rewrite add_theme_lookup. case_decide; [subst|done].
      set_solver.
    + intros Hkeyed k r'. rewrite lookup_insert. case_decide.
      * intros [= <-]. by subst.
      * apply Hkeyed.
Qed.


Lemma process_one_effect (theme : string)
    (min_followers max_days_inactive : Z) (name : string)
    (mentions : gset string) (f : Finder) :
  item_effect theme name f
    (state (process_one theme min_followers max_days_inactive
              (name, mentions) f)).
Proof.
  unfold process_one.
  destruct (discovered_blogs f !! name) as [r|] eqn:Hlook.
  - by apply effect_noted.
  - unfold get_blog_info. destruct (blog_info name) as [info|].
    + destruct (qualify _ _ _ _ _ _ _) as [[r|]|] eqn:Hq.
      * apply (effect_stored _ _ _ _ r); [done| |done|done].
        by apply qualify_name in Hq.
      * by apply effect_dropped.
      * by apply effect_dropped.
    + by apply effect_dropped.
Qed.

Lemma auto_process_one_effect (theme : string)
    (min_followers max_days_inactive processed : Z) (name : string)
    (mentions : gset string) (f : Finder) :
  item_effect theme name f
    (flow_state (auto_process_one theme min_followers max_days_inactive
                   processed (name, mentions) f)).
Proof.
  unfold auto_process_one.
  destruct (discovered_blogs f !! name) as [r|] eqn:Hlook.
  - by apply effect_noted.
  - destruct (auto_get_blog_info name f) as [info f1] eqn:Hget.
    destruct (auto_get_blog_info_results _ _ _ _ Hget) as [Ed Et].
    destruct info as [info|].
    + destruct (qualify _ _ _ _ _ _ _) as [[r|]|] eqn:Hq.
      * apply (effect_stored _ _ _ _ r); [done| | |].
        -- by apply qualify_name in Hq.
        -- simpl. rewrite <- Ed. by destruct (_ =? _).
        -- simpl. rewrite <- Et. by destruct (_ =? _).
      * by apply effect_dropped.
      * by apply effect_dropped.
    + destruct (finder_check_and_wait_results f1) as [Ed2 Et2].
      destruct (finder_check_and_wait f1) as [ok f2]. simpl in Ed2, Et2.
      destruct ok; simpl; apply effect_dropped; simpl; congruence.
Qed.

Lemma process_blogs_cons (item : string * gset string)
    (rest : BlogLocations) (theme : string)
    (min_followers max_days_inactive : Z) (f : Finder) :
  process_blogs (item :: rest) theme min_followers max_days_inactive f
  = match process_one theme min_followers max_days_inactive item f with
    | Returned f' =>
        process_blogs rest theme min_followers max_days_inactive f'
    | Raised f' => Raised f'
    end.
Proof. reflexivity. Qed.


Lemma process_blogs_extends (bl : BlogLocations) (theme : string)
    (min_followers max_days_inactive : Z) (f : Finder) :
  extends f
    (state (process_blogs bl theme min_followers max_days_inactive f)).
Proof.
  revert f.
  induction bl as [|[name m] bl IH]; intros f; [done|].
  rewrite process_blogs_cons.
  pose proof (process_one_effect theme min_followers max_days_inactive
                name m f) as He.
  apply item_effect_extends in He.
  destruct (process_one _ _ _ _ _) as [f'|f']; simpl in He; [|exact He].
  etrans; [exact He | apply IH].
Qed.

Lemma auto_process_items_cons (theme : string)
    (min_followers max_days_inactive processed : Z)
    (item : string * gset string) (rest : BlogLocations) (f : Finder) :
  auto_process_items theme min_followers max_days_inactive processed
    (item :: rest) f
  = match auto_process_one theme min_followers max_days_inactive
            (processed + 1) item f with
    | Returns f' => Returned f'
    | Raises f' => Raised f'
    | Continues f' =>
        auto_process_items theme min_followers max_days_inactive
          (processed + 1) rest f'
    end.
Proof. reflexivity. Qed.

Lemma auto_process_items_extends (theme : string)
    (min_followers max_days_inactive processed : Z) (bl : BlogLocations)
    (f : Finder) :
  extends f
    (state (auto_process_items theme min_followers max_days_inactive
              processed bl f)).
Proof.
  revert processed f.
  induction bl as [|[name m] bl IH]; intros processed f.
  - by apply extends_same_results.
  - rewrite auto_process_items_cons.
    pose proof (auto_process_one_effect theme min_followers
                  max_days_inactive (processed + 1) name m f) as He.
    apply item_effect_extends in He.
    destruct (auto_process_one _ _ _ _ _ _) as [f'|f'|f']; simpl in He;
      [|exact He..].
    etrans; [exact He | apply IH].
Qed.


Lemma search_iter_results (theme : string) (max_posts : Z)
    (x : SearchState * Finder) :
  discovered_blogs (step_value (search_iter theme max_posts x)).2
  = discovered_blogs x.2
  ∧ blog_themes (step_value (search_iter theme max_posts x)).2
    = blog_themes x.2.
Proof.
  destruct x as [st f]. unfold search_iter, handle_response.
  repeat case_match; done.
Qed.

Lemma auto_search_iter_results (theme : string) (max_posts : Z)
    (x : SearchState * Finder) :
  discovered_blogs (step_value (auto_search_iter theme max_posts x)).2
  = discovered_blogs x.2
  ∧ blog_themes (step_value (auto_search_iter theme max_posts x)).2
    = blog_themes x.2.
Proof.
  destruct x as [st f]. unfold auto_search_iter, handle_response.
  destruct (finder_check_and_wait_results f) as [Ed Et].
  destruct (finder_check_and_wait f) as [ok f0]. simpl in Ed, Et.
  repeat case_match; simpl; by rewrite ?Ed, ?Et.
Qed.

Lemma search_result_results body (fuel : nat) (f : Finder) :
  (∀ x, discovered_blogs (step_value (body x)).2 = discovered_blogs x.2
        ∧ blog_themes (step_value (body x)).2 = blog_themes x.2) →
  discovered_blogs (search_result f (run_loop body fuel (search_init, f))).2
  = discovered_blogs f
  ∧ blog_themes (search_result f (run_loop body fuel (search_init, f))).2
    = blog_themes f.
Proof.
  intros Hbody.
  destruct (run_loop body fuel (search_init, f)) as [[st f']|] eqn:E;
    [|done].
  apply (run_loop_inv body
           (λ x, discovered_blogs x.2 = discovered_blogs f
                 ∧ blog_themes x.2 = blog_themes f)) in E; [done| |done].
  intros x [Ed Et]. destruct (Hbody x) as [Ed' Et']. split; congruence.
Qed.

Lemma base_methods_ok : methods_ok base_methods.
Proof.
  split; simpl.
  - intros theme max_posts f. apply search_result_results.
    apply search_iter_results.
  - intros. apply process_blogs_extends.
Qed.

Lemma auto_methods_ok : methods_ok auto_methods.
Proof.
  split; simpl.
  - intros theme max_posts f. apply search_result_results.
    apply auto_search_iter_results.
  - intros. apply auto_process_items_extends.
Qed.

Lemma search_one_theme_extends (M : FinderMethods)
    (max_posts min_followers max_days_inactive : Z) (f : Finder)
    (theme : string) :
  methods_ok M →
  extends f
    (state (search_one_theme M max_posts min_followers max_days_inactive
              f theme)).
Proof.
  intros [Hs Hp]. unfold search_one_theme.
  destruct (Hs theme max_posts f) as [Ed Et].
  destruct (m_search_theme_tag M theme max_posts f) as [bl f1].
  simpl in Ed, Et.
  etrans; [by apply (extends_same_results f f1)|].
  destruct bl; [done | apply Hp].
Qed.

Lemma search_themes_cons (M : FinderMethods) (theme : string)
    (themes : list string) (max_posts min_followers max_days_inactive : Z)
    (f : Finder) :
  search_themes M (theme :: themes) max_posts min_followers
    max_days_inactive f
  = match search_one_theme M max_posts min_followers max_days_inactive
            f theme with
    | Returned f' =>
        search_themes M themes max_posts min_followers max_days_inactive f'
    | Raised f' => Raised f'
    end.
Proof. reflexivity. Qed.

Lemma search_themes_extends (M : FinderMethods) (themes : list string)
    (max_posts min_followers max_days_inactive : Z) (f : Finder) :
  methods_ok M →
  extends f
    (state (search_themes M themes max_posts min_followers
              max_days_inactive f)).
Proof.
  intros HM. revert f.
  induction themes as [|theme themes IH]; intros f; [done|].
  rewrite search_themes_cons.
  pose proof (search_one_theme_extends M max_posts min_followers
                max_days_inactive f theme HM) as He.
  destruct (search_one_theme _ _ _ _ _ _) as [f'|f']; simpl in He;
    [|exact He].
  etrans; [exact He | apply IH].
Qed.






Lemma update_theme_matched_lookup (f : Finder) (name : string) :
  discovered_blogs (update_theme_matched f) !! name
  = (λ r, match blog_themes f !! name with
          | Some themes_set => set_theme_matched r (themes_text themes_set)
          | None => r
          end) <$> discovered_blogs f !! name.
Proof.
  unfold update_theme_matched. simpl. rewrite map_lookup_imap.
  by destruct (discovered_blogs f !! name).
Qed.




End RunFacts.


(** ** The whole search *)

Section SearchClaims.
Context `{PyRuntime} `{TumblrClient}.





Lemma blog_themes_round_trip (bt : gmap string (gset string)) :
  list_to_set <$> (set_iter <$> bt) = bt.
Proof.
  rewrite <- map_fmap_compose. rewrite <- (map_fmap_id bt) at 2.
  apply map_fmap_ext. intros k S _. simpl. apply list_to_set_set_iter.
Qed.


End SearchClaims.





(** * Further properties *)

(** ** Rate governor *)

(** After the roll-over there is always time left in the hour window. *)
Lemma roll_over_time_remaining (t : RateLimitTracker) (now : Z) :
  0 < hour - (now - hour_start (roll_over t now))
  ∧ (hour_start t ≤ now →
     hour - (now - hour_start (roll_over t now)) ≤ hour).
Proof.
  unfold roll_over.
  destruct (Z.leb_spec hour (now - hour_start t)); simpl;
    case_match; simpl; unfold hour, second in *; lia.
Qed.

(** X1.  Whatever the state and the time, [check_and_wait] leaves the
    limits and the total count alone; afterwards the hourly count is 0 or
    below the hourly limit minus the margin (at the threshold the test on
    the remaining time never fails, so the call always sleeps and starts a
    new hour window); the answer is true exactly when the daily count is
    then below the daily limit minus the margin; it sleeps exactly when
    the hourly count, after the roll-over, has reached its threshold, for
    more than the buffer and, when the clock is not behind the start of
    the window, for at most an hour plus the buffer. *)
Theorem check_and_wait_postcondition (t : RateLimitTracker) (now : Z) :
  same_limits t (check_and_wait t now).1.2
  ∧ total_calls (check_and_wait t now).1.2 = total_calls t
  ∧ (hourly_calls (check_and_wait t now).1.2 = 0
     ∨ hourly_calls (check_and_wait t now).1.2
       < hourly_limit t - safety_margin)
  ∧ ((check_and_wait t now).1.1 = true ↔
     daily_calls (check_and_wait t now).1.2 < daily_limit t - safety_margin)
  ∧ ((check_and_wait t now).2 = None ↔
     hourly_calls (roll_over t now) < hourly_limit t - safety_margin)
  ∧ (∀ d, (check_and_wait t now).2 = Some d →
       wait_buffer < d
       ∧ (hour_start t ≤ now → d ≤ hour + wait_buffer)
       ∧ hourly_calls (check_and_wait t now).1.2 = 0
       ∧ hour_start (check_and_wait t now).1.2 = now + d).
Proof.
  destruct (roll_over_limits t now) as [Elh Eld].
  pose proof (roll_over_total_calls t now) as Etot.
  destruct (roll_over_time_remaining t now) as [Hrem Hle].
  unfold check_and_wait, same_limits. rewrite Elh.
  destruct (Z.leb_spec (hourly_limit t - safety_margin)
              (hourly_calls (roll_over t now))) as [Hh|Hh].
  - destruct (Z.ltb_spec 0 (hour - (now - hour_start (roll_over t now))));
      [|lia].
    simpl. rewrite Eld.
    destruct (Z.leb_spec (daily_limit t - safety_margin)
                (daily_calls (roll_over t now))); simpl.
    + split_and!; [done|done|done|by left|split; [done|lia]|split; [done|lia]|].
      intros d [= <-]. unfold wait_buffer, second in *.
      split_and!; [lia| |done|done]. intros Hs. specialize (Hle Hs). lia.
    + split_and!; [done|done|done|by left|split; [done|lia]|split; [done|lia]|].
      intros d [= <-]. unfold wait_buffer, second in *.
      split_and!; [lia| |done|done]. intros Hs. specialize (Hle Hs). lia.
  - rewrite Eld.
    destruct (Z.leb_spec (daily_limit t - safety_margin)
                (daily_calls (roll_over t now))); simpl.
    + split_and!; [done|done|done|by right|split; [done|lia]|done|done].
    + split_and!; [done|done|done|by right|split; [done|lia]|done|done].
Qed.

(** Case analysis on the comparisons of a goal. *)
Ltac split_comparisons :=
  repeat match goal with
         | |- context [?a <=? ?b] => destruct (Z.leb_spec a b)
         | |- context [?a <? ?b] => destruct (Z.ltb_spec a b)
         end.

Lemma check_and_wait_total_calls (t : RateLimitTracker) (now : Z) :
  total_calls (check_and_wait t now).1.2 = total_calls t.
Proof.
  pose proof (roll_over_total_calls t now) as Etot.
  unfold check_and_wait. split_comparisons; done.
Qed.

Lemma check_and_wait_budget (t : RateLimitTracker) (now : Z) :
  roomy t → within_budget t →
  same_limits t (check_and_wait t now).1.2
  ∧ within_budget (check_and_wait t now).1.2
  ∧ ((check_and_wait t now).1.1 = true →
     within_budget (record_call (check_and_wait t now).1.2)).
Proof.
  intros [Hrh Hrd] [Hbh Hbd].
  destruct (roll_over_limits t now) as [Elh Eld].
  pose proof (roll_over_hourly_calls t now) as Eh.
  pose proof (roll_over_daily_calls t now) as Ed.
  destruct (roll_over_time_remaining t now) as [Hrem _].
  unfold check_and_wait.
  set (r := roll_over t now) in *. clearbody r.
  unfold within_budget, same_limits, safety_margin in *.
  split_comparisons; simpl in *; repeat split; intros; try done; lia.
Qed.

(** ** From one round to the whole operation *)

Section Lifts.
Context `{PyRuntime} `{TumblrClient}.
Context (R : Finder → Finder → Prop) `{!Reflexive R} `{!Transitive R}.

Lemma lift_search (body : SearchState * Finder → Step (SearchState * Finder))
    (fuel : nat) (f : Finder) :
  (∀ x, R x.2 (step_value (body x)).2) →
  R f (search_result f (run_loop body fuel (search_init, f))).2.
Proof.
  intros Hbody.
  destruct (run_loop body fuel (search_init, f)) as [[st f']|] eqn:E;
    [|done].
  apply (run_loop_inv body (λ x, R f x.2)) in E; [done| |done].
  intros x Hx. by etrans.
Qed.

Lemma lift_process (theme : string) (min_followers max_days_inactive : Z)
    (bl : BlogLocations) (f : Finder) :
  (∀ item f,
     R f (state (process_one theme min_followers max_days_inactive
                   item f))) →
  R f (state (process_blogs bl theme min_followers max_days_inactive f)).
Proof.
  intros Hone. revert f.
  induction bl as [|item bl IH]; intros f; [done|].
  rewrite process_blogs_cons. specialize (Hone item f).
  destruct (process_one _ _ _ _ _) as [f'|f']; [|exact Hone].
  etrans; [exact Hone | apply IH].
Qed.

Lemma lift_auto_process (theme : string)
    (min_followers max_days_inactive processed : Z)
    (bl : BlogLocations) (f : Finder) :
  (∀ processed item f,
     R f (flow_state (auto_process_one theme min_followers
                        max_days_inactive processed item f))) →
  (∀ f, R f (save_progress f)) →
  R f (state (auto_process_items theme min_followers max_days_inactive
                processed bl f)).
Proof.
  intros Hone Hsave. revert processed f.
  induction bl as [|item bl IH]; intros processed f; [apply Hsave|].
  rewrite auto_process_items_cons.
  specialize (Hone (processed + 1) item f).
  destruct (auto_process_one _ _ _ _ _ _) as [f'|f'|f']; [|exact Hone..].
  etrans; [exact Hone | apply IH].
Qed.

Lemma lift_themes (M : FinderMethods) (themes : list string)
    (max_posts min_followers max_days_inactive : Z) (f : Finder) :
  (∀ theme f, R f (m_search_theme_tag M theme max_posts f).2) →
  (∀ bl theme f,
     R f (state (m_process_blogs M bl theme min_followers
                   max_days_inactive f))) →
  R f (state (search_themes M themes max_posts min_followers
                max_days_inactive f)).
Proof.
  intros Hs Hp. revert f.
  induction themes as [|theme themes IH]; intros f; [done|].
  rewrite search_themes_cons.
  assert (R f (state (search_one_theme M max_posts min_followers
                        max_days_inactive f theme))) as Hone.
  { unfold search_one_theme. specialize (Hs theme f).
    destruct (m_search_theme_tag M theme max_posts f) as [bl f1].
    destruct bl; [exact Hs|]. etrans; [exact Hs | apply Hp]. }
  destruct (search_one_theme _ _ _ _ _ _) as [f'|f']; [|exact Hone].
  etrans; [exact Hone | apply IH].
Qed.

Lemma lift_run (M : FinderMethods) (themes : list string)
    (max_posts min_followers max_days_inactive : Z) (f : Finder) :
  (∀ theme f, R f (m_search_theme_tag M theme max_posts f).2) →
  (∀ bl theme f,
     R f (state (m_process_blogs M bl theme min_followers
                   max_days_inactive f))) →
  (∀ f, R f (update_theme_matched f)) →
  R f (state (run_search M themes max_posts min_followers
                max_days_inactive f)).
Proof.
  intros Hs Hp Hu. unfold run_search.
  pose proof (lift_themes M themes max_posts min_followers
                max_days_inactive f Hs Hp) as Hthemes.
  destruct (search_themes _ _ _ _ _ _) as [f'|f']; [|exact Hthemes].
  etrans; [exact Hthemes | apply Hu].
Qed.

End Lifts.

Section BudgetFacts.
Context `{PyRuntime} `{TumblrClient}.

Lemma finder_check_and_wait_tracker (f : Finder) :
  (finder_check_and_wait f).1 = (check_and_wait (rate_tracker f) (clock f)).1.1
  ∧ rate_tracker (finder_check_and_wait f).2
    = (check_and_wait (rate_tracker f) (clock f)).1.2.
Proof.
  unfold finder_check_and_wait.
  by destruct (check_and_wait _ _) as [[ok t] [d|]].
Qed.

Global Instance keeps_budget_refl : Reflexive keeps_budget.
Proof. by intros f _ Hb. Qed.

Global Instance keeps_budget_trans : Transitive keeps_budget.
Proof.
  intros f1 f2 f3 H12 H23 Hroomy Hb.
  destruct (H12 Hroomy Hb) as [[Eh Ed] Hb2].
  destruct H23 as [[Eh3 Ed3] Hb3]; [|done|].
  { unfold roomy. by rewrite Eh, Ed. }
  split; [|done]. split; congruence.
Qed.

Lemma keeps_budget_same_tracker (f f' : Finder) :
  rate_tracker f' = rate_tracker f → keeps_budget f f'.
Proof. intros E _ Hb. by rewrite E. Qed.

Lemma check_keeps_budget (f : Finder) :
  keeps_budget f (finder_check_and_wait f).2.
Proof.
  intros Hroomy Hb. destruct (finder_check_and_wait_tracker f) as [_ ->].
  by destruct (check_and_wait_budget _ (clock f) Hroomy Hb) as (? & ? & _).
Qed.

Lemma check_record_keeps_budget (f : Finder) :
  (finder_check_and_wait f).1 = true →
  keeps_budget f (finder_record_call (finder_check_and_wait f).2).
Proof.
  intros Hok Hroomy Hb. destruct (finder_check_and_wait_tracker f) as [Eok Et].
  destruct (check_and_wait_budget _ (clock f) Hroomy Hb) as (Hl & _ & Hrec).
  unfold finder_record_call. simpl. rewrite Et. split.
  - exact Hl.
  - apply Hrec. by rewrite <- Eok.
Qed.

Lemma auto_search_iter_keeps_budget (theme : string) (max_posts : Z)
    (x : SearchState * Finder) :
  keeps_budget x.2 (step_value (auto_search_iter theme max_posts x)).2.
Proof.
  destruct x as [st f]. unfold auto_search_iter. simpl.
  case_match; [|done].
  pose proof (check_keeps_budget f) as Hc.
  pose proof (check_record_keeps_budget f) as Hr.
  destruct (finder_check_and_wait f) as [[] f0]; simpl in *; [|done].
  destruct (tagged _ _ _) as [response|]; simpl.
  - etrans; [by apply Hr|]. apply keeps_budget_same_tracker.
    unfold handle_response. by repeat case_match.
  - etrans; [exact Hc|]. by apply keeps_budget_same_tracker.
Qed.

Lemma auto_get_blog_info_keeps_budget (name : string) (f : Finder) :
  keeps_budget f (auto_get_blog_info name f).2.
Proof.
  unfold auto_get_blog_info.
  pose proof (check_keeps_budget f) as Hc.
  pose proof (check_record_keeps_budget f) as Hr.
  destruct (finder_check_and_wait f) as [[] f0]; simpl in *; [|done].
  etrans; [by apply Hr|]. by apply keeps_budget_same_tracker.
Qed.

Lemma auto_process_one_keeps_budget (theme : string)
    (min_followers max_days_inactive processed : Z)
    (item : string * gset string) (f : Finder) :
  keeps_budget f
    (flow_state (auto_process_one theme min_followers max_days_inactive
                   processed item f)).
Proof.
  destruct item as [name mentions]. unfold auto_process_one.
  case_match; [by apply keeps_budget_same_tracker|].
  pose proof (auto_get_blog_info_keeps_budget name f) as Hg.
  destruct (auto_get_blog_info name f) as [[info|] f1]; simpl in Hg.
  - etrans; [exact Hg|]. apply keeps_budget_same_tracker.
    repeat case_match; done.
  - etrans; [exact Hg|].
    pose proof (check_keeps_budget f1) as Hc.
    destruct (finder_check_and_wait f1) as [[] f2]; simpl in *; [done|].
    etrans; [exact Hc|]. by apply keeps_budget_same_tracker.
Qed.

(** X2.  A rate-governed finder whose limits leave room for the margin
    and one call, and whose counts are at most the limits minus the
    margin, keeps both counts at most the limits minus the margin, and
    keeps its limits, through a theme search, through the processing of a
    batch and through a whole search, however these end. *)
Theorem governed_finder_keeps_budget (theme : string) (themes : list string)
    (bl : BlogLocations) (max_posts min_followers max_days_inactive : Z)
    (f : Finder) :
  roomy (rate_tracker f) → within_budget (rate_tracker f) →
  (same_limits (rate_tracker f)
     (rate_tracker (auto_search_theme_tag theme max_posts f).2)
   ∧ within_budget
       (rate_tracker (auto_search_theme_tag theme max_posts f).2))
  ∧ (same_limits (rate_tracker f)
       (rate_tracker
          (state (auto_process_blogs bl theme min_followers
                    max_days_inactive f)))
     ∧ within_budget
         (rate_tracker
            (state (auto_process_blogs bl theme min_followers
                      max_days_inactive f))))
  ∧ (same_limits (rate_tracker f)
       (rate_tracker
          (state (run_search auto_methods themes max_posts min_followers
                    max_days_inactive f)))
     ∧ within_budget
         (rate_tracker
            (state (run_search auto_methods themes max_posts min_followers
                      max_days_inactive f)))).
Proof.
  intros Hroomy Hb.
  assert (∀ theme max_posts f,
            keeps_budget f (auto_search_theme_tag theme max_posts f).2)
    as Hsearch.
  { intros theme' max' f'. apply (lift_search keeps_budget).
    apply auto_search_iter_keeps_budget. }
  assert (∀ bl theme min_followers max_days_inactive f,
            keeps_budget f
              (state (auto_process_blogs bl theme min_followers
                        max_days_inactive f)))
    as Hprocess.
  { intros bl' theme' minf maxd f'. apply (lift_auto_process keeps_budget).
    - intros. apply auto_process_one_keeps_budget.
    - intros f''. by apply keeps_budget_same_tracker. }
  split; [|split].
  - exact (Hsearch theme max_posts f Hroomy Hb).
  - exact (Hprocess bl theme min_followers max_days_inactive f Hroomy Hb).
  - apply (lift_run keeps_budget auto_methods); [..|done|done].
    + intros. apply Hsearch.
    + intros. apply Hprocess.
    + intros f'. by apply keeps_budget_same_tracker.
Qed.

End BudgetFacts.

(** X2, witness: the search of two themes by a new finder. *)
Lemma governed_finder_keeps_budget_witness :
  within_budget (rate_tracker two_theme_auto_run).
Proof.
  destruct (@governed_finder_keeps_budget source_order_runtime
              two_theme_client "a" ["a"; "b"] [] 50 10 90 start_finder)
    as (_ & _ & _ & Hb).
  - by vm_compute.
  - by vm_compute.
  - exact Hb.
Defined.

(** ** Calls sent and calls counted *)

Section CallFacts.
Context `{PyRuntime} `{TumblrClient}.

Global Instance calls_counted_refl : Reflexive calls_counted.
Proof. intros f. exists []. simpl. split_and!; [done|lia|intros; lia]. Qed.

Global Instance calls_counted_trans : Transitive calls_counted.
Proof.
  intros f1 f2 f3 (l1 & E1 & Hle1 & Heq1) (l2 & E2 & Hle2 & Heq2).
  exists (l2 ++ l1). rewrite E2, E1, length_app, app_assoc.
  split_and!; [done|lia|]. intros Hn. specialize (Heq1 Hn).
  specialize (Heq2 Hn). lia.
Qed.

Lemma calls_counted_same (f f' : Finder) :
  api_log f' = api_log f →
  total_calls (rate_tracker f') = total_calls (rate_tracker f) →
  calls_counted f f'.
Proof.
  intros El Et. exists []. rewrite El, Et. simpl.
  split_and!; [done|lia|intros; lia].
Qed.

Lemma check_calls_counted (f : Finder) :
  calls_counted f (finder_check_and_wait f).2.
Proof.
  apply calls_counted_same; [apply finder_check_and_wait_log|].
  destruct (finder_check_and_wait_tracker f) as [_ ->].
  apply check_and_wait_total_calls.
Qed.

(** A call that is counted and sent. *)
Lemma counted_call (c : ApiCall) (f : Finder) :
  calls_counted f (log_call c (finder_record_call f))
  ∧ calls_counted f (finder_record_call (log_call c f)).
Proof.
  split; exists [c]; simpl; split_and!; done || (intros; lia) || lia.
Qed.

Lemma auto_search_iter_calls_counted (theme : string) (max_posts : Z)
    (x : SearchState * Finder) :
  calls_counted x.2 (step_value (auto_search_iter theme max_posts x)).2.
Proof.
  destruct x as [st f]. unfold auto_search_iter. simpl.
  case_match; [|done].
  pose proof (check_calls_counted f) as Hc.
  destruct (finder_check_and_wait f) as [[] f0]; simpl in *; [|done].
  etrans; [exact Hc|].
  destruct (tagged theme (cursor_arg (before st)) (page_limit max_posts st))
    as [response|] eqn:Etag; simpl.
  - etrans; [apply (counted_call (CallTagged theme (cursor_arg (before st))
                                    (page_limit max_posts st)) f0)|].
    apply calls_counted_same; unfold handle_response; by repeat case_match.
  - eexists [_]. simpl. split_and!; [done|lia|].
    intros Hn. specialize (Hn theme (cursor_arg (before st))
                             (page_limit max_posts st)).
    rewrite Etag in Hn. by destruct Hn.
Qed.

Lemma auto_get_blog_info_calls_counted (name : string) (f : Finder) :
  calls_counted f (auto_get_blog_info name f).2.
Proof.
  unfold auto_get_blog_info.
  pose proof (check_calls_counted f) as Hc.
  destruct (finder_check_and_wait f) as [[] f0]; simpl in *; [|done].
  etrans; [exact Hc|]. apply counted_call.
Qed.

Lemma auto_process_one_calls_counted (theme : string)
    (min_followers max_days_inactive processed : Z)
    (item : string * gset string) (f : Finder) :
  calls_counted f
    (flow_state (auto_process_one theme min_followers max_days_inactive
                   processed item f)).
Proof.
  destruct item as [name mentions]. unfold auto_process_one.
  case_match; [by apply calls_counted_same|].
  pose proof (auto_get_blog_info_calls_counted name f) as Hg.
  destruct (auto_get_blog_info name f) as [[info|] f1]; simpl in Hg.
  - etrans; [exact Hg|]. apply calls_counted_same; by repeat case_match.
  - etrans; [exact Hg|].
    pose proof (check_calls_counted f1) as Hc.
    destruct (finder_check_and_wait f1) as [[] f2]; simpl in *; [done|].
    etrans; [exact Hc|]. by apply calls_counted_same.
Qed.

(** X3.  In the rate-governed finder the tracker never counts more calls
    than were sent, through a theme search, the processing of a batch or
    a whole search, however these end; it counts every call that was sent
    when [tagged] never raises (a [tagged] call that raises is sent and
    not counted, a profile call is counted before it is sent). *)
Theorem governed_calls_are_counted (theme : string) (themes : list string)
    (bl : BlogLocations) (max_posts min_followers max_days_inactive : Z)
    (f : Finder) :
  calls_counted f (auto_search_theme_tag theme max_posts f).2
  ∧ calls_counted f
      (state (auto_process_blogs bl theme min_followers max_days_inactive
                f))
  ∧ calls_counted f
      (state (run_search auto_methods themes max_posts min_followers
                max_days_inactive f)).
Proof.
  assert (∀ theme max_posts f,
            calls_counted f (auto_search_theme_tag theme max_posts f).2)
    as Hsearch.
  { intros theme' max' f'. apply (lift_search calls_counted).
    apply auto_search_iter_calls_counted. }
  assert (∀ bl theme min_followers max_days_inactive f,
            calls_counted f
              (state (auto_process_blogs bl theme min_followers
                        max_days_inactive f)))
    as Hprocess.
  { intros bl' theme' minf maxd f'. apply (lift_auto_process calls_counted).
    - intros. apply auto_process_one_calls_counted.
    - intros f''. by apply calls_counted_same. }
  split; [|split].
  - apply Hsearch.
  - apply Hprocess.
  - apply (lift_run calls_counted auto_methods).
    + intros. apply Hsearch.
    + intros. apply Hprocess.
    + intros f'. by apply calls_counted_same.
Qed.

(** A loop whose rounds keep [P] ends in [Q] when leaving the loop from
    [P] gives [Q]. *)
Lemma run_loop_inv2 {A : Type} (body : A → Step A) (P Q : A → Prop)
    (fuel : nat) (a r : A) :
  (∀ x y, P x → body x = Next y → P y) →
  (∀ x y, P x → body x = Break y → Q y) →
  P a → run_loop body fuel a = Some r → Q r.
Proof.
  intros HN HB. revert a. induction fuel as [|fuel IH]; intros a Ha; [done|].
  simpl. destruct (body a) as [a'|a'] eqn:E.
  - intros [= <-]. by apply (HB a).
  - apply IH. by apply (HN a).
Qed.

(** What a round of either search does to the log and to the count of
    posts. *)
Lemma page_round (theme : string) (max_posts : Z) (st : SearchState)
    (response : list Post) (f f0 : Finder) (l : list ApiCall) :
  api_log f = l ++ api_log f0 →
  Forall (page_call theme max_posts) l →
  Z.of_nat (List.length l) ≤ posts_retrieved st →
  posts_retrieved st < max_posts →
  let c := CallTagged theme (cursor_arg (before st))
             (page_limit max_posts st) in
  page_call theme max_posts c
  ∧ Z.of_nat (List.length (c :: l)) ≤ Z.max 0 max_posts
  ∧ (page_limit max_posts st ≤ Z.of_nat (List.length response) →
     Z.of_nat (List.length (c :: l))
     ≤ posts_retrieved (absorb_page st response)).
Proof.
  intros El HF Hlen Hlt c. rewrite absorb_page_retrieved.
  unfold page_limit. cbn [List.length]. split_and!.
  - eexists _, _. split; [done|]. unfold page_limit. lia.
  - lia.
  - lia.
Qed.

Lemma handle_response_cases (max_posts : Z) (st : SearchState)
    (response : list Post) (f : Finder) :
  (∃ st', handle_response max_posts st response f = Break (st', f))
  ∨ (handle_response max_posts st response f
     = Next (absorb_page st response, sleep (2 * second) f)
     ∧ page_limit max_posts st ≤ Z.of_nat (List.length response)).
Proof.
  unfold handle_response. destruct response as [|post page]; [by left; eexists|].
  destruct (Z.ltb_spec (Z.of_nat (List.length (post :: page)))
              (page_limit max_posts st)); [by left; eexists | by right].
Qed.

(** The invariant of the search loops for X4. *)
Lemma search_pages_fetched
    (body : SearchState * Finder → Step (SearchState * Finder))
    (theme : string) (max_posts : Z) (f : Finder) :
  (∀ st f1,
     body (st, f1) = Break (st, f1)
     ∨ (∃ f2, body (st, f1) = Break (st, f2) ∧ api_log f2 = api_log f1)
     ∨ (posts_retrieved st < max_posts
        ∧ ∃ f2 response,
            api_log f2
            = CallTagged theme (cursor_arg (before st))
                (page_limit max_posts st) :: api_log f1
            ∧ ((∃ st', body (st, f1) = Break (st', f2))
               ∨ (body (st, f1)
                  = Next (absorb_page st response, sleep (2 * second) f2)
                  ∧ page_limit max_posts st
                    ≤ Z.of_nat (List.length response))))) →
  pages_fetched theme max_posts f
    (search_result f
       (run_loop body (search_fuel max_posts) (search_init, f))).2.
Proof.
  intros Hbody.
  destruct (run_loop body (search_fuel max_posts) (search_init, f))
    as [[st f']|] eqn:E; simpl.
  2:{ exists []. split_and!; [done|done|simpl; lia]. }
  apply (run_loop_inv2 body
           (λ x, ∃ l, api_log x.2 = l ++ api_log f
                      ∧ Forall (page_call theme max_posts) l
                      ∧ Z.of_nat (List.length l) ≤ posts_retrieved x.1
                      ∧ Z.of_nat (List.length l) ≤ Z.max 0 max_posts)
           (λ x, pages_fetched theme max_posts f x.2)) in E; [done| | |].
  - intros [st1 f1] [st2 f2] (l & El & HF & Hlen & Hmax) Hnext. simpl in *.
    destruct (Hbody st1 f1) as [Hb|[(f3 & Hb & _)|(Hlt & f3 & response & Elog & Hb)]];
      [congruence|congruence|].
    destruct Hb as [[st' Hb]|[Hb Hfull]]; [congruence|].
    rewrite Hb in Hnext. injection Hnext as <- <-.
    destruct (page_round theme max_posts st1 response f1 f l El HF Hlen Hlt)
      as (Hc & Hm & Hr).
    eexists (_ :: l). simpl. rewrite Elog, El.
    split_and!; [done|by constructor|by apply Hr|exact Hm].
  - intros [st1 f1] [st2 f2] (l & El & HF & Hlen & Hmax) Hbreak. simpl in *.
    destruct (Hbody st1 f1) as [Hb|[(f3 & Hb & Elog)|(Hlt & f3 & response & Elog & Hb)]].
    + rewrite Hb in Hbreak. injection Hbreak as <- <-. by exists l.
    + rewrite Hb in Hbreak. injection Hbreak as <- <-.
      exists l. by rewrite Elog.
    + destruct Hb as [[st' Hb]|[Hb Hfull]]; [|congruence].
      rewrite Hb in Hbreak. injection Hbreak as <- <-.
      destruct (page_round theme max_posts st1 response f1 f l El HF Hlen Hlt)
        as (Hc & Hm & _).
      eexists (_ :: l). rewrite Elog, El.
      split_and!; [done|by constructor|exact Hm].
  - exists []. simpl. split_and!; [done|done|done|lia].
Qed.

(** X4.  A theme search, in either variant, sends only [tagged] calls
    for its theme, each asking for at least 1 and at most 20 posts and for
    no more than [max_posts], and it sends at most [max_posts] of them
    (none when [max_posts] is not positive). *)
Theorem search_sends_bounded_pages (theme : string) (max_posts : Z)
    (f : Finder) :
  pages_fetched theme max_posts f (search_theme_tag theme max_posts f).2
  ∧ pages_fetched theme max_posts f
      (auto_search_theme_tag theme max_posts f).2.
Proof.
  split; apply search_pages_fetched; intros st f1.
  - unfold search_iter.
    destruct (Z.ltb_spec (posts_retrieved st) max_posts); [|by left].
    right. right. split; [done|].
    destruct (tagged _ _ _) as [response|].
    + exists (log_call (CallTagged theme (cursor_arg (before st))
                          (page_limit max_posts st)) f1), response.
      split; [done|]. apply handle_response_cases.
    + exists (log_call (CallTagged theme (cursor_arg (before st))
                          (page_limit max_posts st)) f1), [].
      split; [reflexivity|]. left. by eexists.
  - unfold auto_search_iter.
    destruct (Z.ltb_spec (posts_retrieved st) max_posts); [|by left].
    pose proof (finder_check_and_wait_log f1) as Elog.
    destruct (finder_check_and_wait f1) as [[] f0]; simpl in *.
    2:{ right. left. by exists f0. }
    right. right. split; [done|].
    destruct (tagged _ _ _) as [response|].
    + exists (finder_record_call
                (log_call (CallTagged theme (cursor_arg (before st))
                             (page_limit max_posts st)) f0)), response.
      split; [by rewrite <- Elog|]. apply handle_response_cases.
    + exists (log_call (CallTagged theme (cursor_arg (before st))
                          (page_limit max_posts st)) f0), [].
      split; [simpl; by rewrite <- Elog|]. left. by eexists.
Qed.

End CallFacts.

(** ** What the pipeline stores and fetches *)

Section StoreFacts.
Context `{PyRuntime} `{TumblrClient}.

Lemma resolve_location_source (mentions : gset string) (info : BlogInfo)
    (T src : string) :
  resolve_location mentions info = Some (T, src) →
  src ∈ record_sources
  ∧ (src ≠ "post_content" → T ∈ LOCATION_INDICATORS).
Proof.
  unfold resolve_location, find_location_match.
  destruct (set_iter mentions) as [|m rest].
  - destruct (match_fields (profile_fields info)) as [[T' src']|] eqn:E.
    + intros [= -> ->].
      apply match_fields_Some in E as (pre & text & post & E & _ & HT & _).
      split; [|done].
      assert ((src, text) ∈ profile_fields info) as Hin.
      { rewrite E. apply elem_of_app. right. by left. }
      unfold profile_fields in Hin.
      apply elem_of_cons in Hin as [[= Hs _]|Hin]; [subst src; by_decide|].
      apply elem_of_cons in Hin as [[= Hs _]|Hin]; [subst src; by_decide|].
      apply list_elem_of_singleton in Hin as [= Hs _]. subst src. by_decide.
    + intros (-> & HT & _)%match_tags_Some. split; [by_decide|done].
  - intros [= <- <-]. split; [by_decide|done].
Qed.

Lemma qualify_meets_filters (name : string) (mentions : gset string)
    (theme : string) (min_followers max_days_inactive : Z)
    (info : BlogInfo) (now : Z) (r : BlogRecord) :
  qualify name mentions theme min_followers max_days_inactive info now
  = Some (Some r) →
  meets_filters min_followers name r.
Proof.
  unfold qualify, meets_criteria.
  destruct (Z.ltb_spec (default 0 (bi_total_followers info)) min_followers);
    [done|].
  destruct (default 0 (bi_updated info) =? 0); [done|].
  destruct (fromtimestamp _) as [d|]; [|done].
  destruct (max_days_inactive <? _); [done|]. simpl.
  destruct (resolve_location mentions info) as [[T src]|] eqn:E; [|done].
  intros [= <-]. apply resolve_location_source in E as [Hsrc HT].
  by split_and!.
Qed.

Global Instance keeps_filters_refl m : Reflexive (keeps_filters m).
Proof. intros f Hall. exact Hall. Qed.

Global Instance keeps_filters_trans m : Transitive (keeps_filters m).
Proof. intros f1 f2 f3 H12 H23 H1. by apply H23, H12. Qed.

Lemma keeps_filters_same (m : Z) (f f' : Finder) :
  discovered_blogs f' = discovered_blogs f → keeps_filters m f f'.
Proof. intros E Hall k r. rewrite E. apply Hall. Qed.

Lemma keeps_filters_store (m : Z) (name theme : string) (r : BlogRecord)
    (f f' : Finder) :
  meets_filters m name r →
  discovered_blogs f' = <[name := r]> (discovered_blogs f) →
  keeps_filters m f f'.
Proof.
  intros Hr E Hall k r'. rewrite E, lookup_insert. case_decide.
  - intros [= <-]. by subst.
  - apply Hall.
Qed.

Lemma process_one_keeps_filters (theme : string)
    (min_followers max_days_inactive : Z) (item : string * gset string)
    (f : Finder) :
  keeps_filters min_followers f
    (state (process_one theme min_followers max_days_inactive item f)).
Proof.
  destruct item as [name mentions]. unfold process_one.
  case_match; [by apply keeps_filters_same|].
  unfold get_blog_info. destruct (blog_info name) as [info|];
    [|by apply keeps_filters_same].
  destruct (qualify _ _ _ _ _ _ _) as [[r|]|] eqn:Hq;
    [|by apply keeps_filters_same..].
  apply qualify_meets_filters in Hq.
  by apply (keeps_filters_store _ name theme r).
Qed.

Lemma auto_process_one_keeps_filters (theme : string)
    (min_followers max_days_inactive processed : Z)
    (item : string * gset string) (f : Finder) :
  keeps_filters min_followers f
    (flow_state (auto_process_one theme min_followers max_days_inactive
                   processed item f)).
Proof.
  destruct item as [name mentions]. unfold auto_process_one.
  case_match; [by apply keeps_filters_same|].
  destruct (auto_get_blog_info name f) as [info f1] eqn:Hget.
  destruct (auto_get_blog_info_results _ _ _ _ Hget) as [Ed _].
  destruct info as [info|].
  - destruct (qualify _ _ _ _ _ _ _) as [[r|]|] eqn:Hq;
      [|by apply keeps_filters_same..].
    apply qualify_meets_filters in Hq.
    apply (keeps_filters_store _ name theme r); [done|].
    simpl. rewrite <- Ed. by destruct (_ =? _).
  - destruct (finder_check_and_wait_results f1) as [Ed2 _].
    destruct (finder_check_and_wait f1) as [[] f2]; simpl in *;
      apply keeps_filters_same; simpl; congruence.
Qed.

Lemma update_theme_matched_keeps_filters (m : Z) (f : Finder) :
  keeps_filters m f (update_theme_matched f).
Proof.
  intros Hall k r. rewrite update_theme_matched_lookup.
  destruct (discovered_blogs f !! k) as [r0|] eqn:E; [|done].
  intros [= <-]. specialize (Hall k r0 E). by case_match.
Qed.

(** X6.  When every record of the qualified set has at least
    [min_followers] followers, is stored under its own blog name and
    names one of the sources post_content, url, title, description, tags
    (with a term of the gazetteer unless the source is post_content),
    this is still so after the processing of a batch and after a whole
    search, in either variant and however they end; it is so in
    particular for every search that starts from an empty qualified
    set. *)
Theorem qualified_records_meet_filters (M : FinderMethods)
    (themes : list string) (bl : BlogLocations) (theme : string)
    (max_posts min_followers max_days_inactive : Z) (f : Finder) :
  M = base_methods ∨ M = auto_methods →
  all_meet_filters min_followers f →
  all_meet_filters min_followers
    (state (m_process_blogs M bl theme min_followers max_days_inactive f))
  ∧ all_meet_filters min_followers
      (state (run_search M themes max_posts min_followers
                max_days_inactive f)).
Proof.
  intros HM Hall.
  assert (∀ bl theme f,
            keeps_filters min_followers f
              (state (m_process_blogs M bl theme min_followers
                        max_days_inactive f)))
    as Hprocess.
  { intros bl' theme' f'. destruct HM as [-> | ->]; simpl.
    - apply (lift_process (keeps_filters min_followers)).
      intros. apply process_one_keeps_filters.
    - apply (lift_auto_process (keeps_filters min_followers)).
      + intros. apply auto_process_one_keeps_filters.
      + intros f''. by apply keeps_filters_same. }
  split; [by apply Hprocess|].
  apply (lift_run (keeps_filters min_followers) M); [| |..|done].
  - intros theme' f'. apply keeps_filters_same.
    destruct HM as [-> | ->].
    + by destruct (proj1 base_methods_ok theme' max_posts f').
    + by destruct (proj1 auto_methods_ok theme' max_posts f').
  - intros. apply Hprocess.
  - apply update_theme_matched_keeps_filters.
Qed.

Lemma process_one_profile_call (theme : string)
    (min_followers max_days_inactive : Z) (name : string)
    (mentions : gset string) (f : Finder) :
  profile_call_for name f
    (state (process_one theme min_followers max_days_inactive
              (name, mentions) f)).
Proof.
  unfold process_one.
  destruct (discovered_blogs f !! name) eqn:E; [by left|]. right.
  split; [|done]. unfold get_blog_info. by repeat case_match.
Qed.

Lemma auto_process_one_profile_call (theme : string)
    (min_followers max_days_inactive processed : Z) (name : string)
    (mentions : gset string) (f : Finder) :
  profile_call_for name f
    (flow_state (auto_process_one theme min_followers max_days_inactive
                   processed (name, mentions) f)).
Proof.
  assert (∀ f1 f', profile_call_for name f f1 → api_log f' = api_log f1 →
                   profile_call_for name f f') as Hsame.
  { intros f1 f' [E|[E Hnone]] E'; [left | right]; by rewrite E'. }
  unfold auto_process_one.
  destruct (discovered_blogs f !! name) eqn:E; [by left|].
  assert (profile_call_for name f (auto_get_blog_info name f).2) as Hg.
  { unfold auto_get_blog_info, profile_call_for.
    pose proof (finder_check_and_wait_log f) as El.
    destruct (finder_check_and_wait f) as [[] f0]; simpl in *.
    - right. by rewrite El.
    - by left. }
  destruct (auto_get_blog_info name f) as [[info|] f1]; simpl in Hg.
  - apply (Hsame f1); [done|]. by repeat case_match.
  - pose proof (finder_check_and_wait_log f1) as El.
    destruct (finder_check_and_wait f1) as [[] f2]; simpl in *;
      by apply (Hsame f1).
Qed.

Lemma profiles_fetched_cons (name : string) (mentions : gset string)
    (bl : BlogLocations) (f f1 f2 : Finder) :
  profile_call_for name f f1 → extends f f1 →
  profiles_fetched bl f1 f2 →
  profiles_fetched ((name, mentions) :: bl) f f2.
Proof.
  intros Hcall (Hd & _ & _) (names & El & Hsub & HF).
  assert (Forall (λ n, discovered_blogs f !! n = None) names) as HF'.
  { eapply Forall_impl; [exact HF|]. intros n Hnone. simpl in Hnone.
    destruct (discovered_blogs f !! n) as [r|] eqn:E; [|done].
    by rewrite (Hd n r E) in Hnone. }
  destruct Hcall as [E1|[E1 Hnone]].
  - exists names. rewrite El, E1.
    split_and!; [done|by apply sublist_cons|done].
  - exists (name :: names).
    rewrite El, E1, reverse_cons, fmap_app, <- app_assoc.
    split_and!; [done|by apply sublist_skip|by constructor].
Qed.

Lemma profiles_fetched_refl (bl : BlogLocations) (f f' : Finder) :
  api_log f' = api_log f → profiles_fetched bl f f'.
Proof.
  intros E. exists []. rewrite E.
  split_and!; [done|apply sublist_nil_l|done].
Qed.

(** X7.  The processing of a batch, in either variant and however it
    ends, sends only profile calls: going through the batch in order it
    sends at most one for each candidate, so that the blogs it asked for
    are the names of the batch with some left out, and it sends none for
    a blog that was in the qualified set when the batch started; when
    the names of the batch are distinct no blog is asked for twice. *)
Theorem profiles_fetched_once (bl : BlogLocations) (theme : string)
    (min_followers max_days_inactive : Z) (f : Finder) :
  (profiles_fetched bl f
     (state (process_blogs bl theme min_followers max_days_inactive f))
   ∧ profiles_fetched bl f
       (state (auto_process_blogs bl theme min_followers max_days_inactive
                 f)))
  ∧ ∀ f' names,
      f' = state (process_blogs bl theme min_followers max_days_inactive f)
      ∨ f' = state (auto_process_blogs bl theme min_followers
                      max_days_inactive f) →
      api_log f' = (CallBlogInfo <$> reverse names) ++ api_log f →
      NoDup bl.*1 → NoDup names.
Proof.
  assert (profiles_fetched bl f
            (state (process_blogs bl theme min_followers max_days_inactive
                      f))
          ∧ profiles_fetched bl f
              (state (auto_process_blogs bl theme min_followers
                        max_days_inactive f))) as Hboth.
  { split.
    - revert f.
      induction bl as [|[name mentions] bl IH]; intros f;
        [by apply profiles_fetched_refl|].
      rewrite process_blogs_cons.
      pose proof (process_one_profile_call theme min_followers
                    max_days_inactive name mentions f) as Hc.
      pose proof (item_effect_extends _ _ _ _
                    (process_one_effect theme min_followers
                       max_days_inactive name mentions f)) as He.
      destruct (process_one _ _ _ _ _) as [f'|f']; simpl in Hc, He.
      + apply (profiles_fetched_cons name mentions bl f f'); [done|done|].
        apply IH.
      + apply (profiles_fetched_cons name mentions bl f f' f'); [done|done|].
        by apply profiles_fetched_refl.
    - unfold auto_process_blogs. generalize 0 as processed. revert f.
      induction bl as [|[name mentions] bl IH]; intros f processed;
        [by apply profiles_fetched_refl|].
      rewrite auto_process_items_cons.
      pose proof (auto_process_one_profile_call theme min_followers
                    max_days_inactive (processed + 1) name mentions f) as Hc.
      pose proof (item_effect_extends _ _ _ _
                    (auto_process_one_effect theme min_followers
                       max_days_inactive (processed + 1) name mentions f))
        as He.
      destruct (auto_process_one _ _ _ _ _ _) as [f'|f'|f'];
        simpl in Hc, He.
      + apply (profiles_fetched_cons name mentions bl f f'); [done|done|].
        apply IH.
      + apply (profiles_fetched_cons name mentions bl f f' f'); [done|done|].
        by apply profiles_fetched_refl.
      + apply (profiles_fetched_cons name mentions bl f f' f'); [done|done|].
        by apply profiles_fetched_refl. }
  split; [exact Hboth|].
  intros f' names Hf' El Hnd.
  assert (profiles_fetched bl f f') as (names' & El' & Hsub & _).
  { destruct Hf' as [-> | ->]; apply Hboth. }
  rewrite El' in El. apply app_inv_tail in El.
  assert (Inj (=) (=) CallBlogInfo) as Hinj by (intros x y E; congruence).
  apply (inj (fmap CallBlogInfo)) in El. apply (inj reverse) in El.
  subst names'. by apply (sublist_NoDup names bl.*1).
Qed.

Lemma save_progress_in_sync (f : Finder) : progress_in_sync (save_progress f).
Proof.
  eexists. split; [reflexivity|]. simpl.
  split_and!; [done|apply blog_themes_round_trip|done].
Qed.

(** X8.  When the rate-governed processing of a batch returns, whether
    it went through the whole batch or stopped on a denied budget, the
    progress file holds the qualified set, the themes and the tracker
    status as they are at that moment; a finder that loads the file gets
    that qualified set and those themes. *)
Theorem processing_leaves_progress_saved (bl : BlogLocations)
    (theme : string) (min_followers max_days_inactive : Z) (f f' : Finder) :
  auto_process_blogs bl theme min_followers max_days_inactive f
  = Returned f' →
  progress_in_sync f'
  ∧ ∀ g,
      progress_file g = progress_file f' →
      (load_progress g).1 = true
      ∧ discovered_blogs (load_progress g).2 = discovered_blogs f'
      ∧ blog_themes (load_progress g).2 = blog_themes f'.
Proof.
  intros Hret.
  assert (progress_in_sync f') as Hsync.
  { revert Hret. unfold auto_process_blogs. generalize 0 as processed.
    revert f.
    induction bl as [|[name mentions] bl IH]; intros f processed.
    { intros [= <-]. apply save_progress_in_sync. }
    rewrite auto_process_items_cons.
    destruct (auto_process_one _ _ _ _ _ _) as [f1|f1|f1] eqn:E;
      [apply IH| |done].
    intros [= <-]. unfold auto_process_one in E.
    repeat case_match; simplify_eq; apply save_progress_in_sync. }
  split; [exact Hsync|].
  intros g Hg. destruct Hsync as (p & Hp & Hd & Ht & _).
  unfold load_progress. rewrite Hg, Hp. simpl. by rewrite Hd, Ht.
Qed.

End StoreFacts.

(** X6, witness: the search of two themes by a new finder, whose
    qualified set is empty. *)
Lemma qualified_records_meet_filters_witness :
  all_meet_filters 10 two_theme_base_run.
Proof.
  destruct (@qualified_records_meet_filters source_order_runtime
              two_theme_client
              (@base_methods source_order_runtime two_theme_client)
              ["a"; "b"] [] "a" 50 10 90 start_finder) as [_ Hrun].
  - by left.
  - intros k r Hk. vm_compute in Hk. discriminate Hk.
  - exact Hrun.
Defined.

(** X8, witness: the rate-governed finder processes the two candidates
    of the theme "a" and returns. *)
Lemma processing_leaves_progress_saved_witness :
  progress_in_sync
    (state (@auto_process_blogs source_order_runtime two_theme_client
              [("x", ∅); ("y", {[mention "sf" "post_body"]})] "a" 10 90
              start_finder)).
Proof.
  refine (proj1 (@processing_leaves_progress_saved source_order_runtime
                   two_theme_client
                   [("x", ∅); ("y", {[mention "sf" "post_body"]})] "a" 10 90
                   start_finder
                   (state (@auto_process_blogs source_order_runtime
                             two_theme_client
                             [("x", ∅); ("y", {[mention "sf" "post_body"]})]
                             "a" 10 90 start_finder)) _)).
  vm_compute. reflexivity.
Defined.

(** ** Candidates, evidence and texts *)

Section CandidateFacts.
Context `{PyRuntime} `{TumblrClient}.
Import Text TextFacts.

Lemma bl_add_keys (name m x : string) (bl : BlogLocations) :
  x ∈ (bl_add name m bl).*1 ↔ x = name ∨ x ∈ bl.*1.
Proof.
  induction bl as [|[k s] bl IH]; simpl.
  - rewrite list_elem_of_singleton, elem_of_nil. tauto.
  - destruct (decide (k = name)) as [->|Hne]; simpl.
    + rewrite elem_of_cons. tauto.
    + rewrite !elem_of_cons, IH. tauto.
Qed.

Lemma bl_register_keys (name x : string) (bl : BlogLocations) :
  x ∈ (bl_register name bl).*1 ↔ x = name ∨ x ∈ bl.*1.
Proof.
  induction bl as [|[k s] bl IH]; simpl.
  - rewrite list_elem_of_singleton, elem_of_nil. tauto.
  - destruct (decide (k = name)) as [->|Hne]; simpl.
    + rewrite elem_of_cons. tauto.
    + rewrite !elem_of_cons, IH. tauto.
Qed.

Lemma bl_add_NoDup (name m : string) (bl : BlogLocations) :
  NoDup bl.*1 → NoDup (bl_add name m bl).*1.
Proof.
  induction bl as [|[k s] bl IH]; simpl.
  - intros _. apply NoDup_singleton.
  - intros [Hk Hnd]%NoDup_cons. destruct (decide (k = name)) as [->|Hne];
      simpl; apply NoDup_cons; split; [done|done| |by apply IH].
    rewrite bl_add_keys. intros [->|?]; done.
Qed.

Lemma bl_register_NoDup (name : string) (bl : BlogLocations) :
  NoDup bl.*1 → NoDup (bl_register name bl).*1.
Proof.
  induction bl as [|[k s] bl IH]; simpl.
  - intros _. apply NoDup_singleton.
  - intros [Hk Hnd]%NoDup_cons. destruct (decide (k = name)) as [->|Hne];
      simpl; apply NoDup_cons; split; [done|done| |by apply IH].
    rewrite bl_register_keys. intros [->|?]; done.
Qed.

Lemma content_fields_keys (post : Post) (key text : string) :
  (key, text) ∈ content_fields post → key ∈ content_keys.
Proof.
  unfold content_fields, content_field, content_keys.
  destruct (p_body post), (p_caption post), (p_question post),
    (p_answer post); simpl; intros Hin;
    repeat (apply elem_of_cons in Hin as [[= -> _]|Hin];
            [by_decide|]);
    by apply elem_of_nil in Hin.
Qed.

Lemma check_post_content_source (post : Post) (T src : string) :
  check_post_content_for_location post = Some (T, src) →
  T ∈ LOCATION_INDICATORS ∧ src ∈ post_sources.
Proof.
  unfold check_post_content_for_location.
  intros (pre & key & text & rest & E & -> & _ & HT & _)%match_content_Some.
  split; [done|].
  assert (key ∈ content_keys) as Hk.
  { apply (content_fields_keys post key text). rewrite E.
    apply elem_of_app. right. by left. }
  unfold content_keys in Hk.
  repeat (apply elem_of_cons in Hk as [->|Hk]; [by_decide|]).
  by apply elem_of_nil in Hk.
Qed.

Lemma bl_add_evidence (name T src : string) (bl : BlogLocations) :
  T ∈ LOCATION_INDICATORS → src ∈ post_sources →
  evidence_from_posts bl →
  evidence_from_posts (bl_add name (mention T src) bl).
Proof.
  intros HT Hsrc. induction bl as [|[k s] bl IH]; intros Hbl n ev m Hin Hm.
  - apply list_elem_of_singleton in Hin as [= -> ->].
    apply elem_of_singleton in Hm as ->. by exists T, src.
  - simpl in Hin. destruct (decide (k = name)) as [->|Hne].
    + apply elem_of_cons in Hin as [[= -> ->]|Hin].
      * apply elem_of_union in Hm as [->%elem_of_singleton|Hm];
          [by exists T, src|].
        apply (Hbl name s m); [by left | done].
      * apply (Hbl n ev m); [by right | done].
    + apply elem_of_cons in Hin as [[= -> ->]|Hin].
      * apply (Hbl k s m); [by left | done].
      * apply (IH (λ n' ev' m' Hin',
                     Hbl n' ev' m' (list_elem_of_further _ _ _ Hin'))
                 n ev m Hin Hm).
Qed.

Lemma bl_register_evidence (name : string) (bl : BlogLocations) :
  evidence_from_posts bl → evidence_from_posts (bl_register name bl).
Proof.
  induction bl as [|[k s] bl IH]; intros Hbl n ev m Hin Hm.
  - apply list_elem_of_singleton in Hin as [= -> ->].
    by apply not_elem_of_empty in Hm.
  - simpl in Hin. destruct (decide (k = name)) as [->|Hne];
      [by apply (Hbl n ev m)|].
    apply elem_of_cons in Hin as [[= -> ->]|Hin].
    + apply (Hbl k s m); [by left | done].
    + apply (IH (λ n' ev' m' Hin',
                   Hbl n' ev' m' (list_elem_of_further _ _ _ Hin'))
               n ev m Hin Hm).
Qed.

(** A property of the mapping that every post keeps holds of the result
    of either search. *)
Lemma search_blog_locations_inv (P : BlogLocations → Prop) (theme : string)
    (max_posts : Z) (f : Finder) :
  P [] → (∀ bl b post, P bl → P (absorb_post (bl, b) post).1) →
  P (search_theme_tag theme max_posts f).1
  ∧ P (auto_search_theme_tag theme max_posts f).1.
Proof.
  intros Hnil Hpost.
  assert (∀ st page, P (blog_locations st) →
                     P (blog_locations (absorb_page st page))) as Hpage.
  { intros st page Hst. unfold absorb_page.
    assert (∀ acc, P acc.1 → P (fold_left absorb_post page acc).1) as Hfold.
    { induction page as [|post page IH]; intros [bl b] Hacc; [done|].
      cbn [fold_left]. apply IH. by apply Hpost. }
    specialize (Hfold (blog_locations st, before st) Hst).
    by destruct (fold_left absorb_post page _). }
  assert (∀ max st response f0,
            P (blog_locations st) →
            P (blog_locations
                 (step_value (handle_response max st response f0)).1))
    as Hresp.
  { intros max st response f0 Hst. unfold handle_response.
    destruct response; [done|]. case_match; simpl; by apply Hpage. }
  assert (∀ body fuel,
            (∀ x, P (blog_locations x.1) →
                  P (blog_locations (step_value (body x)).1)) →
            P (search_result f (run_loop body fuel (search_init, f))).1)
    as Hloop.
  { intros body fuel Hbody.
    destruct (run_loop body fuel (search_init, f)) as [[st f']|] eqn:E;
      [|done].
    by apply (run_loop_inv body (λ x, P (blog_locations x.1))) in E. }
  split; apply Hloop; intros [st f0] Hst; simpl in Hst.
  - unfold search_iter. case_match; [|done].
    destruct (tagged _ _ _); [|done]. by apply Hresp.
  - unfold auto_search_iter. case_match; [|done].
    destruct (finder_check_and_wait f0) as [[] f1]; simpl; [|done].
    destruct (tagged _ _ _); [|done]. by apply Hresp.
Qed.

(** X5.  The mapping that a theme search returns, in either variant,
    names each blog once, and every mention in it has the form
    "T (in S)" for a term T of the gazetteer and a source S among
    post_body, post_caption, post_question and post_answer. *)
Theorem search_returns_clean_candidates (theme : string) (max_posts : Z)
    (f : Finder) :
  (NoDup (search_theme_tag theme max_posts f).1.*1
   ∧ evidence_from_posts (search_theme_tag theme max_posts f).1)
  ∧ (NoDup (auto_search_theme_tag theme max_posts f).1.*1
     ∧ evidence_from_posts (auto_search_theme_tag theme max_posts f).1).
Proof.
  apply (search_blog_locations_inv
           (λ bl, NoDup bl.*1 ∧ evidence_from_posts bl)).
  - split; [constructor|]. intros name ev m Hin. by apply elem_of_nil in Hin.
  - intros bl b post [Hnd Hev]. unfold absorb_post. simpl.
    destruct (p_blog_name post) as [name|]; [|done].
    destruct (check_post_content_for_location post) as [[T src]|] eqn:E.
    + apply check_post_content_source in E as [HT Hsrc]. split.
      * by apply bl_register_NoDup, bl_add_NoDup.
      * by apply bl_register_evidence, bl_add_evidence.
    + split; [by apply bl_register_NoDup | by apply bl_register_evidence].
Qed.




End CandidateFacts.

(** ** Markup removal, mentions and sorted themes *)

Section MarkupFacts.
Import Text TextFacts.

Lemma strip_tags_go_sublist (b : bool) (s : list ascii) :
  strip_tags_go b s `sublist_of` s.
Proof.
  revert b. induction s as [|c s IH]; intros b; [done|].
  cbn [strip_tags_go]. destruct b.
  - destruct (is_gt c); by apply sublist_cons.
  - destruct (is_lt c); [|by apply sublist_skip].
    destruct s as [|d s']; [done|].
    destruct (negb (is_gt d) && existsb is_gt s');
      [by apply sublist_cons | by apply sublist_skip].
Qed.

Lemma existsb_sublist (p : ascii → bool) (l k : list ascii) :
  l `sublist_of` k → existsb p l = true → existsb p k = true.
Proof.
  intros Hsub. rewrite !existsb_exists.
  intros (x & Hx & Hp). exists x. split; [|done].
  apply list_elem_of_In. apply list_elem_of_In in Hx.
  eapply elem_of_submseteq; [done | by apply sublist_submseteq].
Qed.

Lemma strip_tags_go_plain (s : list ascii) :
  existsb is_lt s = false ∨ existsb is_gt s = false →
  strip_tags_go false s = s.
Proof.
  induction s as [|c s IH]; [done|]. cbn [strip_tags_go existsb].
  intros Hno. destruct (is_lt c) eqn:Elt.
  - destruct Hno as [Hno|Hno]; [done|].
    apply orb_false_iff in Hno as [Hc Hs].
    destruct s as [|d s']; [done|].
    cbn [existsb] in Hs. apply orb_false_iff in Hs as [Hd Hs'].
    rewrite Hs', andb_false_r. f_equal. apply IH. right.
    cbn [existsb]. by rewrite Hd, Hs'.
  - f_equal. apply IH. destruct Hno as [Hno|Hno]; [by left|right].
    by apply orb_false_iff in Hno as [_ ?].
Qed.

Lemma strip_tags_go_lt (c d : ascii) (s : list ascii) :
  is_lt c = true →
  strip_tags_go false (c :: d :: s) =
  if negb (is_gt d) && existsb is_gt s then strip_tags_go true (d :: s)
  else c :: strip_tags_go false (d :: s).
Proof. intros Hc. cbn [strip_tags_go]. by rewrite Hc. Qed.

Lemma strip_tags_go_idemp (b : bool) (s : list ascii) :
  strip_tags_go false (strip_tags_go b s) = strip_tags_go b s.
Proof.
  revert b. induction s as [|c s IH]; intros b; [by destruct b|].
  cbn [strip_tags_go]. destruct b.
  - destruct (is_gt c); apply IH.
  - destruct (is_lt c) eqn:Elt.
    + destruct s as [|d s']; [cbn [strip_tags_go]; by rewrite Elt|].
      destruct (negb (is_gt d) && existsb is_gt s') eqn:Etag; [apply IH|].
      specialize (IH false).
      destruct (strip_tags_go false (d :: s')) as [|d' o'] eqn:Eout;
        [cbn [strip_tags_go]; by rewrite Elt|].
      rewrite (strip_tags_go_lt c d' o' Elt).
      assert (negb (is_gt d') && existsb is_gt o' = false) as ->;
        [|by rewrite IH].
      apply andb_false_iff in Etag as [Hd|Hs'].
      * apply negb_false_iff in Hd. cbn [strip_tags_go] in Eout.
        assert (is_lt d = false) as Hlt.
        { unfold is_lt, is_gt in *. apply N.eqb_eq in Hd.
          rewrite Hd. done. }
        rewrite Hlt in Eout. injection Eout as <- _. by rewrite Hd.
      * apply andb_false_iff. right.
        destruct (existsb is_gt o') eqn:Eo; [|done].
        rewrite <- Hs'. symmetry.
        apply (existsb_sublist is_gt o' s'); [|done].
        pose proof (strip_tags_go_sublist false (d :: s')) as Hsub.
        rewrite Eout in Hsub.
        destruct (is_gt d) eqn:Ed.
        -- cbn [strip_tags_go] in Eout.
           assert (is_lt d = false) as Hlt.
           { unfold is_lt, is_gt in *. apply N.eqb_eq in Ed.
             rewrite Ed. done. }
           rewrite Hlt in Eout. injection Eout as _ <-.
           apply strip_tags_go_sublist.
        -- apply sublist_cons_r in Hsub as [Hsub|(o2 & [= <- <-] & Hsub)].
           ++ etrans; [|exact Hsub]. by apply sublist_cons.
           ++ done.
    + cbn [strip_tags_go]. by rewrite Elt, IH.
Qed.

Lemma strip_tags_go_skip (tag rest : list ascii) :
  existsb is_gt tag = false →
  strip_tags_go true (tag ++ ">"%char :: rest) = strip_tags_go false rest.
Proof.
  induction tag as [|c tag IH]; [done|]. cbn [existsb app strip_tags_go].
  intros [-> Htag]%orb_false_iff. by apply IH.
Qed.

Lemma strip_tags_go_app (pre rest : list ascii) :
  existsb is_lt pre = false →
  strip_tags_go false (pre ++ rest) = pre ++ strip_tags_go false rest.
Proof.
  induction pre as [|c pre IH]; [done|]. cbn [existsb app strip_tags_go].
  intros [-> Hpre]%orb_false_iff. f_equal. by apply IH.
Qed.

(** X10.  Removing the markup of a text only deletes characters; a text
    without "<" or without ">" is left as it is; text before the first
    "<" is kept and a tag "<...>" with at least one character other
    than ">" between the brackets is dropped; removing the markup a
    second time changes nothing. *)
Theorem strip_tags_properties (s : string) :
  chars (strip_tags s) `sublist_of` chars s
  ∧ (existsb is_lt (chars s) = false ∨ existsb is_gt (chars s) = false →
     strip_tags s = s)
  ∧ (∀ pre tag rest,
       existsb is_lt (chars pre) = false →
       tag ≠ "" → existsb is_gt (chars tag) = false →
       s = pre +:+ "<" +:+ tag +:+ ">" +:+ rest →
       strip_tags s = pre +:+ strip_tags rest)
  ∧ strip_tags (strip_tags s) = strip_tags s.
Proof.
  unfold strip_tags. split_and!.
  - rewrite chars_of_list. apply strip_tags_go_sublist.
  - intros Hno. rewrite strip_tags_go_plain by done.
    apply string_of_list_ascii_of_string.
  - intros pre tag rest Hpre Htag Hgt ->. apply chars_inj.
    rewrite !chars_app, !chars_of_list, strip_tags_go_app by done.
    f_equal. change (chars "<") with ["<"%char].
    change (chars ">") with [">"%char]. cbn [app].
    destruct (chars tag) as [|d tag'] eqn:E.
    { destruct tag; [done|discriminate E]. }
    cbn [existsb] in Hgt. apply orb_false_iff in Hgt as [Hd Htag'].
    cbn [strip_tags_go app is_lt]. change (is_lt "<") with true.
    cbv iota. rewrite Hd. cbn [negb andb].
    assert (existsb is_gt (tag' ++ ">"%char :: chars rest) = true) as ->.
    { rewrite existsb_app. cbn [existsb].
      change (is_gt ">") with true. by rewrite orb_true_r. }
    apply (strip_tags_go_skip tag' (chars rest) Htag').
  - by rewrite chars_of_list, strip_tags_go_idemp.
Qed.

End MarkupFacts.

Section MentionFacts.
Import Text TextFacts.

Lemma before_sep_unfold (sep s : list ascii) :
  before_sep sep s =
  match strip_prefix sep s with
  | Some _ => Some []
  | None =>
      match s with
      | [] => None
      | c :: s' => cons c <$> before_sep sep s'
      end
  end.
Proof. by destruct s. Qed.

Lemma before_sep_Some (sep s pre : list ascii) :
  before_sep sep s = Some pre → ∃ rest, s = pre ++ sep ++ rest.
Proof.
  revert pre. induction s as [|c s IH]; intros pre;
    rewrite before_sep_unfold.
  - destruct (strip_prefix sep []) as [rest|] eqn:E; [|done].
    intros [= <-]. apply strip_prefix_Some in E. by exists rest.
  - destruct (strip_prefix sep (c :: s)) as [rest|] eqn:E.
    + intros [= <-]. apply strip_prefix_Some in E. by exists rest.
    + destruct (before_sep sep s) as [pre'|]; [|done].
      intros [= <-]. destruct (IH pre' eq_refl) as [rest ->].
      by exists rest.
Qed.

Lemma before_sep_None (sep s : list ascii) :
  before_sep sep s = None → ¬ contains sep s.
Proof.
  induction s as [|c s IH]; rewrite before_sep_unfold;
    destruct (strip_prefix sep _) as [r|] eqn:E; try done.
  - intros _ (pre & post & E'). symmetry in E'.
    apply app_eq_nil in E' as [-> [-> ->]%app_eq_nil].
    discriminate E.
  - destruct (before_sep sep s) as [pre|]; [done|].
    intros _ (pre & post & E'). destruct pre as [|a pre].
    + simpl in E'. rewrite E', strip_prefix_app in E. done.
    + injection E' as -> ->. apply IH; [done|]. by exists pre, post.
Qed.

Lemma mention_sep_not_prefix (T rest : list ascii) (c : ascii) :
  (∀ post, c :: T ≠ mention_sep ++ post) →
  strip_prefix mention_sep ((c :: T) ++ mention_sep ++ " "%char :: rest)
  = None.
Proof.
  intros Hno. unfold mention_sep in *. change (chars " (in")
    with [" "%char; "("%char; "i"%char; "n"%char] in *.
  destruct T as [|c2 [|c3 [|c4 T]]]; cbn [app strip_prefix];
    repeat (case_decide; [subst|done]); try done.
  by destruct (Hno T).
Qed.

Lemma before_mention_sep (T rest : list ascii) :
  ¬ contains mention_sep T →
  before_sep mention_sep (T ++ mention_sep ++ " "%char :: rest) = Some T.
Proof.
  induction T as [|c T IH]; intros Hno; rewrite before_sep_unfold.
  - cbn [app]. by rewrite strip_prefix_app.
  - rewrite mention_sep_not_prefix.
    + cbn [app]. rewrite IH; [done|].
      intros (pre & post & ->). apply Hno. by exists (c :: pre), post.
    + intros post E. apply Hno. by exists [], post.
Qed.

(** X11.  The term that the pipeline reads back from a mention is the
    part of the mention before its first " (in", or the whole mention
    when it has none.  For a term in which " (in" does not occur, the
    term read back from the mention built from it and any source is
    that term. *)
Theorem mention_term_round_trip (T : string)
    (HT : ¬ contains mention_sep (chars T)) :
  (∀ src, mention_term (mention T src) = T)
  ∧ (∀ m, (¬ contains mention_sep (chars m) → mention_term m = m)
          ∧ (contains mention_sep (chars m) →
             ∃ rest, chars m = chars (mention_term m) ++ mention_sep ++ rest)
          ∧ ¬ contains mention_sep (chars (mention_term m))).
Proof.
  split.
  - intros src. unfold mention_term, mention.
    rewrite !chars_app. change (chars " (in ") with (mention_sep ++ [" "%char]).
    rewrite <- !app_assoc. cbn [app].
    change (chars " (in") with mention_sep.
    rewrite (before_mention_sep (chars T) _ HT).
    apply string_of_list_ascii_of_string.
  - intros m. unfold mention_term. change (chars " (in") with mention_sep.
    destruct (before_sep mention_sep (chars m)) as [pre|] eqn:E.
    + rewrite chars_of_list. split_and!.
      * intros Hno. destruct Hno. apply before_sep_Some in E as [rest E].
        by exists pre, rest.
      * intros _. by apply before_sep_Some in E.
      * revert E. generalize (chars m). intros s. revert pre.
        induction s as [|c s IH]; intros pre; rewrite before_sep_unfold;
          destruct (strip_prefix mention_sep _) as [r|] eqn:Es.
        -- intros [= <-]. intros (p & q & Epq). symmetry in Epq.
           by apply app_eq_nil in Epq as [_ [? _]%app_eq_nil].
        -- done.
        -- intros [= <-]. intros (p & q & Epq). symmetry in Epq.
           by apply app_eq_nil in Epq as [_ [? _]%app_eq_nil].
        -- destruct (before_sep mention_sep s) as [pre'|] eqn:E'; [|done].
           intros [= <-]. intros (p & q & Epq). destruct p as [|a p].
           ++ apply before_sep_Some in E' as [rest ->].
              cbn [app] in Epq.
              rewrite app_comm_cons, Epq, <- app_assoc, strip_prefix_app
                in Es.
              done.
           ++ injection Epq as -> ->. apply (IH _ eq_refl).
              by exists p, q.
    + apply before_sep_None in E. split_and!; [done| |done].
      intros Hc. by destruct E.
Qed.

Lemma mention_term_round_trip_witness :
  mention_term (mention "oakland" "post_body") = "oakland".
Proof.
  refine (proj1 (mention_term_round_trip "oakland" _) "post_body").
  apply before_sep_None. reflexivity.
Defined.

End MentionFacts.

(** ** Sorted themes and eligibility thresholds *)

Section SortedFacts.

Lemma sorted_unique (l k : list string) :
  l ≡ₚ k → merge_sort String.le l = merge_sort String.le k.
Proof.
  intros Hperm.
  apply (Sorted_unique String.le).
  - apply Sorted_merge_sort, _.
  - apply Sorted_merge_sort, _.
  - by rewrite !merge_sort_Permutation.
Qed.

(** X12.  The themes of a blog are written in ascending order, each
    once, whatever the order in which the set is iterated: two runtimes
    give the same sorted list and the same text. *)
Theorem sorted_themes_canonical (rt1 rt2 : PyRuntime)
    (themes_set : gset string) :
  @sorted rt1 themes_set = @sorted rt2 themes_set
  ∧ @themes_text rt1 themes_set = @themes_text rt2 themes_set
  ∧ StronglySorted String.le (@sorted rt1 themes_set)
  ∧ NoDup (@sorted rt1 themes_set)
  ∧ (∀ theme, theme ∈ @sorted rt1 themes_set ↔ theme ∈ themes_set).
Proof.
  assert (∀ rt : PyRuntime, NoDup (@set_iter rt themes_set)) as Hnd.
  { intros rt. rewrite set_iter_perm. apply NoDup_elements. }
  assert (@sorted rt1 themes_set = @sorted rt2 themes_set) as E.
  { apply sorted_unique. by rewrite !set_iter_perm. }
  split_and!.
  - done.
  - unfold themes_text. by rewrite E.
  - apply StronglySorted_merge_sort; apply _.
  - unfold sorted. rewrite merge_sort_Permutation. apply Hnd.
  - intros theme. unfold sorted.
    rewrite merge_sort_Permutation, set_iter_perm. apply elem_of_elements.
Qed.

End SortedFacts.

Section ThresholdFacts.
Context `{PyRuntime}.

(** X13.  A profile that is eligible stays eligible, with the same
    date of its last post, when the follower minimum is lowered, the
    inactivity limit is raised or the test is made earlier; a profile
    that is not eligible stays so in the other direction; and a test
    that raises still raises with the laxer thresholds. *)
Theorem meets_criteria_monotone (blog_info : BlogInfo)
    (min_followers min_followers' max_days_inactive max_days_inactive'
     now now' : Z) :
  min_followers' ≤ min_followers →
  max_days_inactive ≤ max_days_inactive' →
  now' ≤ now →
  (∀ d, meets_criteria blog_info min_followers max_days_inactive now
        = Some (true, d) →
        meets_criteria blog_info min_followers' max_days_inactive' now'
        = Some (true, d))
  ∧ (∀ d', meets_criteria blog_info min_followers' max_days_inactive' now'
           = Some (false, d') →
           ∃ d, meets_criteria blog_info min_followers max_days_inactive now
                = Some (false, d))
  ∧ (meets_criteria blog_info min_followers max_days_inactive now = None →
     meets_criteria blog_info min_followers' max_days_inactive' now'
     = None).
Proof.
  intros Hf Hd Hn. unfold meets_criteria, days.
  assert (∀ t, (now' - t) `div` day ≤ (now - t) `div` day) as Hdiv.
  { intros t. apply Z.div_le_mono; [done|lia]. }
  destruct (fromtimestamp (default 0 (bi_updated blog_info))) as [t|].
  - specialize (Hdiv t).
    split_and!; [intros d|intros d'|];
      repeat (case_match; simplify_eq/=; try done; try lia;
              try by eexists).
  - split_and!; [intros d|intros d'|];
      repeat (case_match; simplify_eq/=; try done; try lia;
              try by eexists).
Qed.

End ThresholdFacts.

(** X13, witness: a profile of 5 followers that passes a minimum of 5
    passes a minimum of 0. *)
Lemma meets_criteria_monotone_witness :
  @meets_criteria source_order_runtime profile_5_followers 0 100 0
  = Some (true, Some (of_epoch 1700000000)).
Proof.
  apply (proj1 (@meets_criteria_monotone source_order_runtime
                  profile_5_followers 5 0 90 100 0 0
                  ltac:(lia) ltac:(lia) ltac:(lia))).
  reflexivity.
Defined.

(** ** The credentials file and the command line *)

Section StripFacts.
Import Text TextFacts PyStr.

Lemma lstrip_spaces (pre s : list ascii) :
  Forall (λ c, is_space c = true) pre → lstrip (pre ++ s) = lstrip s.
Proof.
  induction 1 as [|c pre Hc _ IH]; [done|]. cbn [app lstrip].
  by rewrite Hc.
Qed.

Lemma lstrip_decomp (s : list ascii) :
  ∃ pre, s = pre ++ lstrip s
         ∧ Forall (λ c, is_space c = true) pre
         ∧ ∀ c, head (lstrip s) = Some c → is_space c = false.
Proof.
  induction s as [|c s (pre & E & Hpre & Hhead)]; [by exists []|].
  cbn [lstrip]. destruct (is_space c) eqn:Ec.
  - exists (c :: pre). split_and!; [by rewrite E at 1 | by constructor | done].
  - exists []. split_and!; [done | constructor |]. by intros ? [= <-].
Qed.

Lemma lstrip_fixed (s : list ascii) :
  (∀ c, head s = Some c → is_space c = false) → lstrip s = s.
Proof.
  destruct s as [|c s]; [done|]. intros Hc. cbn [lstrip].
  by rewrite (Hc c eq_refl).
Qed.

Lemma lstrip_fixed_head (s : list ascii) (c : ascii) :
  lstrip s = s → head s = Some c → is_space c = false.
Proof.
  intros E Hc. destruct (lstrip_decomp s) as (pre & _ & _ & Hhead).
  rewrite E in Hhead. by apply Hhead.
Qed.

Lemma lstrip_app_fixed (l y : list ascii) :
  lstrip l = l → l ≠ [] → lstrip (l ++ y) = l ++ y.
Proof.
  intros E Hne. apply lstrip_fixed. intros c Hc.
  apply (lstrip_fixed_head l c E). by destruct l.
Qed.

Lemma lstrip_last (s : list ascii) (c : ascii) :
  last (lstrip s) = Some c → last s = Some c.
Proof.
  destruct (lstrip_decomp s) as (pre & E & _ & _). intros Hc.
  rewrite E, last_app, Hc. done.
Qed.

Lemma rstrip_decomp (s : list ascii) :
  ∃ post, s = rstrip s ++ post
          ∧ Forall (λ c, is_space c = true) post
          ∧ ∀ c, last (rstrip s) = Some c → is_space c = false.
Proof.
  unfold rstrip.
  destruct (lstrip_decomp (reverse s)) as (pre & E & Hpre & Hhead).
  exists (reverse pre). split_and!.
  - rewrite <- reverse_app, <- E. by rewrite reverse_involutive.
  - by apply Forall_reverse.
  - intros c. rewrite last_reverse. apply Hhead.
Qed.

Lemma rstrip_head (s : list ascii) (c : ascii) :
  head (rstrip s) = Some c → head s = Some c.
Proof.
  unfold rstrip. rewrite head_reverse.
  intros Hc%lstrip_last. by rewrite last_reverse in Hc.
Qed.

Lemma rstrip_space (s : list ascii) (c : ascii) :
  is_space c = true → rstrip (s ++ [c]) = rstrip s.
Proof.
  intros Hc. unfold rstrip. rewrite reverse_snoc. cbn [lstrip].
  by rewrite Hc.
Qed.

Lemma rstrip_app_fixed (k v : list ascii) :
  (∀ c, last k = Some c → is_space c = false) →
  rstrip v = v → rstrip (k ++ v) = k ++ v.
Proof.
  intros Hk Hv. unfold rstrip in *. rewrite reverse_app.
  assert (lstrip (reverse v) = reverse v) as Ev.
  { by rewrite <- Hv at 2; rewrite reverse_involutive. }
  destruct (decide (v = [])) as [->|Hne].
  - rewrite reverse_nil. cbn [app].
    rewrite lstrip_fixed; [by rewrite reverse_involutive, app_nil_r|].
    intros c. rewrite head_reverse. apply Hk.
  - rewrite lstrip_app_fixed; [|done|].
    + by rewrite <- reverse_app, reverse_involutive.
    + intros E. apply Hne. by rewrite <- (reverse_involutive v), E.
Qed.

Lemma strip_trims (s : list ascii) : trims_to s (strip s).
Proof.
  unfold strip. destruct (lstrip_decomp s) as (pre & E & Hpre & Hhead).
  destruct (rstrip_decomp (lstrip s)) as (post & E' & Hpost & Hlast).
  exists pre, post. split_and!; [|done|done|].
  - by rewrite <- E', <- E.
  - split; [|done]. intros c Hc. by apply Hhead, rstrip_head.
Qed.

Lemma strip_trimmed (s : list ascii) : trimmed s → strip s = s.
Proof.
  intros [Hhead Hlast]. unfold strip. rewrite (lstrip_fixed s Hhead).
  unfold rstrip. rewrite lstrip_fixed; [apply reverse_involutive|].
  intros c. rewrite head_reverse. apply Hlast.
Qed.

Lemma cut_Some (sep : ascii) (s a b : list ascii) :
  cut sep s = Some (a, b) ↔ s = a ++ sep :: b ∧ sep ∉ a.
Proof.
  revert a. induction s as [|c s IH]; intros a; cbn [cut].
  - split; [done|]. intros [E _]. by destruct a.
  - destruct (decide (c = sep)) as [->|Hne].
    + split.
      * intros [= <- <-]. split; [done | apply not_elem_of_nil].
      * intros [E Ha]. destruct a as [|x a]; [by injection E as <-|].
        injection E as <- _. destruct Ha. by left.
    + destruct (cut sep s) as [[a' b']|] eqn:Ec; cbn.
      * split.
        -- intros [= <- <-]. destruct (proj1 (IH a') eq_refl) as [-> Ha].
           split; [done|]. by intros [?|?]%elem_of_cons.
        -- intros [E Ha]. destruct a as [|x a]; [by injection E as ->|].
           injection E as <- ->.
           assert (Some (a', b') = Some (a, b)) as [= -> ->]; [|done].
           apply IH. split; [done|]. intros ?. apply Ha. by right.
      * split; [done|]. intros [E Ha].
        destruct a as [|x a]; [by injection E as ->|].
        injection E as <- ->.
        assert (None = Some (a, b)) as [=].
        apply IH. split; [done|]. intros ?. apply Ha. by right.
Qed.

Lemma cut_None (sep : ascii) (s : list ascii) :
  cut sep s = None ↔ sep ∉ s.
Proof.
  induction s as [|c s IH]; cbn [cut].
  - split; [intros _; apply not_elem_of_nil | done].
  - destruct (decide (c = sep)) as [->|Hne].
    + split; [done|]. intros Hs. destruct Hs. by left.
    + rewrite not_elem_of_cons, <- IH.
      destruct (cut sep s) as [[??]|]; cbn; split; try done.
      by intros [_ ?].
Qed.

Lemma join_chars_cons (sep : ascii) (p q : list ascii)
    (rest : list (list ascii)) :
  join_chars sep (p :: q :: rest) = p ++ sep :: join_chars sep (q :: rest).
Proof. done. Qed.

Lemma split_spec (sep : ascii) (s : list ascii) :
  split sep s ≠ []
  ∧ join_chars sep (split sep s) = s
  ∧ Forall (λ p, sep ∉ p) (split sep s).
Proof.
  induction s as [|c s (Hne & Hjoin & Hno)]; cbn [split].
  - split_and!; [done|done|]. constructor; [apply not_elem_of_nil|done].
  - destruct (decide (c = sep)) as [->|Hc].
    + split_and!; [done| |].
      * destruct (split sep s) as [|w ws]; [done|].
        by rewrite join_chars_cons, Hjoin.
      * constructor; [apply not_elem_of_nil | done].
    + destruct (split sep s) as [|w ws]; [done|].
      apply Forall_cons in Hno as [Hw Hws]. split_and!; [done| |].
      * rewrite <- Hjoin. destruct ws as [|w2 ws]; [done|].
        by rewrite !join_chars_cons.
      * constructor; [|done]. by intros [?|?]%elem_of_cons.
Qed.

Lemma split_unique (sep : ascii) (parts : list (list ascii)) :
  parts ≠ [] → Forall (λ p, sep ∉ p) parts →
  split sep (join_chars sep parts) = parts.
Proof.
  induction parts as [|p parts IH]; [done|]. intros _ Hno.
  apply Forall_cons in Hno as [Hp Hparts].
  assert (∀ q rest, sep ∉ q →
            split sep (q ++ sep :: rest) = q :: split sep rest) as Hcut.
  { induction q as [|c q IHq]; intros rest Hq; cbn [app split].
    - by rewrite decide_True.
    - apply not_elem_of_cons in Hq as [Hc Hq].
      by rewrite decide_False, IHq. }
  assert (∀ q, sep ∉ q → split sep q = [q]) as Hone.
  { induction q as [|c q IHq]; intros Hq; cbn [split]; [done|].
    apply not_elem_of_cons in Hq as [Hc Hq].
    by rewrite decide_False, IHq. }
  destruct parts as [|p2 parts]; [by apply Hone|].
  rewrite join_chars_cons, Hcut by done. f_equal. by apply IH.
Qed.

End StripFacts.

Section EnvFacts.
Context `{Platform}.
Import Text TextFacts PyStr.

Lemma env_line_assignment (raw key value : list ascii) (environ : Environ) :
  is_assignment raw key value →
  env_line raw environ
  = environ_set (string_of_list_ascii key) (string_of_list_ascii value)
      environ.
Proof.
  intros (E & Hkey & Hhash). unfold env_line. rewrite Hhash, E.
  assert (nonempty (key ++ "="%char :: value) = true) as ->
    by by destruct key.
  assert (has_char "=" (key ++ "="%char :: value) = true) as ->.
  { apply bool_decide_eq_true. apply elem_of_app. right. by left. }
  cbn [negb andb]. unfold split1.
  by rewrite (proj2 (cut_Some "=" _ key value) (conj eq_refl Hkey)).
Qed.

Lemma env_line_other (raw : list ascii) (environ : Environ) :
  no_assignment raw → env_line raw environ = Some environ.
Proof.
  unfold env_line. intros [E|[E|E]].
  - by rewrite E.
  - by rewrite E, andb_false_r.
  - unfold has_char. by rewrite (bool_decide_eq_false_2 _ E), andb_false_r.
Qed.

Lemma env_line_exhaustive (raw : list ascii) :
  no_assignment raw ∨ ∃ key value, is_assignment raw key value.
Proof.
  unfold no_assignment, is_assignment.
  destruct (startswith "#" (strip raw)) eqn:Ehash; [by left; right; left|].
  destruct (cut "=" (strip raw)) as [[key value]|] eqn:Ecut.
  - right. exists key, value. apply cut_Some in Ecut as [E Hkey].
    by rewrite E at 1.
  - left. right. right. by apply cut_None.
Qed.

(** X14.  The loader of the credentials file treats a line with the
    whitespace at its ends removed.  A line that is then empty, starts
    with "#" or has no "=" changes nothing.  Any other line assigns:
    the name is the text before the first "=", the value all the text
    after it, both as they stand; the only way for a line to fail is
    that the environment refuses the assignment. *)
Theorem env_line_cases (raw : list ascii) (environ : Environ) :
  trims_to raw (strip raw)
  ∧ (no_assignment raw ∨ ∃ key value, is_assignment raw key value)
  ∧ (no_assignment raw → env_line raw environ = Some environ)
  ∧ (∀ key value, is_assignment raw key value →
       env_line raw environ
       = environ_set (string_of_list_ascii key)
           (string_of_list_ascii value) environ)
  ∧ (env_line raw environ = None →
     ∃ key value, is_assignment raw key value
                  ∧ environ_accepts (string_of_list_ascii key)
                      (string_of_list_ascii value) = false).
Proof.
  split_and!.
  - apply strip_trims.
  - apply env_line_exhaustive.
  - apply env_line_other.
  - intros key value. apply env_line_assignment.
  - intros Hfail. destruct (env_line_exhaustive raw) as [Hno|(k & v & Ha)].
    + by rewrite env_line_other in Hfail.
    + exists k, v. split; [done|].
      rewrite (env_line_assignment _ _ _ _ Ha) in Hfail.
      unfold environ_set in Hfail. by destruct (environ_accepts _ _).
Qed.

Lemma universal_newlines_write_text (s : list ascii) :
  CR ∉ s → universal_newlines (write_text s) = s.
Proof.
  unfold write_text.
  set (f := λ c : ascii, if decide (c = LF) then linesep else [c]).
  induction s as [|c s IH]; [done|].
  intros [Hc Hs]%not_elem_of_cons. specialize (IH Hs).
  change ((c :: s) ≫= f) with (f c ++ (s ≫= f)).
  destruct (decide (c = LF)) as [->|Hlf].
  - assert (f LF = linesep) as -> by done.
    destruct linesep_cases as [E|E]; rewrite E; cbn [app universal_newlines].
    + rewrite decide_False by done. by rewrite IH.
    + rewrite (decide_True (P := CR = CR)) by done.
      rewrite (decide_True (P := LF = LF)) by done.
      rewrite (decide_False (P := LF = CR)) by done. by rewrite IH.
  - assert (f c = [c]) as -> by (unfold f; by rewrite decide_False).
    cbn [app universal_newlines]. rewrite decide_False by done.
    by rewrite IH.
Qed.

Lemma file_lines_line (l rest : list ascii) :
  LF ∉ l → file_lines (l ++ LF :: rest) = (l ++ [LF]) :: file_lines rest.
Proof.
  induction l as [|c l IH]; cbn [app file_lines].
  - intros _. by rewrite decide_True.
  - intros [Hc Hl]%not_elem_of_cons.
    rewrite decide_False by done. by rewrite IH.
Qed.

(** The line that [save_credentials_to_file] writes for a name and a
    value. *)
Lemma env_line_credential (K v : string) (k0 : ascii) (k' : list ascii)
    (environ : Environ) :
  chars K = k0 :: k' → is_space k0 = false → k0 ≠ "#"%char →
  "="%char ∉ chars K → rstrip (chars v) = chars v →
  env_line ((chars K ++ "="%char :: chars v) ++ [LF]) environ
  = environ_set K v environ.
Proof.
  intros EK Hk0 Hhash Heq Hv.
  rewrite (env_line_assignment _ (chars K) (chars v)).
  { unfold chars. by rewrite !string_of_list_ascii_of_string. }
  assert (strip ((chars K ++ "="%char :: chars v) ++ [LF])
          = chars K ++ "="%char :: chars v) as E.
  { unfold strip. rewrite lstrip_fixed.
    2:{ rewrite EK. by intros c [= <-]. }
    rewrite rstrip_space by done.
    rewrite (cons_middle "="%char), app_assoc.
    apply rstrip_app_fixed; [|done].
    intros c. rewrite last_snoc. by intros [= <-]. }
  split_and!; [done|done|]. rewrite E, EK. cbn [app startswith].
  by apply bool_decide_eq_false.
Qed.

Lemma encodekey_upper (K : string) : upper K = K → encodekey K = K.
Proof. intros E. by destruct encodekey_cases as [-> | ->]. Qed.

(** X15.  The file that the credential helper writes is read back by
    the loader: for four values without a line break and without
    whitespace at their end, whose assignment the environment accepts,
    loading the saved file succeeds and sets the four variables to these
    values, whatever they held before, and leaves every other variable
    as it was; when none of the values is empty, the credentials test of
    the programs passes with them. *)
Theorem saved_credentials_load
    (consumer_key consumer_secret oauth_token oauth_token_secret : string)
    (dotenv : option string) (environ : Environ) :
  one_line consumer_key → one_line consumer_secret →
  one_line oauth_token → one_line oauth_token_secret →
  environ_accepts "TUMBLR_CONSUMER_KEY" consumer_key = true →
  environ_accepts "TUMBLR_CONSUMER_SECRET" consumer_secret = true →
  environ_accepts "TUMBLR_OAUTH_TOKEN" oauth_token = true →
  environ_accepts "TUMBLR_OAUTH_SECRET" oauth_token_secret = true →
  ∃ environ',
    load_env_file
      (save_credentials_to_file true consumer_key consumer_secret
         oauth_token oauth_token_secret dotenv).2 environ
    = Some (true, environ')
    ∧ getenv "TUMBLR_CONSUMER_KEY" environ' = Some consumer_key
    ∧ getenv "TUMBLR_CONSUMER_SECRET" environ' = Some consumer_secret
    ∧ getenv "TUMBLR_OAUTH_TOKEN" environ' = Some oauth_token
    ∧ getenv "TUMBLR_OAUTH_SECRET" environ' = Some oauth_token_secret
    ∧ (∀ k, k ∉ credential_keys → environ' !! k = environ !! k)
    ∧ (consumer_key ≠ "" → consumer_secret ≠ "" → oauth_token ≠ "" →
       oauth_token_secret ≠ "" →
       credentials environ'
       = Some (consumer_key, consumer_secret, oauth_token,
               oauth_token_secret)).
Proof.
  intros (Hlf1 & Hcr1 & Hr1) (Hlf2 & Hcr2 & Hr2) (Hlf3 & Hcr3 & Hr3)
    (Hlf4 & Hcr4 & Hr4) Ha1 Ha2 Ha3 Ha4.
  set (entry := λ K v : string, (chars K ++ "="%char :: chars v) ++ [LF]).
  assert (credentials_text consumer_key consumer_secret oauth_token
            oauth_token_secret
          = entry "TUMBLR_CONSUMER_KEY" consumer_key
            ++ entry "TUMBLR_CONSUMER_SECRET" consumer_secret
            ++ entry "TUMBLR_OAUTH_TOKEN" oauth_token
            ++ entry "TUMBLR_OAUTH_SECRET" oauth_token_secret) as Etext.
  { unfold credentials_text, entry.
    rewrite <- ?app_assoc. by cbn [chars list_ascii_of_string app]. }
  assert (∀ (c : ascii) K v, c ∉ chars K → c ≠ "="%char → c ≠ LF →
            c ∉ chars v → c ∉ entry K v) as Hentry.
  { intros c K v HK Hc1 Hc2 Hv. unfold entry.
    rewrite !elem_of_app, elem_of_cons, list_elem_of_singleton. tauto. }
  assert (∀ K v rest, LF ∉ chars K → LF ∉ chars v →
            file_lines (entry K v ++ rest) = entry K v :: file_lines rest)
    as Hlines.
  { intros K v rest HK Hv. unfold entry. rewrite <- app_assoc.
    cbn [app]. apply file_lines_line.
    rewrite elem_of_app, elem_of_cons. intros [?|[?|?]]; done. }
  pose proof (encodekey_upper "TUMBLR_CONSUMER_KEY" eq_refl) as Henc1.
  pose proof (encodekey_upper "TUMBLR_CONSUMER_SECRET" eq_refl) as Henc2.
  pose proof (encodekey_upper "TUMBLR_OAUTH_TOKEN" eq_refl) as Henc3.
  pose proof (encodekey_upper "TUMBLR_OAUTH_SECRET" eq_refl) as Henc4.
  unfold save_credentials_to_file, load_env_file. cbn [snd].
  rewrite chars_of_list, universal_newlines_write_text.
  2:{ rewrite Etext, !elem_of_app.
      intros [?|[?|[?|?]]]; (eapply Hentry; last done);
        (done || by_decide). }
  rewrite Etext, !Hlines by (done || by_decide).
  rewrite <- (app_nil_r (entry "TUMBLR_OAUTH_SECRET" _)).
  rewrite Hlines by (done || by_decide).
  cbn [file_lines env_lines]. unfold entry.
  rewrite (env_line_credential "TUMBLR_CONSUMER_KEY" _ _ _ _ eq_refl)
    by (done || by_decide).
  unfold environ_set at 1. rewrite Ha1.
  rewrite (env_line_credential "TUMBLR_CONSUMER_SECRET" _ _ _ _ eq_refl)
    by (done || by_decide).
  unfold environ_set at 1. rewrite Ha2.
  rewrite (env_line_credential "TUMBLR_OAUTH_TOKEN" _ _ _ _ eq_refl)
    by (done || by_decide).
  unfold environ_set at 1. rewrite Ha3.
  rewrite (env_line_credential "TUMBLR_OAUTH_SECRET" _ _ _ _ eq_refl)
    by (done || by_decide).
  unfold environ_set at 1. rewrite Ha4.
  rewrite Henc1, Henc2, Henc3, Henc4.
  eexists. split; [done|].
  assert (∀ v : string, v ≠ "" → truthy v = true) as Htruthy
    by by intros [].
  unfold credentials, getenv. rewrite Henc1, Henc2, Henc3, Henc4.
  rewrite lookup_insert_ne by done. rewrite lookup_insert_ne by done.
  rewrite lookup_insert_ne by done. rewrite lookup_insert_eq.
  rewrite lookup_insert_ne by done. rewrite lookup_insert_ne by done.
  rewrite lookup_insert_eq.
  rewrite lookup_insert_ne by done. rewrite lookup_insert_eq.
  rewrite lookup_insert_eq.
  split_and!; try done.
  - intros k Hk. rewrite !lookup_insert_ne; [done|..];
      intros <-; apply Hk; by_decide.
  - intros ????. by rewrite !Htruthy.
Qed.

End EnvFacts.

Lemma saved_credentials_load_witness :
  ∃ environ',
    @load_env_file posix_platform
      (@save_credentials_to_file posix_platform true "ck" "cs" "ot" "os"
         None).2 ∅
    = Some (true, environ')
    ∧ @credentials posix_platform environ' = Some ("ck", "cs", "ot", "os").
Proof.
  destruct (@saved_credentials_load posix_platform "ck" "cs" "ot" "os"
              None ∅)
    as (environ' & Hload & _ & _ & _ & _ & _ & Hcred);
    try reflexivity; try (split_and!; [by_decide | by_decide | reflexivity]).
  exists environ'. split; [exact Hload|]. by apply Hcred.
Defined.

Section ThemeFacts.
Import Text TextFacts PyStr.

(** X16.  Without the themes option, or with an empty one, the programs
    search the default themes.  Otherwise the option is cut at every
    comma and each part is taken without the whitespace at its ends, in
    the order of the text; parts that are empty stay in the list.
    Themes without a comma and without whitespace at their ends, joined
    by commas, are read back as they are. *)
Theorem parse_themes_spec :
  parse_themes None = DEFAULT_THEME_TAGS
  ∧ parse_themes (Some "") = DEFAULT_THEME_TAGS
  ∧ (∀ s, s ≠ "" →
       ∃ parts, join_chars "," parts = chars s
                ∧ Forall (λ p, ","%char ∉ p) parts
                ∧ Forall2 (λ p theme, trims_to p (chars theme)) parts
                    (parse_themes (Some s)))
  ∧ (∀ themes : list string,
       Forall (λ theme, (","%char ∉ chars theme) ∧ trimmed (chars theme))
         themes →
       join_chars "," (chars <$> themes) ≠ [] →
       parse_themes
         (Some (string_of_list_ascii (join_chars "," (chars <$> themes))))
       = themes).
Proof.
  split_and!; [done|done| |].
  - intros s Hs. exists (split "," (chars s)).
    destruct (split_spec "," (chars s)) as (_ & Hjoin & Hno).
    split_and!; [done|done|].
    unfold parse_themes. destruct s as [|c s]; [done|]. cbn [truthy].
    apply Forall2_fmap_r, Forall_Forall2_diag, Forall_forall.
    intros p _. unfold compose. rewrite chars_of_list. apply strip_trims.
  - intros themes Hthemes Hne. unfold parse_themes.
    destruct (string_of_list_ascii _) as [|c s] eqn:E.
    { destruct Hne. apply (f_equal chars) in E.
      by rewrite chars_of_list in E. }
    cbn [truthy]. rewrite <- E, chars_of_list.
    rewrite split_unique.
    + rewrite <- list_fmap_compose.
      rewrite <- (list_fmap_id themes) at 2. apply Forall_fmap_ext_1.
      eapply Forall_impl; [exact Hthemes|]. intros theme [_ Ht]. simpl.
      rewrite strip_trimmed by done. apply string_of_list_ascii_of_string.
    + destruct themes; [|done]. by destruct Hne.
    + apply Forall_fmap. eapply Forall_impl; [exact Hthemes|].
      by intros theme [? _].
Qed.

End ThemeFacts.

Section ProgramFacts.
Context `{Platform} `{PyRuntime} `{TumblrClient}.
Import Text TextFacts PyStr.


Lemma export_results_files (writable : string → bool)
    (output_base : string) (f : Finder) :
  (∀ written,
     export_results writable output_base f = Returned written →
     (written = [] ↔ discovered_blogs f = ∅)
     ∧ (discovered_blogs f ≠ ∅ → written.*1 = output_files output_base))
  ∧ (state (export_results writable output_base f)).*1
    `prefix_of` output_files output_base.
Proof.
  unfold export_results, output_files.
  destruct (decide (discovered_blogs f = ∅)).
  - split; [by intros written [= <-]|]. apply prefix_nil.
  - destruct (writable (output_base +:+ ".json")); simpl.
    + destruct (writable (output_base +:+ ".csv")); simpl.
      * split; [by intros written [= <-]|done].
      * split; [done|]. by apply prefix_cons, prefix_nil.
    + split; [done|]. apply prefix_nil.
Qed.


(** X18.  A rate-governed run that resumes from the progress file of
    an earlier finder, with the credentials in place, ends with every
    blog that the earlier finder had qualified: the record is the saved
    one but for its list of matched themes, the themes saved for a blog
    are among its themes at the end, and the results are exported
    unless the earlier finder had none. *)
Theorem resumed_run_keeps_saved_blogs (args : Args) (w : World)
    (saved : Finder) :
  a_resume args = true →
  w_progress w = progress_file (save_progress saved) →
  exit_code (auto_main args w) = Some 0 →
  ∃ f,
    finder (auto_main args w) = Some f
    ∧ (∀ name r, discovered_blogs saved !! name = Some r →
         ∃ r', discovered_blogs f !! name = Some r' ∧ same_but_themes r r')
    ∧ (∀ name, themes_of saved name ⊆ themes_of f name)
    ∧ (discovered_blogs saved ≠ ∅ → files (auto_main args w) ≠ []).
Proof.
  intros Hresume Hfile. unfold auto_main.
  destruct (load_env_file (w_dotenv w) (w_environ w)) as [[b environ]|];
    [|done].
  destruct (credentials environ) as [c|]; [|done].
  rewrite Hresume, Hfile.
  set (f1 := (load_progress (new_finder (w_now w)
                               (progress_file (save_progress saved)))).2).
  assert (discovered_blogs f1 = discovered_blogs saved
          ∧ blog_themes f1 = blog_themes saved) as [Edb Ebt].
  { unfold f1. cbn. split; [done|]. apply blog_themes_round_trip. }
  unfold run_search.
  pose proof (search_themes_extends auto_methods
                (parse_themes (a_themes args)) (a_max_posts_per_theme args)
                (a_min_followers args) (a_max_days_inactive args) f1
                auto_methods_ok) as (Hdb & Hthemes & _).
  destruct (search_themes auto_methods _ _ _ _ _) as [f2|f2]; [|done].
  simpl in Hdb, Hthemes.
  assert (∀ name r, discovered_blogs saved !! name = Some r →
            ∃ r', discovered_blogs (update_theme_matched f2) !! name
                  = Some r' ∧ same_but_themes r r') as Hkept.
  { intros name r Hr. rewrite <- Edb in Hr. apply Hdb in Hr.
    rewrite update_theme_matched_lookup, Hr. cbn.
    eexists. split; [done|]. by case_match. }
  pose proof (export_results_files (w_writable w) (a_output args)
                (update_theme_matched f2)) as [Hret _].
  destruct (export_results _ _ _) as [written|written]; [|done].
  intros _. cbn [finder files]. eexists. split; [done|].
  destruct (Hret written eq_refl) as [Hempty _]. split_and!.
  - exact Hkept.
  - intros name. unfold themes_of in *. specialize (Hthemes name).
    by rewrite Ebt in Hthemes.
  - intros Hne Hfiles. apply Hempty in Hfiles.
    apply map_choose in Hne as (name & r & Hr).
    apply Hkept in Hr as (r' & Hr' & _). by rewrite Hfiles in Hr'.
Qed.

End ProgramFacts.

(** The programs on a read-only output directory and on a profile whose
    timestamp has no date: the base program returns 1, the exception
    leaves the rate-governed one. *)
Example read_only_outcomes :
  exit_code (@main posix_platform source_order_runtime two_theme_client
               resume_args read_only_world) = Some 1
  ∧ exit_code (@auto_main posix_platform source_order_runtime
                 two_theme_client resume_args read_only_world) = None
  ∧ exit_code (@main posix_platform source_order_runtime two_theme_client
                 resume_args resumed_world) = Some 0.
Proof. by vm_compute. Qed.

Example beyond_dates_outcomes :
  exit_code (@main posix_platform source_order_runtime beyond_dates_client
               resume_args resumed_world) = Some 1
  ∧ exit_code (@auto_main posix_platform source_order_runtime
                 beyond_dates_client resume_args resumed_world) = None
  ∧ files (@main posix_platform source_order_runtime beyond_dates_client
             resume_args resumed_world) = [].
Proof. by vm_compute. Qed.


(** X18, witness: the rate-governed program resumes from the progress
    file of [two_theme_auto_run]. *)
Lemma resumed_run_keeps_saved_blogs_witness :
  ∃ f,
    finder (@auto_main posix_platform source_order_runtime two_theme_client
              resume_args resumed_world) = Some f
    ∧ ∀ name r, discovered_blogs two_theme_auto_run !! name = Some r →
        ∃ r', discovered_blogs f !! name = Some r' ∧ same_but_themes r r'.
Proof.
  destruct (@resumed_run_keeps_saved_blogs posix_platform
              source_order_runtime two_theme_client resume_args
              resumed_world two_theme_auto_run eq_refl eq_refl)
    as (f & Ef & Hkept & _).
  - vm_compute. reflexivity.
  - exists f. by split_and!.
Defined.
